(** * stock-tracker: the forecasting core of [src/utils/prediction.ts]

    A shallow embedding of the indicator functions and of
    [predictFuturePrices], generic in the arithmetic of JavaScript's
    [number] type, and the instance of that arithmetic the program runs on:
    [Binary64], IEEE 754 binary64 with round-to-nearest-even, NaN,
    infinities and signed zeros, on the Standard Library's [spec_float].

    The functions are embedded twice: as functions of the elements of their
    argument arrays and of the numbers [Math.random] returns ([Prediction]),
    and as computations on a store of arrays and a generator ([Store]),
    which is where a call could keep or change state. [StoreFacts] proves
    that the second are the first.

    The code around the forecast is embedded on binary64: what
    [getStockData] of [services/stockService.ts] hands to
    [predictFuturePrices] ([StockService]), the resizing and the datasets of
    [components/StockChart.tsx] ([StockChart]), and the list of stocks of
    [App.tsx] ([App]), with the records of [types/stock.ts] ([Types]). *)

From Stdlib Require Import ZArith List Bool Lia PeanoNat.
From Stdlib Require Import Floats.SpecFloat.
From Stdlib Require Import QArith Qabs.
From Stdlib Require String.
Import ListNotations.

(** ** Arrays *)

Module JSArray.

(** [Array.prototype.slice]'s reading of an index argument against a length:
    a negative index counts from the end, and both ends are clamped. *)
Definition relIndex (len k : Z) : Z :=
  if (k <? 0)%Z then Z.max (len + k) 0 else Z.min k len.

(** [a.slice(start, stop)] *)
Definition slice {A : Type} (a : list A) (start stop : Z) : list A :=
  let len := Z.of_nat (length a) in
  let k := relIndex len start in
  let final := relIndex len stop in
  firstn (Z.to_nat (final - k)) (skipn (Z.to_nat k) a).

(** [a.slice(start)] *)
Definition sliceFrom {A : Type} (a : list A) (start : Z) : list A :=
  slice a start (Z.of_nat (length a)).

(** [a.map((x, i) => f(i, x))], the index counted from [i0]. *)
Fixpoint mapiFrom {A B : Type} (i0 : Z) (f : Z -> A -> B) (a : list A) : list B :=
  match a with
  | [] => []
  | x :: a' => f i0 x :: mapiFrom (i0 + 1) f a'
  end.

Definition mapi {A B : Type} (f : Z -> A -> B) (a : list A) : list B :=
  mapiFrom 0 f a.

(** [a[i]]: reading outside the array gives [undefined], here [undef]. *)
Definition get {A : Type} (undef : A) (a : list A) (i : Z) : A :=
  if (i <? 0)%Z then undef else nth (Z.to_nat i) a undef.

End JSArray.

Import JSArray.

(** ** The arithmetic of [number] *)

(** The operations of JavaScript's [number] that the program uses.
    [lit n d] is the decimal literal whose value is [n/d]; [toFixed2 x] is
    [Number(x.toFixed(2))]; [nmin] and [nmax] are [Math.min] and
    [Math.max]; [lt] is [<] and [seq] is [===]. *)
Class Number (num : Type) : Type := {
  ofZ : Z -> num;
  lit : Z -> positive -> num;
  nan : num;
  add : num -> num -> num;
  sub : num -> num -> num;
  mul : num -> num -> num;
  div : num -> num -> num;
  neg : num -> num;
  sqrt : num -> num;
  exp : num -> num;
  lt : num -> num -> bool;
  seq : num -> num -> bool;
  nmin : num -> num -> num;
  nmax : num -> num -> num;
  toFixed2 : num -> num
}.

(** ** The program *)

Section Prediction.

Context {num : Type} {NUM : Number num}.

Definition zero : num := ofZ 0.
Definition one : num := ofZ 1.

(** [a.reduce((a, b) => a + b, 0)] *)
Definition sum (a : list num) : num := fold_left add a zero.

(** [a[i]] where the value read is used as a number: [undefined] acts as NaN
    in every arithmetic operation. *)
Definition at_ (a : list num) (i : Z) : num := get nan a i.

(** The body of the loop of [calculateCorrelation], on the accumulators
    [(numerator, xVariance, yVariance)]. *)
Definition correlationStep (x y : list num) (xMean yMean : num)
    (acc : num * num * num) (i : nat) : num * num * num :=
  let '(numerator, xVariance, yVariance) := acc in
  let xDiff := sub (at_ x (Z.of_nat i)) xMean in
  let yDiff := sub (at_ y (Z.of_nat i)) yMean in
  (add numerator (mul xDiff yDiff),
   add xVariance (mul xDiff xDiff),
   add yVariance (mul yDiff yDiff)).

Definition calculateCorrelation (x y : list num) : num :=
  let n := Nat.min (length x) (length y) in
  if (n <? 2)%nat then zero
  else
    let xMean := div (sum x) (ofZ (Z.of_nat n)) in
    let yMean := div (sum y) (ofZ (Z.of_nat n)) in
    let '(numerator, xVariance, yVariance) :=
      fold_left (correlationStep x y xMean yMean) (List.seq 0 n) (zero, zero, zero) in
    div numerator (sqrt (mul xVariance yVariance)).

Definition calculateReturns (prices : list num) : list num :=
  mapi (fun i price => div (sub price (at_ prices i)) (at_ prices i))
       (sliceFrom prices 1).

(** [Math.pow(b - mean, 2)] is taken as the product of [b - mean] with
    itself. *)
Definition calculateVolatility (prices : list num) (window : Z) : num :=
  let returns := calculateReturns (sliceFrom prices (- window)) in
  let len := ofZ (Z.of_nat (length returns)) in
  let mean := div (sum returns) len in
  let variance :=
    div (fold_left (fun a b => add a (mul (sub b mean) (sub b mean))) returns zero) len in
  sqrt variance.

Definition rsiChanges (prices : list num) (period : Z) : list num :=
  let arr := sliceFrom prices (- period - 1) in
  sliceFrom
    (mapi (fun i price => if (0 <? i)%Z then sub price (at_ arr (i - 1)) else zero) arr)
    1.

Definition rsiGains (changes : list num) : list num :=
  map (fun change => if lt zero change then change else zero) changes.

Definition rsiLosses (changes : list num) : list num :=
  map (fun change => if lt change zero then neg change else zero) changes.

Definition calculateRSI (prices : list num) (period : Z) : num :=
  let changes := rsiChanges prices period in
  let gains := rsiGains changes in
  let losses := rsiLosses changes in
  let avgGain := div (sum gains) (ofZ period) in
  let avgLoss := div (sum losses) (ofZ period) in
  if seq avgLoss zero then ofZ 70
  else
    let rs := div avgGain avgLoss in
    sub (ofZ 100) (div (ofZ 100) (add one rs)).

(** The body of the loop of [calculateMA]: what iteration [i] pushes. *)
Definition maEntry (prices : list num) (period : Z) (i : Z) : num :=
  if (i <? period - 1)%Z then nan
  else div (sum (slice prices (i - period + 1) (i + 1))) (ofZ period).

Definition calculateMA (prices : list num) (period : Z) : list num :=
  fold_left (fun result i => result ++ [maEntry prices period (Z.of_nat i)])
            (List.seq 0 (length prices)) [].

Definition calculateMomentum (prices : list num) (period : Z) : num :=
  if (Z.of_nat (length prices) <? period)%Z then zero
  else
    let recentPrices := sliceFrom prices (- period) in
    let returns := calculateReturns recentPrices in
    div (sum returns) (ofZ (Z.of_nat (length returns))).

Definition calculateMeanReversionSignal (price ma20 ma50 : num) : num :=
  let shortTermDev := div (sub price ma20) ma20 in
  let longTermDev := div (sub price ma50) ma50 in
  div (neg (add shortTermDev longTermDev)) (ofZ 2).

(** The constants [predictFuturePrices] computes before its loop. *)
Record Snapshot : Type := {
  volatility : num;
  rsi : num;
  momentum : num;
  ma20 : list num;
  ma50 : list num;
  correlation : num;
  recentSpyReturn : num
}.

Definition lastOf (a : list num) : num := at_ a (Z.of_nat (length a) - 1).

Definition snapshot (recentPrices spyPrices : list num) : Snapshot :=
  let spyReturns := calculateReturns (sliceFrom spyPrices (-20)) in
  let stockReturns := calculateReturns (sliceFrom recentPrices (-20)) in
  {| volatility := calculateVolatility recentPrices 20;
     rsi := calculateRSI recentPrices 14;
     momentum := calculateMomentum recentPrices 10;
     ma20 := calculateMA recentPrices 20;
     ma50 := calculateMA recentPrices 50;
     correlation := calculateCorrelation spyReturns stockReturns;
     recentSpyReturn :=
       div (sub (lastOf spyPrices) (at_ spyPrices (Z.of_nat (length spyPrices) - 2)))
           (at_ spyPrices (Z.of_nat (length spyPrices) - 2)) |}.

(** The loop body of [predictFuturePrices], constant by constant. [u] is
    the value the iteration's call of [Math.random()] returns. *)
Section Step.

Variable s : Snapshot.
Variable currentPrice : num.
Variable i : Z.
Variable u : num.

Definition meanReversionSignal : num :=
  calculateMeanReversionSignal currentPrice (lastOf (ma20 s)) (lastOf (ma50 s)).

Definition rsiSignal : num := div (sub (ofZ 50) (rsi s)) (ofZ 50).

Definition marketInfluence : num := mul (recentSpyReturn s) (correlation s).

Definition momentumEffect : num :=
  mul (momentum s) (exp (mul (neg (lit 1 2)) (ofZ i))).

Definition expectedReturn : num :=
  add (add (add (mul meanReversionSignal (lit 3 10))
                (mul rsiSignal (lit 2 10)))
           (mul marketInfluence (lit 3 10)))
      (mul momentumEffect (lit 2 10)).

Definition randomComponent : num :=
  mul (mul (volatility s) (sub u (lit 1 2))) (sqrt (ofZ i)).

Definition totalReturn : num := add expectedReturn randomComponent.

Definition dampening : num := exp (mul (neg (lit 1 10)) (ofZ i)).

Definition change : num := mul (mul totalReturn (volatility s)) dampening.

Definition maxChange : num := nmin (lit 1 10) (mul (volatility s) (ofZ 2)).

Definition boundedChange : num := nmax (neg maxChange) (nmin maxChange change).

Definition nextPrice : num := mul currentPrice (add one boundedChange).

End Step.

(** The [for] loop: [fuel] iterations are left, [i] is the loop variable,
    [calls] counts the calls of [Math.random()] made so far, and [draws k]
    is what call number [k] returns. *)
Fixpoint forecastLoop (draws : nat -> num) (s : Snapshot) (fuel : nat) (i : Z)
    (calls : nat) (currentPrice : num) (predictions : list num) : list num :=
  match fuel with
  | O => predictions
  | S fuel' =>
      let currentPrice' := nextPrice s currentPrice i (draws calls) in
      forecastLoop draws s fuel' (i + 1) (S calls) currentPrice'
                   (predictions ++ [toFixed2 currentPrice'])
  end.

(** [daysToPredict] is an integer: the loop [for (i = 1; i <= daysToPredict;
    i++)] then runs [Z.to_nat daysToPredict] times. *)
Definition predictFuturePrices (draws : nat -> num)
    (targetPrices spyPrices : list num) (correlatedStocksPrices : list (list num))
    (daysToPredict : Z) : list num :=
  if (length targetPrices <? 50)%nat then []
  else
    let recentPrices := sliceFrom targetPrices (-50) in
    let lastPrice := lastOf recentPrices in
    forecastLoop draws (snapshot recentPrices spyPrices)
                 (Z.to_nat daysToPredict) 1 0 lastPrice [].

(** What the loop of [calculateCorrelation] accumulates as [xVariance]: the
    sum of the squared deviations of [x] from its mean. *)
Definition squaredDeviations (x : list num) : num :=
  let xMean := div (sum x) (ofZ (Z.of_nat (length x))) in
  snd (fst (fold_left (correlationStep x x xMean xMean) (List.seq 0 (length x))
                      (zero, zero, zero))).

(** The value of [currentPrice] after [k] iterations of the loop. *)
Fixpoint runningPrice (draws : nat -> num) (s : Snapshot) (lastPrice : num)
    (k : nat) : num :=
  match k with
  | O => lastPrice
  | S k' => nextPrice s (runningPrice draws s lastPrice k') (Z.of_nat k) (draws k')
  end.

(** [Math.random()] is a generator with a state of its own: a call returns
    a number and leaves the generator in its next state. [random] is that
    call, on a state type [gen] the program knows nothing of. *)
Section Generator.

Context {gen : Type}.
Variable random : gen -> num * gen.

(** The state of the generator after [n] calls from the state [g]. *)
Fixpoint stateAfter (n : nat) (g : gen) : gen :=
  match n with
  | O => g
  | S n' => stateAfter n' (snd (random g))
  end.

(** What call number [k] returns, counting from 0 at the state [g]. *)
Definition drawsOf (g : gen) (k : nat) : num := fst (random (stateAfter k g)).

End Generator.

(** How many times a call of [predictFuturePrices] calls [Math.random()]:
    once in each turn of its loop. *)
Definition drawsMade (targetPrices : list num) (daysToPredict : Z) : nat :=
  if (length targetPrices <? 50)%nat then 0%nat else Z.to_nat daysToPredict.

End Prediction.

(** ** The program on a store *)

(** The program as JavaScript runs it. An array is an object in a store: a
    call is handed references, and can read the arrays there are, make new
    ones and change one in place ([push]); [Math.random] reads and changes
    the state of its generator. Each function below is the function of the
    same name of [prediction.ts], statement by statement, as a computation
    on this world; the functions of [Prediction] above are what these
    computations return, as functions of the elements of the arrays and of
    the numbers drawn. *)
Module Store.

Section Program.

Context {num : Type} {NUM : Number num}.
Context {gen : Type}.

(** [Math.random]: a call returns a number and leaves the generator in its
    next state. *)
Variable random : gen -> num * gen.

(** What a call can reach beside its arguments: the arrays there are, each
    at its reference, and the state of the generator. *)
Record World : Type := { arrays : list (list num); generator : gen }.

(** A reference to an array: its place in the store. *)
Definition Ref : Type := nat.

Definition arrayAt (w : World) (r : Ref) : list num := nth r (arrays w) [].

(** A computation: from the world it starts in, its result and the world it
    leaves. *)
Definition M (A : Type) : Type := World -> A * World.

Definition ret {A : Type} (a : A) : M A := fun w => (a, w).

Definition bind {A B : Type} (m : M A) (k : A -> M B) : M B :=
  fun w => let (a, w') := m w in k a w'.

Notation "x <- m ;; k" := (bind m (fun x => k))
  (at level 61, m at next level, right associativity).
Notation "m ;; k" := (bind m (fun _ => k))
  (at level 61, right associativity).

Fixpoint setNth {A : Type} (n : nat) (x : A) (l : list A) : list A :=
  match l, n with
  | [], _ => []
  | _ :: t, O => x :: t
  | h :: t, S n' => h :: setNth n' x t
  end.

(** [a.length] *)
Definition arrayLength (a : Ref) : M Z :=
  fun w => (Z.of_nat (length (arrayAt w a)), w).

(** [a[i]] *)
Definition arrayGet (a : Ref) (i : Z) : M num :=
  fun w => (at_ (arrayAt w a) i, w).

(** A new array: [[]], or what [slice] and [map] return. *)
Definition arrayNew (elements : list num) : M Ref :=
  fun w => (length (arrays w),
            {| arrays := arrays w ++ [elements]; generator := generator w |}).

(** [a.push(v)]: the array at [a] is changed in place. *)
Definition arrayPush (a : Ref) (v : num) : M unit :=
  fun w => (tt, {| arrays := setNth a (arrayAt w a ++ [v]) (arrays w);
                   generator := generator w |}).

(** [Math.random()] *)
Definition mathRandom : M num :=
  fun w => let (u, g) := random (generator w) in
           (u, {| arrays := arrays w; generator := g |}).

(** [a.slice(start, stop)] and [a.slice(start)] *)
Definition arraySlice (a : Ref) (start stop : Z) : M Ref :=
  fun w => arrayNew (slice (arrayAt w a) start stop) w.

Definition arraySliceFrom (a : Ref) (start : Z) : M Ref :=
  fun w => arrayNew (sliceFrom (arrayAt w a) start) w.

(** [a.map(f)]: the length is read once, each element when its turn comes;
    the new array cannot be reached from [f]. *)
Fixpoint mapFrom (f : num -> Z -> M num) (a : Ref) (i : Z) (n : nat) : M (list num) :=
  match n with
  | O => ret []
  | S n' =>
      x <- arrayGet a i ;;
      y <- f x i ;;
      ys <- mapFrom f a (i + 1) n' ;;
      ret (y :: ys)
  end.

Definition arrayMap (f : num -> Z -> M num) (a : Ref) : M Ref :=
  n <- arrayLength a ;;
  ys <- mapFrom f a 0 (Z.to_nat n) ;;
  arrayNew ys.

(** [a.reduce(f, init)] *)
Fixpoint reduceFrom (f : num -> num -> M num) (a : Ref) (i : Z) (n : nat) (acc : num)
    : M num :=
  match n with
  | O => ret acc
  | S n' =>
      x <- arrayGet a i ;;
      acc' <- f acc x ;;
      reduceFrom f a (i + 1) n' acc'
  end.

Definition arrayReduce (f : num -> num -> M num) (a : Ref) (init : num) : M num :=
  n <- arrayLength a ;;
  reduceFrom f a 0 (Z.to_nat n) init.

(** [a.reduce((a, b) => a + b, 0)] *)
Definition arraySum (a : Ref) : M num := arrayReduce (fun a b => ret (add a b)) a zero.

(** A [for] loop over the values [idxs] of its variable, on the variables
    [s] that its body assigns. *)
Fixpoint forEach {S : Type} (idxs : list nat) (body : nat -> S -> M S) (s : S) : M S :=
  match idxs with
  | [] => ret s
  | i :: rest => s' <- body i s ;; forEach rest body s'
  end.

Definition calculateCorrelation (x y : Ref) : M num :=
  xLength <- arrayLength x ;;
  yLength <- arrayLength y ;;
  let n := Z.min xLength yLength in
  if (n <? 2)%Z then ret zero
  else
    xSum <- arraySum x ;;
    let xMean := div xSum (ofZ n) in
    ySum <- arraySum y ;;
    let yMean := div ySum (ofZ n) in
    sums <- forEach (List.seq 0 (Z.to_nat n))
              (fun i '(numerator, xVariance, yVariance) =>
                 xi <- arrayGet x (Z.of_nat i) ;;
                 let xDiff := sub xi xMean in
                 yi <- arrayGet y (Z.of_nat i) ;;
                 let yDiff := sub yi yMean in
                 ret (add numerator (mul xDiff yDiff),
                      add xVariance (mul xDiff xDiff),
                      add yVariance (mul yDiff yDiff)))
              (zero, zero, zero) ;;
    let '(numerator, xVariance, yVariance) := sums in
    ret (div numerator (sqrt (mul xVariance yVariance))).

Definition calculateReturns (prices : Ref) : M Ref :=
  rest <- arraySliceFrom prices 1 ;;
  arrayMap (fun price i =>
              before <- arrayGet prices i ;;
              divisor <- arrayGet prices i ;;
              ret (div (sub price before) divisor))
           rest.

Definition calculateVolatility (prices : Ref) (window : Z) : M num :=
  recent <- arraySliceFrom prices (- window) ;;
  returns <- calculateReturns recent ;;
  total <- arraySum returns ;;
  len <- arrayLength returns ;;
  let mean := div total (ofZ len) in
  squares <- arrayReduce (fun a b => ret (add a (mul (sub b mean) (sub b mean))))
                         returns zero ;;
  len' <- arrayLength returns ;;
  let variance := div squares (ofZ len') in
  ret (sqrt variance).

Definition calculateRSI (prices : Ref) (period : Z) : M num :=
  arr <- arraySliceFrom prices (- period - 1) ;;
  differences <- arrayMap (fun price i =>
                             if (0 <? i)%Z
                             then before <- arrayGet arr (i - 1) ;; ret (sub price before)
                             else ret zero)
                          arr ;;
  changes <- arraySliceFrom differences 1 ;;
  gains <- arrayMap (fun change _ => ret (if lt zero change then change else zero))
                    changes ;;
  losses <- arrayMap (fun change _ => ret (if lt change zero then neg change else zero))
                     changes ;;
  gainSum <- arraySum gains ;;
  let avgGain := div gainSum (ofZ period) in
  lossSum <- arraySum losses ;;
  let avgLoss := div lossSum (ofZ period) in
  if seq avgLoss zero then ret (ofZ 70)
  else
    let rs := div avgGain avgLoss in
    ret (sub (ofZ 100) (div (ofZ 100) (add one rs))).

(** The test [i < prices.length] reads the length at every turn. No turn
    changes [prices]: the body pushes to [result], a new array. The loop is
    taken over the length at its start. *)
Definition calculateMA (prices : Ref) (period : Z) : M Ref :=
  result <- arrayNew [] ;;
  len <- arrayLength prices ;;
  forEach (List.seq 0 (Z.to_nat len))
    (fun index (_ : unit) =>
       let i := Z.of_nat index in
       if (i <? period - 1)%Z then arrayPush result nan
       else
         window <- arraySlice prices (i - period + 1) (i + 1) ;;
         total <- arraySum window ;;
         arrayPush result (div total (ofZ period)))
    tt ;;
  ret result.

Definition calculateMomentum (prices : Ref) (period : Z) : M num :=
  len <- arrayLength prices ;;
  if (len <? period)%Z then ret zero
  else
    recentPrices <- arraySliceFrom prices (- period) ;;
    returns <- calculateReturns recentPrices ;;
    total <- arraySum returns ;;
    len' <- arrayLength returns ;;
    ret (div total (ofZ len')).

Definition calculateMeanReversionSignal (price ma20 ma50 : num) : M num :=
  let shortTermDev := div (sub price ma20) ma20 in
  let longTermDev := div (sub price ma50) ma50 in
  ret (div (neg (add shortTermDev longTermDev)) (ofZ 2)).

(** The body of the loop of [predictFuturePrices], on the variable
    [currentPrice] that it assigns; [day] is the loop variable [i]. *)
Definition forecastStep (volatility rsi momentum : num) (ma20 ma50 : Ref)
    (correlation recentSpyReturn : num) (predictions : Ref)
    (day : nat) (currentPrice : num) : M num :=
  let i := Z.of_nat day in
  ma20Length <- arrayLength ma20 ;;
  ma20Last <- arrayGet ma20 (ma20Length - 1) ;;
  ma50Length <- arrayLength ma50 ;;
  ma50Last <- arrayGet ma50 (ma50Length - 1) ;;
  meanReversionSignal <- calculateMeanReversionSignal currentPrice ma20Last ma50Last ;;
  let rsiSignal := div (sub (ofZ 50) rsi) (ofZ 50) in
  let marketInfluence := mul recentSpyReturn correlation in
  let momentumEffect := mul momentum (exp (mul (neg (lit 1 2)) (ofZ i))) in
  let expectedReturn :=
    add (add (add (mul meanReversionSignal (lit 3 10))
                  (mul rsiSignal (lit 2 10)))
             (mul marketInfluence (lit 3 10)))
        (mul momentumEffect (lit 2 10)) in
  u <- mathRandom ;;
  let randomComponent := mul (mul volatility (sub u (lit 1 2))) (sqrt (ofZ i)) in
  let totalReturn := add expectedReturn randomComponent in
  let dampening := exp (mul (neg (lit 1 10)) (ofZ i)) in
  let change := mul (mul totalReturn volatility) dampening in
  let maxChange := nmin (lit 1 10) (mul volatility (ofZ 2)) in
  let boundedChange := nmax (neg maxChange) (nmin maxChange change) in
  let currentPrice' := mul currentPrice (add one boundedChange) in
  arrayPush predictions (toFixed2 currentPrice') ;;
  ret currentPrice'.

(** [correlatedStocksPrices] is an array of arrays: the references of its
    elements. *)
Definition predictFuturePrices (targetPrices spyPrices : Ref)
    (correlatedStocksPrices : list Ref) (daysToPredict : Z) : M Ref :=
  targetLength <- arrayLength targetPrices ;;
  if (targetLength <? 50)%Z then arrayNew []
  else
    recentPrices <- arraySliceFrom targetPrices (-50) ;;
    recentLength <- arrayLength recentPrices ;;
    lastPrice <- arrayGet recentPrices (recentLength - 1) ;;
    volatility <- calculateVolatility recentPrices 20 ;;
    rsi <- calculateRSI recentPrices 14 ;;
    momentum <- calculateMomentum recentPrices 10 ;;
    ma20 <- calculateMA recentPrices 20 ;;
    ma50 <- calculateMA recentPrices 50 ;;
    spyRecent <- arraySliceFrom spyPrices (-20) ;;
    spyReturns <- calculateReturns spyRecent ;;
    stockRecent <- arraySliceFrom recentPrices (-20) ;;
    stockReturns <- calculateReturns stockRecent ;;
    correlation <- calculateCorrelation spyReturns stockReturns ;;
    spyLength <- arrayLength spyPrices ;;
    spyLast <- arrayGet spyPrices (spyLength - 1) ;;
    spyBefore <- arrayGet spyPrices (spyLength - 2) ;;
    spyDivisor <- arrayGet spyPrices (spyLength - 2) ;;
    let recentSpyReturn := div (sub spyLast spyBefore) spyDivisor in
    predictions <- arrayNew [] ;;
    forEach (List.seq 1 (Z.to_nat daysToPredict))
            (forecastStep volatility rsi momentum ma20 ma50 correlation recentSpyReturn
                          predictions)
            lastPrice ;;
    ret predictions.

(** A reference that denotes an array of the world. *)
Definition valid (w : World) (r : Ref) : Prop := (r < length (arrays w))%nat.

(** [w'] has every array of [w], unchanged and at its reference. *)
Definition keeps (w w' : World) : Prop :=
  (length (arrays w) <= length (arrays w'))%nat
  /\ forall r, (r < length (arrays w))%nat -> arrayAt w' r = arrayAt w r.

(** What the computation [m] started in [w] returns, and the world it
    leaves, satisfy [Q]. *)
Definition wp {A : Type} (m : M A) (w : World) (Q : A -> World -> Prop) : Prop :=
  Q (fst (m w)) (snd (m w)).

(** Started in [w], [m] returns [v], leaves every array of [w] as it was and
    does not call the generator. *)
Definition returnsValue {A : Type} (m : M A) (w : World) (v : A) : Prop :=
  wp m w (fun v' w' => v' = v /\ keeps w w' /\ generator w' = generator w).

(** Started in [w], [m] returns a new array of the elements [a], leaves
    every array of [w] as it was and does not call the generator. *)
Definition returnsArray (m : M Ref) (w : World) (a : list num) : Prop :=
  wp m w (fun r w' => valid w' r /\ ~ valid w r /\ arrayAt w' r = a
                      /\ keeps w w' /\ generator w' = generator w).

End Program.

End Store.

(** ** Binary64 arithmetic *)

Module Binary64.

Definition prec : Z := 53.
Definition emax : Z := 1024.

Abbreviation float := spec_float.

Definition b64_ofZ (z : Z) : float := binary_normalize prec emax z 0 false.
Definition b64_add : float -> float -> float := SFadd prec emax.
Definition b64_sub : float -> float -> float := SFsub prec emax.
Definition b64_mul : float -> float -> float := SFmul prec emax.
Definition b64_div : float -> float -> float := SFdiv prec emax.
Definition b64_sqrt : float -> float := SFsqrt prec emax.

(** A decimal literal denotes the binary64 value nearest to it, which is
    what the correctly rounded quotient of its numerator and denominator
    is when both are exact, as they are for the program's literals. *)
Definition b64_lit (n : Z) (d : positive) : float :=
  b64_div (b64_ofZ n) (b64_ofZ (Z.pos d)).

Definition isNaN (x : float) : bool :=
  match x with S754_nan => true | _ => false end.

(** A finite number other than zero. *)
Definition isFinite (x : float) : bool :=
  match x with S754_finite _ _ _ => true | _ => false end.

(** [Math.min] and [Math.max]: NaN if an argument is NaN, and [-0] is
    smaller than [+0]. *)
Definition b64_min (a b : float) : float :=
  if isNaN a || isNaN b then S754_nan
  else if SFltb a b then a
  else if SFltb b a then b
  else match a with S754_zero true => a | _ => b end.

Definition b64_max (a b : float) : float :=
  if isNaN a || isNaN b then S754_nan
  else if SFltb a b then b
  else if SFltb b a then a
  else match a with S754_zero false => a | _ => b end.

(** [Number(x.toFixed(2))]. [toFixed] takes the integer [n] for which
    [n / 100] is nearest to [|x|], the larger one of two, and prints it with
    the sign of [x]; [Number] reads the decimal back as the nearest binary64
    value. ([toFixed] prints [x] itself from [1e21] on, where [n / 100] is
    [x].) *)
Definition hundredths (m : positive) (e : Z) : Z :=
  match e with
  | Zneg k => (200 * Z.pos m + 2 ^ Z.pos k) / 2 ^ (Z.pos k + 1)
  | _ => 100 * Z.pos m * 2 ^ e
  end.

Definition b64_toFixed2 (x : float) : float :=
  match x with
  | S754_zero _ => S754_zero false
  | S754_finite s m e =>
      match hundredths m e with
      | Zpos n => b64_div (S754_finite s n 0) (S754_finite false 100 0)
      | _ => S754_zero s
      end
  | _ => x
  end.

(** [Math.exp] is left to the implementation by the language ([mathExp]). *)
#[export] Instance binary64 (mathExp : float -> float) : Number float := {|
  ofZ := b64_ofZ;
  lit := b64_lit;
  nan := S754_nan;
  add := b64_add;
  sub := b64_sub;
  mul := b64_mul;
  div := b64_div;
  neg := SFopp;
  sqrt := b64_sqrt;
  exp := mathExp;
  lt := SFltb;
  seq := SFeqb;
  nmin := b64_min;
  nmax := b64_max;
  toFixed2 := b64_toFixed2
|}.

(** A stand-in for [Math.exp] in concrete runs: the Taylor polynomial of
    degree 40 at [x = a / b], evaluated exactly by Horner's rule on integer
    fractions and rounded once. [expHorner a b k fuel] is the fraction
    [1 + x/k * (1 + x/(k+1) * (...))] with [fuel] factors. For [-5 <= x <= 0]
    the polynomial differs from the exponential by less than [5^41 / 41!],
    far less than the spacing of binary64 numbers there. *)
Fixpoint expHorner (a b : Z) (k : Z) (fuel : nat) : Z * Z :=
  match fuel with
  | O => (1, 1)%Z
  | S fuel' =>
      let '(n, d) := expHorner a b (k + 1) fuel' in
      (d * b * k + a * n, d * b * k)%Z
  end.

Definition expSeries (x : float) : float :=
  match x with
  | S754_nan => S754_nan
  | S754_infinity true => S754_zero false
  | S754_infinity false => x
  | S754_zero _ => b64_ofZ 1
  | S754_finite s m e =>
      let a := (if s then Z.neg m else Z.pos m) in
      let '(a, b) := match e with
                     | Zneg k => (a, 2 ^ Z.pos k)%Z
                     | _ => (a * 2 ^ e, 1)%Z
                     end in
      match expHorner a b 1 40 with
      | (Zpos n, Zpos d) => b64_div (S754_finite false n 0) (S754_finite false d 0)
      | _ => S754_zero false
      end
  end.

(** The exact value of a finite binary64 number. *)
Definition toQ (x : float) : option Q :=
  match x with
  | S754_zero _ => Some 0%Q
  | S754_finite s m e =>
      let v := match e with
               | Zneg k => Qmake (Z.pos m) (2 ^ k)
               | _ => inject_Z (Z.pos m * 2 ^ e)
               end in
      Some (if s then Qopp v else v)
  | _ => None
  end.

(** [0 <= x], or [x] is a zero of either sign. *)
Definition nonneg (x : float) : bool :=
  match x with
  | S754_zero _ | S754_infinity false | S754_finite false _ _ => true
  | _ => false
  end.

(** [+0], a positive number or [+infinity]. *)
Definition pos0 (x : float) : bool :=
  match x with
  | S754_zero false | S754_infinity false | S754_finite false _ _ => true
  | _ => false
  end.

(** [x <= 0], or [x] is a zero of either sign. *)
Definition nonpos (x : float) : bool :=
  match x with
  | S754_zero _ | S754_infinity true | S754_finite true _ _ => true
  | _ => false
  end.

(** A positive finite binary64 number in canonical form: a mantissa of 53
    binary digits at an exponent from [-1074] to [971], or a shorter one
    at the exponent [-1074]. *)
Definition positiveDouble (x : float) : bool :=
  match x with
  | S754_finite false m e =>
      (Z.pos m <? 2 ^ 53)%Z && (-1074 <=? e)%Z && (e <=? 971)%Z
      && ((e =? -1074)%Z || (2 ^ 52 <=? Z.pos m)%Z)
  | _ => false
  end.

(** [1 <= y]: [+infinity], or a normal number at an exponent from [-52]. *)
Definition atLeastOne (y : float) : bool :=
  match y with
  | S754_infinity false => true
  | S754_finite false m e =>
      (Z.pos (digits2_pos m) =? 53)%Z && (-52 <=? e)%Z && (e <=? 971)%Z
  | _ => false
  end.

(** [0 <= q <= 100]: [+0], or a positive number of at most 53 digits below
    the exponent [-46] of 100, or one at that exponent with a mantissa up
    to that of 100. *)
Definition upTo100 (q : float) : bool :=
  match q with
  | S754_zero false => true
  | S754_finite false m e =>
      ((e <? -46)%Z && (Z.pos m <? 2 ^ 53)%Z)
      || ((e =? -46)%Z && (Z.pos m <=? 100 * 2 ^ 46)%Z)
  | _ => false
  end.

(** A mantissa of at most 53 binary digits, which every result of a rounded
    operation has. *)
Definition fitsMantissa (x : float) : bool :=
  match x with
  | S754_finite _ m _ => (Z.pos m <? 2 ^ 53)%Z
  | _ => true
  end.

(** A number that is not negative, or NaN: [x < 0] is false. *)
Definition notNegative (x : float) : bool := negb (SFltb x (b64_ofZ 0)).

(** [- m <= x <= m] *)
Definition within (x m : float) : bool := SFleb (SFopp m) x && SFleb x m.

(** A positive normal number [v] with [2^-511 <= v < 2^512]: the range in
    which [v * v] neither overflows nor underflows. *)
Definition inSquareRange (v : float) : bool :=
  match v with
  | S754_finite false m e =>
      (Z.pos (digits2_pos m) =? 53)%Z && (-563 <=? e)%Z && (e <=? 459)%Z
  | _ => false
  end.

(** What [n] right shifts of [M] have kept: the quotient, and in the round and
    sticky bits how the remainder compares with half of [2 ^ n]. *)
Definition shifted (M n : Z) (mrs : shr_record) : Prop :=
  exists rem : Z,
    (0 <= shr_m mrs)%Z /\ M = (shr_m mrs * 2 ^ n + rem)%Z /\ (0 <= rem < 2 ^ n)%Z
    /\ shr_r mrs = (2 ^ n <=? 2 * rem)%Z
    /\ shr_s mrs = negb (rem =? 0)%Z && negb (2 * rem =? 2 ^ n)%Z.

(** The fractional change from the price [prev] to the price [p] lies within
    [±m], on the exact values of the three numbers:
    [|p - prev| <= m * |prev|]. It does not when one of them is no finite
    number. *)
Definition changeWithin (prev p m : float) : bool :=
  match toQ prev, toQ p, toQ m with
  | Some qprev, Some qp, Some qm => Qle_bool (Qabs (qp - qprev)) (qm * Qabs qprev)
  | _, _, _ => false
  end.

End Binary64.

(** ** Concrete runs *)

Module Runs.

Import Binary64.

(** Binary64 arithmetic with [Math.exp] computed by [expSeries]. *)
Definition stubbed : Number float := binary64 expSeries.

(** [Math.random] stubbed to return [u] at every call. *)
Definition constantDraws (u : float) : nat -> float := fun _ => u.

(** 50 closing prices alternating between 0.013 and 0.0148. *)
Definition pennyPrices : list float :=
  flat_map (fun _ => [b64_lit 130 10000; b64_lit 148 10000]) (List.seq 0 25).

(** 30 reference closes: 400, 401, ..., 429. *)
Definition indexPrices : list float :=
  map (fun k => b64_ofZ (400 + Z.of_nat k)) (List.seq 0 30).

(** 50 closing prices, all 100. *)
Definition flatPrices : list float := repeat (b64_ofZ 100) 50.

(** The constants of the forecast on [pennyPrices] and [indexPrices]. *)
Definition pennySnapshot : Snapshot :=
  snapshot (NUM := stubbed) (sliceFrom pennyPrices (-50)) indexPrices.

(** The largest binary64 number below 1, printed [0.9999999999999999]. *)
Definition belowOne : float := S754_finite false (2 ^ 53 - 1) (-53).

(** [Math.random] stubbed to return [u] at every call, as a generator: its
    state counts the calls made. *)
Definition constantRandom (u : float) (g : nat) : float * nat := (u, S g).

(** A generator that returns 0.05 and 0.95 in turn. *)
Definition alternatingRandom (g : nat) : float * nat :=
  (if Nat.even g then b64_lit 5 100 else b64_lit 95 100, S g).

(** 50 closing prices alternating between 130 and 148. *)
Definition dollarPrices : list float :=
  flat_map (fun _ => [b64_ofZ 130; b64_ofZ 148]) (List.seq 0 25).

(** A world of two arrays, the target prices at the reference 0 and
    [indexPrices] at the reference 1, with a generator that counts its
    calls. *)
Definition worldOf (targetPrices : list float) (calls : nat) : Store.World :=
  {| Store.arrays := [targetPrices; indexPrices]; Store.generator := calls |}.

End Runs.

(** ** The records of [types/stock.ts] *)

Module Types.

Import String Binary64.

Record StockData : Type := {
  date : string;
  open : float;
  high : float;
  low : float;
  close : float;
  volume : float
}.


(** An entry of [predictions], [{ date, price }]: [pdate] is its [date]. *)
Record Prediction : Type := {
  pdate : string;
  price : float
}.


End Types.

(** ** [services/stockService.ts] *)

Module StockService.

Import String Binary64.

Local Open Scope string_scope.

Definition CORRELATION_SYMBOLS : list string := ["SPY"; "QQQ"].

(** The loop over [CORRELATION_SYMBOLS]. [closesOf corrSymbol] is what the
    [try] block of the symbol's iteration gets to before [filter]
    ([Object.values(timeSeries).map(...)], the closes in the order of the
    response), or [None] when the request, the validation or the reading
    of the response threw, which the [catch] block passes over. *)
Definition correlationData (closesOf : string -> option (list float)) : list (list float) :=
  fold_left
    (fun correlationData corrSymbol =>
       match closesOf corrSymbol with
       | Some closes =>
           let prices := rev (filter (fun price => negb (isNaN price)) closes) in
           if (0 <? List.length prices)%nat then (correlationData ++ [prices])%list
           else correlationData
       | None => correlationData
       end)
    CORRELATION_SYMBOLS [].

(** [predictions], from the closes of the stock in date order. *)
Definition predictions (mathExp : float -> float) (draws : nat -> float)
    (targetPrices : list float) (closesOf : string -> option (list float)) : list float :=
  predictFuturePrices (NUM := binary64 mathExp) draws targetPrices
    (match correlationData closesOf with
     | first :: _ => first
     | [] => targetPrices
     end)
    (sliceFrom (correlationData closesOf) 1)
    5.

End StockService.

(** ** [components/StockChart.tsx] *)

Module StockChart.

Import String Binary64 Types.

(** The state of the component that the mouse handlers use: [height] and
    the three refs. *)
Record Resize : Type := {
  height : float;
  isDragging : bool;
  startY : float;
  startHeight : float
}.

Definition initial : Resize :=
  {| height := b64_ofZ 600; isDragging := false;
     startY := b64_ofZ 0; startHeight := b64_ofZ 0 |}.

Definition handleMouseDown (clientY : float) (st : Resize) : Resize :=
  {| height := height st; isDragging := true;
     startY := clientY; startHeight := height st |}.

Definition handleMouseMove (clientY : float) (st : Resize) : Resize :=
  if negb (isDragging st) then st
  else
    let deltaY := b64_sub clientY (startY st) in
    let newHeight :=
      b64_max (b64_ofZ 400) (b64_min (b64_ofZ 1200) (b64_add (startHeight st) deltaY)) in
    {| height := newHeight; isDragging := isDragging st;
       startY := startY st; startHeight := startHeight st |}.

Definition handleMouseUp (st : Resize) : Resize :=
  {| height := height st; isDragging := false;
     startY := startY st; startHeight := startHeight st |}.

Inductive MouseEvent : Type :=
| MouseDown (clientY : float)
| MouseMove (clientY : float)
| MouseUp.

Definition handle (st : Resize) (e : MouseEvent) : Resize :=
  match e with
  | MouseDown clientY => handleMouseDown clientY st
  | MouseMove clientY => handleMouseMove clientY st
  | MouseUp => handleMouseUp st
  end.

(** A height of 400 to 1200, or NaN. *)
Definition heightInRange (h : float) : Prop :=
  isNaN h = true \/ (SFleb (b64_ofZ 400) h = true /\ SFleb h (b64_ofZ 1200) = true).

(** [new Map(entries).get(key)]: of two entries under one key the later
    one counts. *)
Fixpoint mapGet (entries : list (string * float)) (key : string) : option float :=
  match entries with
  | [] => None
  | (k, v) :: rest =>
      match mapGet rest key with
      | Some later => Some later
      | None => if (k =? key)%string then Some v else None
      end
  end.

(** [v || null] for a number or [undefined]: 0, -0 and NaN are falsy. *)
Definition orNull (v : option float) : option float :=
  match v with
  | Some (S754_zero _) | Some S754_nan | None => None
  | Some x => Some x
  end.

(** The [data] of [historicalDataset]. *)
Definition historicalData (sortedDates : list string) (data : list StockData)
    : list (option float) :=
  let historicalMap := map (fun item => (date item, close item)) data in
  map (fun date => orNull (mapGet historicalMap date)) sortedDates.

(** The [data] of [predictionDataset]. *)
Definition predictionData (sortedDates : list string) (predictions : list Prediction)
    : list (option float) :=
  let predictionMap := map (fun item => (pdate item, price item)) predictions in
  map (fun date => orNull (mapGet predictionMap date)) sortedDates.

End StockChart.

(** ** [App.tsx] *)

Module App.

Import String Types.

Local Open Scope string_scope.




Section Handlers.

(** [String.prototype.toUpperCase] *)
Variable toUpperCase : string -> string.



End Handlers.


End App.

(** * Properties *)

(** ** Arrays *)

Section ArrayFacts.

Context {A : Type}.

Lemma push_loop_map (B : Type) (f : B -> A) (l : list B) (acc : list A) :
  fold_left (fun result i => result ++ [f i]) l acc = acc ++ map f l.
Proof.
  revert acc; induction l as [|b l IH]; intros acc; simpl.
  - now rewrite app_nil_r.
  - rewrite IH, <- app_assoc. reflexivity.
Qed.

Lemma sliceFrom_neg_whole (a : list A) (w : Z) :
  (Z.of_nat (length a) <= w)%Z -> (0 < w)%Z -> sliceFrom a (- w) = a.
Proof.
  intros Hlen Hw. unfold sliceFrom, slice, relIndex.
  replace (- w <? 0)%Z with true by (symmetry; apply Z.ltb_lt; lia).
  replace (Z.of_nat (length a) <? 0)%Z with false by (symmetry; apply Z.ltb_ge; lia).
  rewrite Z.max_r by lia. rewrite Z.min_id. simpl skipn.
  rewrite Z.sub_0_r, Nat2Z.id. apply firstn_all.
Qed.

Lemma sliceFrom_neg_length (a : list A) (w : Z) :
  (0 < w <= Z.of_nat (length a))%Z -> length (sliceFrom a (- w)) = Z.to_nat w.
Proof.
  intros Hw. unfold sliceFrom, slice, relIndex.
  replace (- w <? 0)%Z with true by (symmetry; apply Z.ltb_lt; lia).
  replace (Z.of_nat (length a) <? 0)%Z with false by (symmetry; apply Z.ltb_ge; lia).
  rewrite Z.max_l by lia. rewrite Z.min_id.
  rewrite length_firstn, length_skipn. lia.
Qed.

(** For a window that ends at index [i] inside the array and starts at a
    non-negative index, [slice] takes [period] elements from [i - period + 1]
    on. *)
Lemma slice_window (a : list A) (period i : Z) :
  (0 <= i < Z.of_nat (length a))%Z -> (period - 1 <= i)%Z ->
  slice a (i - period + 1) (i + 1)
  = firstn (Z.to_nat period) (skipn (Z.to_nat (i - period + 1)) a).
Proof.
  intros Hi Hp. unfold slice, relIndex.
  replace (i - period + 1 <? 0)%Z with false by (symmetry; apply Z.ltb_ge; lia).
  replace (i + 1 <? 0)%Z with false by (symmetry; apply Z.ltb_ge; lia).
  rewrite (Z.min_l (i + 1)) by lia.
  destruct (Z.le_gt_cases (i - period + 1) (Z.of_nat (length a))) as [Hle|Hgt].
  - rewrite Z.min_l by lia. f_equal. lia.
  - rewrite Z.min_r by lia.
    replace (Z.to_nat (i + 1 - Z.of_nat (length a))) with 0%nat by lia.
    replace (Z.to_nat period) with 0%nat by lia. reflexivity.
Qed.

Lemma sliceFrom_1 (a : list A) : sliceFrom a 1 = tl a.
Proof.
  unfold sliceFrom, slice, relIndex. destruct a as [|x a]; [reflexivity|].
  replace (1 <? 0)%Z with false by reflexivity.
  replace (Z.of_nat (length (x :: a)) <? 0)%Z with false by (symmetry; apply Z.ltb_ge; lia).
  rewrite Z.min_id, Z.min_l by (simpl length; lia).
  change (Z.to_nat 1) with 1%nat. cbn [skipn tl].
  apply firstn_all2. simpl length. lia.
Qed.

Lemma mapiFrom_length (B : Type) (f : Z -> A -> B) (a : list A) (i0 : Z) :
  length (mapiFrom i0 f a) = length a.
Proof. revert i0; induction a as [|x a IH]; intros i0; simpl; [|rewrite IH]; reflexivity. Qed.

Lemma mapiFrom_nth (B : Type) (f : Z -> A -> B) (a : list A) (i0 : Z) (k : nat) :
  nth_error (mapiFrom i0 f a) k = option_map (f (i0 + Z.of_nat k)%Z) (nth_error a k).
Proof.
  revert i0 k; induction a as [|x a IH]; intros i0 [|k]; try reflexivity.
  - simpl. now rewrite Z.add_0_r.
  - cbn [mapiFrom nth_error]. rewrite IH. do 2 f_equal. lia.
Qed.

End ArrayFacts.

(** ** Properties that hold in every arithmetic *)

Section Structure.

Context {num : Type} {NUM : Number num}.

Lemma calculateMA_map (prices : list num) (period : Z) :
  calculateMA prices period
  = map (fun i => maEntry prices period (Z.of_nat i)) (List.seq 0 (length prices)).
Proof. unfold calculateMA. now rewrite push_loop_map. Qed.

Lemma calculateMA_length (prices : list num) (period : Z) :
  length (calculateMA prices period) = length prices.
Proof. now rewrite calculateMA_map, length_map, length_seq. Qed.

Lemma calculateMA_nth (prices : list num) (period : Z) (k : nat) :
  (k < length prices)%nat ->
  nth_error (calculateMA prices period) k = Some (maEntry prices period (Z.of_nat k)).
Proof.
  intros Hk. rewrite calculateMA_map.
  rewrite nth_error_map, nth_error_nth' with (d := 0%nat) by now rewrite length_seq.
  simpl. now rewrite seq_nth.
Qed.

Lemma forecastLoop_length draws (s : Snapshot) fuel i calls p acc :
  length (forecastLoop draws s fuel i calls p acc) = (length acc + fuel)%nat.
Proof.
  revert i calls p acc; induction fuel as [|fuel IH]; intros; simpl.
  - lia.
  - rewrite IH, length_app. simpl. lia.
Qed.

(** The loop pushes the rounded running prices, in the order of its steps. *)
Lemma forecastLoop_spec draws (s : Snapshot) lastPrice fuel c acc :
  forecastLoop draws s fuel (Z.of_nat (S c)) c (runningPrice draws s lastPrice c) acc
  = acc ++ map (fun k => toFixed2 (runningPrice draws s lastPrice (S k))) (List.seq c fuel).
Proof.
  revert c acc; induction fuel as [|fuel IH]; intros c acc.
  - simpl. now rewrite app_nil_r.
  - cbn [forecastLoop List.seq map].
    replace (Z.of_nat (S c) + 1)%Z with (Z.of_nat (S (S c))) by lia.
    change (nextPrice s (runningPrice draws s lastPrice c) (Z.of_nat (S c)) (draws c))
      with (runningPrice draws s lastPrice (S c)).
    rewrite IH, <- app_assoc. reflexivity.
Qed.

Lemma runningPrice_ext draws1 draws2 (s : Snapshot) lastPrice k :
  (forall j, (j < k)%nat -> draws1 j = draws2 j) ->
  runningPrice draws1 s lastPrice k = runningPrice draws2 s lastPrice k.
Proof.
  induction k as [|k IH]; intros H; simpl.
  - reflexivity.
  - rewrite IH by (intros; apply H; lia). rewrite (H k) by lia. reflexivity.
Qed.

Lemma predictFuturePrices_unfold draws target spy corr (days : Z) :
  (50 <= length target)%nat ->
  predictFuturePrices draws target spy corr days
  = map (fun k => toFixed2 (runningPrice draws (snapshot (sliceFrom target (-50)) spy)
                                         (lastOf (sliceFrom target (-50))) (S k)))
        (List.seq 0 (Z.to_nat days)).
Proof.
  intros Hlen. unfold predictFuturePrices.
  replace (length target <? 50)%nat with false by (symmetry; apply Nat.ltb_ge; lia).
  exact (forecastLoop_spec draws _ _ (Z.to_nat days) 0 []).
Qed.

Lemma predictFuturePrices_short draws (target spy : list num) corr (days : Z) :
  (length target < 50)%nat -> predictFuturePrices draws target spy corr days = [].
Proof.
  intros Hlen. unfold predictFuturePrices.
  now replace (length target <? 50)%nat with true by (symmetry; apply Nat.ltb_lt; lia).
Qed.

Lemma predictFuturePrices_nth draws (target spy : list num) corr (days : Z) (k : nat) :
  (50 <= length target)%nat -> (Z.of_nat k < days)%Z ->
  nth_error (predictFuturePrices draws target spy corr days) k
  = Some (toFixed2 (runningPrice draws (snapshot (sliceFrom target (-50)) spy)
                                 (lastOf (sliceFrom target (-50))) (S k))).
Proof.
  intros Hlen Hk. rewrite predictFuturePrices_unfold by assumption.
  rewrite nth_error_map.
  rewrite nth_error_nth' with (d := 0%nat) by (rewrite length_seq; lia).
  rewrite seq_nth by lia. reflexivity.
Qed.

(** C1. With fewer than 50 target prices [predictFuturePrices] returns the
    empty sequence, whatever the reference prices, the horizon and the random
    draws are; the function has no other result than a sequence, so nothing
    is thrown and no part of a forecast is produced. *)
Theorem predictFuturePrices_insufficient_history
    (draws : nat -> num) (targetPrices spyPrices : list num)
    (correlatedStocksPrices : list (list num)) (daysToPredict : Z) :
  (length targetPrices < 50)%nat ->
  predictFuturePrices draws targetPrices spyPrices correlatedStocksPrices daysToPredict = [].
Proof. apply predictFuturePrices_short. Qed.

(** C2. With at least 50 target prices, at least 2 reference prices and a
    horizon [N >= 0], [predictFuturePrices] returns exactly [N] prices, and
    the price at position [k] (counted from 0) is the rounded running price
    of step [k + 1]: day 1 first, day [N] last. *)
Theorem predictFuturePrices_length_and_order
    (draws : nat -> num) (targetPrices spyPrices : list num)
    (correlatedStocksPrices : list (list num)) (N : Z) :
  (50 <= length targetPrices)%nat ->
  (2 <= length spyPrices)%nat ->
  (0 <= N)%Z ->
  Z.of_nat (length (predictFuturePrices draws targetPrices spyPrices
                                        correlatedStocksPrices N)) = N /\
  forall k : nat, (Z.of_nat k < N)%Z ->
    nth_error (predictFuturePrices draws targetPrices spyPrices
                                   correlatedStocksPrices N) k
    = Some (toFixed2 (runningPrice draws
                        (snapshot (sliceFrom targetPrices (-50)) spyPrices)
                        (lastOf (sliceFrom targetPrices (-50))) (S k))).
Proof.
  intros Hlen _ HN. split.
  - rewrite predictFuturePrices_unfold by assumption.
    rewrite length_map, length_seq. lia.
  - intros k Hk. now apply predictFuturePrices_nth.
Qed.

(** C3 (amended). At every step the change before clamping is the combined
    return (weighted blend plus stochastic term) multiplied by the volatility
    and then by the dampening factor [exp(-0.1 * i)]; the running price moves
    by that change clamped to [maxChange]. *)
Theorem change_is_return_times_volatility_times_dampening
    (s : Snapshot) (currentPrice : num) (i : Z) (u : num) :
  totalReturn s currentPrice i u
    = add (expectedReturn s currentPrice i) (randomComponent s i u) /\
  change s currentPrice i u
    = mul (mul (totalReturn s currentPrice i u) (volatility s))
          (exp (mul (neg (lit 1 10)) (ofZ i))) /\
  nextPrice s currentPrice i u
    = mul currentPrice
          (add one (nmax (neg (maxChange s))
                         (nmin (maxChange s) (change s currentPrice i u)))).
Proof. repeat split. Qed.

(** C6. For every period and every index [k] of [prices], the moving average
    has one entry per price; its entry at [k] is NaN when [k < period - 1];
    at [k = period - 1] it is the sum of the first [period] prices divided
    by [period], their arithmetic mean; at every later index it is the sum
    of the [period] prices that end at [k] divided by [period], the
    arithmetic mean of the trailing [period] prices. *)
Theorem calculateMA_entries (prices : list num) (period : Z) (k : nat) :
  (k < length prices)%nat ->
  length (calculateMA prices period) = length prices /\
  ((Z.of_nat k < period - 1)%Z ->
     nth_error (calculateMA prices period) k = Some nan) /\
  ((Z.of_nat k = period - 1)%Z ->
     Z.of_nat (length (firstn (Z.to_nat period) prices)) = period /\
     nth_error (calculateMA prices period) k
     = Some (div (sum (firstn (Z.to_nat period) prices)) (ofZ period))) /\
  ((period - 1 < Z.of_nat k)%Z ->
     length (firstn (Z.to_nat period) (skipn (k + 1 - Z.to_nat period) prices))
     = Z.to_nat period /\
     nth_error (calculateMA prices period) k
     = Some (div (sum (firstn (Z.to_nat period)
                              (skipn (k + 1 - Z.to_nat period) prices)))
                 (ofZ period))).
Proof.
  intros Hk. split; [apply calculateMA_length|].
  rewrite calculateMA_nth by assumption. unfold maEntry.
  split; [|split].
  - intros Hlt.
    now replace (Z.of_nat k <? period - 1)%Z with true by (symmetry; apply Z.ltb_lt; lia).
  - intros Heq.
    replace (Z.of_nat k <? period - 1)%Z with false by (symmetry; apply Z.ltb_ge; lia).
    rewrite slice_window by lia.
    replace (Z.to_nat (Z.of_nat k - period + 1)) with 0%nat by lia.
    cbn [skipn]. split; [rewrite length_firstn; lia | reflexivity].
  - intros Hgt.
    replace (Z.of_nat k <? period - 1)%Z with false by (symmetry; apply Z.ltb_ge; lia).
    rewrite slice_window by lia.
    destruct (Z.le_gt_cases period 0) as [Hneg|Hpos].
    + replace (Z.to_nat period) with 0%nat by lia. split; reflexivity.
    + replace (Z.to_nat (Z.of_nat k - period + 1))
        with (k + 1 - Z.to_nat period)%nat by lia.
      split; [rewrite length_firstn, length_skipn; lia | reflexivity].
Qed.

Lemma predictFuturePrices_ext draws1 draws2 (target spy : list num) corr (days : Z) :
  (forall k, (k < Z.to_nat days)%nat -> draws1 k = draws2 k) ->
  predictFuturePrices draws1 target spy corr days
  = predictFuturePrices draws2 target spy corr days.
Proof.
  intros Hd. destruct (Nat.ltb_spec (length target) 50) as [Hlt|Hge].
  - now rewrite !predictFuturePrices_short.
  - rewrite !predictFuturePrices_unfold by assumption.
    apply map_ext_in. intros k Hk. apply in_seq in Hk. f_equal.
    apply runningPrice_ext. intros j Hj. apply Hd. lia.
Qed.

(** C9. The result of [predictFuturePrices] does not depend on
    [correlatedStocksPrices]. *)
Theorem predictFuturePrices_ignores_correlated
    (draws : nat -> num) (targetPrices spyPrices : list num)
    (correlated1 correlated2 : list (list num)) (daysToPredict : Z) :
  predictFuturePrices draws targetPrices spyPrices correlated1 daysToPredict
  = predictFuturePrices draws targetPrices spyPrices correlated2 daysToPredict.
Proof. reflexivity. Qed.

(** [calculateCorrelation] returns 0 when the shorter of its two arguments
    has fewer than 2 entries. *)
Theorem calculateCorrelation_short (x y : list num) :
  (Nat.min (length x) (length y) < 2)%nat -> calculateCorrelation x y = ofZ 0.
Proof.
  intros H. unfold calculateCorrelation.
  now replace (Nat.min (length x) (length y) <? 2)%nat with true
    by (symmetry; apply Nat.ltb_lt; lia).
Qed.

(** [calculateMomentum] returns 0 when there are fewer prices than the
    period. *)
Theorem calculateMomentum_short (prices : list num) (period : Z) :
  (Z.of_nat (length prices) < period)%Z -> calculateMomentum prices period = ofZ 0.
Proof.
  intros H. unfold calculateMomentum.
  now replace (Z.of_nat (length prices) <? period)%Z with true
    by (symmetry; apply Z.ltb_lt; lia).
Qed.

(** [calculateReturns] has one entry less than [prices], and its entry [k]
    is [(prices[k+1] - prices[k]) / prices[k]]. *)
Theorem calculateReturns_entries (prices : list num) (k : nat) :
  (k + 1 < length prices)%nat ->
  length (calculateReturns prices) = (length prices - 1)%nat /\
  nth_error (calculateReturns prices) k
  = Some (div (sub (nth (k + 1) prices nan) (nth k prices nan)) (nth k prices nan)).
Proof.
  intros Hk. unfold calculateReturns, mapi. rewrite sliceFrom_1. split.
  - rewrite mapiFrom_length. destruct prices; simpl; lia.
  - rewrite mapiFrom_nth. destruct prices as [|p0 rest]; [simpl in Hk; lia|].
    cbn [tl]. simpl length in Hk.
    rewrite (nth_error_nth' rest nan) by lia. cbn [option_map].
    unfold at_, get. cbn [Z.add].
    replace (Z.of_nat k <? 0)%Z with false by (symmetry; apply Z.ltb_ge; lia).
    rewrite Nat2Z.id. replace (k + 1)%nat with (S k) by lia. reflexivity.
Qed.

End Structure.

(** ** The program on a store: what a call reads and what it leaves *)

Section StoreFacts.

Context {num : Type} {NUM : Number num} {gen : Type}.

Variable random : gen -> num * gen.

Local Abbreviation World := (@Store.World num gen).

Implicit Types (w : World) (r : Store.Ref).

Lemma wp_bind {A B : Type} (m : Store.M A) (k : A -> Store.M B) w
    (Q : B -> World -> Prop) :
  Store.wp m w (fun v w' => Store.wp (k v) w' Q) -> Store.wp (Store.bind m k) w Q.
Proof. unfold Store.wp, Store.bind. destruct (m w) as [v w']. exact (fun H => H). Qed.

Lemma wp_mono {A : Type} (m : Store.M A) w (Q1 Q2 : A -> World -> Prop) :
  Store.wp m w Q1 -> (forall v w', Q1 v w' -> Q2 v w') -> Store.wp m w Q2.
Proof. unfold Store.wp. intros H HQ. now apply HQ. Qed.

Lemma keeps_refl w : Store.keeps w w.
Proof. split; [lia | reflexivity]. Qed.

Lemma keeps_trans w1 w2 w3 : Store.keeps w1 w2 -> Store.keeps w2 w3 -> Store.keeps w1 w3.
Proof.
  intros [L1 H1] [L2 H2]. split; [lia|].
  intros r Hr. rewrite H2 by lia. now apply H1.
Qed.

Lemma valid_keeps w w' r : Store.valid w r -> Store.keeps w w' -> Store.valid w' r.
Proof. unfold Store.valid. intros Hr [L _]. lia. Qed.

Lemma arrayAt_keeps w w' r :
  Store.valid w r -> Store.keeps w w' -> Store.arrayAt w' r = Store.arrayAt w r.
Proof. intros Hr [_ H]. now apply H. Qed.

Lemma arrayNew_spec (a : list num) w : Store.returnsArray (Store.arrayNew a) w a.
Proof.
  unfold Store.returnsArray, Store.wp, Store.arrayNew, Store.valid, Store.keeps,
    Store.arrayAt.
  cbn [fst snd Store.arrays Store.generator]. rewrite length_app. cbn [length].
  repeat split; try lia.
  - now rewrite app_nth2, Nat.sub_diag by lia.
  - intros r Hr. now rewrite app_nth1 by lia.
Qed.

Lemma arraySliceFrom_spec w r (start : Z) :
  Store.returnsArray (Store.arraySliceFrom r start) w
                     (sliceFrom (Store.arrayAt w r) start).
Proof. apply arrayNew_spec. Qed.

Lemma arraySlice_spec w r (start stop : Z) :
  Store.returnsArray (Store.arraySlice r start stop) w
                     (slice (Store.arrayAt w r) start stop).
Proof. apply arrayNew_spec. Qed.

Lemma firstn_skipn_cons (A : Type) (a : list A) (k n : nat) (d : A) :
  (k < length a)%nat ->
  firstn (S n) (skipn k a) = nth k a d :: firstn n (skipn (S k) a).
Proof.
  revert k; induction a as [|x a IH]; intros k Hk; [cbn in Hk; lia|].
  destruct k as [|k]; [reflexivity|].
  cbn [length] in Hk. cbn [skipn nth]. rewrite IH by lia. reflexivity.
Qed.

(** [map] with a callback that only reads. *)
Lemma mapFrom_reads (f : num -> Z -> Store.M num) (F : num -> Z -> num) w r :
  (forall x i, f x i w = (F x i, w)) ->
  forall (n : nat) (i : Z),
    (0 <= i)%Z -> (Z.to_nat i + n <= length (Store.arrayAt w r))%nat ->
    Store.mapFrom f r i n w
    = (mapiFrom i (fun j x => F x j) (firstn n (skipn (Z.to_nat i) (Store.arrayAt w r))), w).
Proof.
  intros Hf. induction n as [|n IH]; intros i Hi Hn; [reflexivity|].
  cbn [Store.mapFrom]. unfold Store.bind at 1. unfold Store.arrayGet at 1.
  unfold Store.bind at 1. rewrite Hf.
  unfold Store.bind at 1. rewrite IH by lia. unfold Store.ret.
  rewrite (firstn_skipn_cons _ _ _ _ nan) by lia. cbn [mapiFrom].
  replace (Z.to_nat (i + 1)) with (S (Z.to_nat i)) by lia.
  unfold at_, get. replace (i <? 0)%Z with false by (symmetry; apply Z.ltb_ge; lia).
  reflexivity.
Qed.

Lemma arrayMap_reads (f : num -> Z -> Store.M num) (F : num -> Z -> num) w r :
  (forall x i, f x i w = (F x i, w)) ->
  Store.returnsArray (Store.arrayMap f r) w (mapi (fun j x => F x j) (Store.arrayAt w r)).
Proof.
  intros Hf. unfold Store.returnsArray, Store.arrayMap.
  apply wp_bind. unfold Store.wp at 1, Store.arrayLength. cbn [fst snd].
  apply wp_bind. unfold Store.wp at 1.
  rewrite (mapFrom_reads f F w r Hf) by (rewrite ?Nat2Z.id; cbn; lia).
  cbn [fst snd]. rewrite Nat2Z.id. change (Z.to_nat 0) with 0%nat. cbn [skipn].
  rewrite firstn_all. apply arrayNew_spec.
Qed.

Lemma reduceFrom_reads (f : num -> num -> Store.M num) (F : num -> num -> num) w r :
  (forall a b, f a b w = (F a b, w)) ->
  forall (n : nat) (i : Z) (acc : num),
    (0 <= i)%Z -> (Z.to_nat i + n <= length (Store.arrayAt w r))%nat ->
    Store.reduceFrom f r i n acc w
    = (fold_left F (firstn n (skipn (Z.to_nat i) (Store.arrayAt w r))) acc, w).
Proof.
  intros Hf. induction n as [|n IH]; intros i acc Hi Hn; [reflexivity|].
  cbn [Store.reduceFrom]. unfold Store.bind at 1. unfold Store.arrayGet at 1.
  unfold Store.bind at 1. rewrite Hf. rewrite IH by lia.
  rewrite (firstn_skipn_cons _ _ _ _ nan) by lia. cbn [fold_left].
  replace (Z.to_nat (i + 1)) with (S (Z.to_nat i)) by lia.
  unfold at_, get. replace (i <? 0)%Z with false by (symmetry; apply Z.ltb_ge; lia).
  reflexivity.
Qed.

Lemma arrayReduce_reads (f : num -> num -> Store.M num) (F : num -> num -> num) w r
    (init : num) :
  (forall a b, f a b w = (F a b, w)) ->
  Store.arrayReduce f r init w = (fold_left F (Store.arrayAt w r) init, w).
Proof.
  intros Hf. unfold Store.arrayReduce, Store.bind, Store.arrayLength.
  rewrite (reduceFrom_reads f F w r Hf) by (rewrite ?Nat2Z.id; cbn; lia).
  rewrite Nat2Z.id. change (Z.to_nat 0) with 0%nat. cbn [skipn].
  now rewrite firstn_all.
Qed.

Lemma arraySum_spec w r : Store.arraySum r w = (sum (Store.arrayAt w r), w).
Proof. unfold Store.arraySum. now apply arrayReduce_reads. Qed.

Lemma forEach_reads {S : Type} (body : nat -> S -> Store.M S) (B : nat -> S -> S) w :
  (forall i s, body i s w = (B i s, w)) ->
  forall (idxs : list nat) (s : S),
    Store.forEach idxs body s w = (fold_left (fun s i => B i s) idxs s, w).
Proof.
  intros Hb. induction idxs as [|i idxs IH]; intros s; [reflexivity|].
  cbn [Store.forEach fold_left]. unfold Store.bind. rewrite Hb. apply IH.
Qed.

(** A call that returns a new array, followed by what is done with it. *)
Lemma wp_array {B : Type} (m : Store.M Store.Ref) (k : Store.Ref -> Store.M B) w
    (a : list num) (Q : B -> World -> Prop) :
  Store.returnsArray m w a ->
  (forall r' w', Store.valid w' r' -> ~ Store.valid w r' -> Store.arrayAt w' r' = a ->
                 Store.keeps w w' -> Store.generator w' = Store.generator w ->
                 Store.wp (k r') w' Q) ->
  Store.wp (Store.bind m k) w Q.
Proof.
  intros Hm Hk. apply wp_bind. unfold Store.returnsArray, Store.wp in *.
  destruct Hm as (H1 & H2 & H3 & H4 & H5). now apply Hk.
Qed.

Lemma wp_value {A B : Type} (m : Store.M A) (k : A -> Store.M B) w
    (v : A) (Q : B -> World -> Prop) :
  Store.returnsValue m w v ->
  (forall w', Store.keeps w w' -> Store.generator w' = Store.generator w ->
              Store.wp (k v) w' Q) ->
  Store.wp (Store.bind m k) w Q.
Proof.
  intros Hm Hk. apply wp_bind. unfold Store.returnsValue, Store.wp in *.
  destruct Hm as (H1 & H2 & H3). rewrite H1. now apply Hk.
Qed.

(** A step that only reads. *)
Lemma wp_reads {A B : Type} (m : Store.M A) (k : A -> Store.M B) w
    (v : A) (Q : B -> World -> Prop) :
  m w = (v, w) -> Store.wp (k v) w Q -> Store.wp (Store.bind m k) w Q.
Proof. intros Hm Hk. apply wp_bind. unfold Store.wp at 1. now rewrite Hm. Qed.

Lemma wp_ret {A : Type} (v : A) w (Q : A -> World -> Prop) :
  Q v w -> Store.wp (Store.ret v) w Q.
Proof. exact (fun H => H). Qed.

Lemma returnsValue_reads {A : Type} (m : Store.M A) w (v : A) :
  m w = (v, w) -> Store.returnsValue m w v.
Proof.
  intros H. unfold Store.returnsValue, Store.wp. rewrite H.
  repeat split; try reflexivity; try lia.
Qed.

Lemma arrayLength_spec w r :
  Store.arrayLength r w = (Z.of_nat (length (Store.arrayAt w r)), w).
Proof. reflexivity. Qed.

Lemma arrayGet_spec w r (i : Z) : Store.arrayGet r i w = (at_ (Store.arrayAt w r) i, w).
Proof. reflexivity. Qed.

Lemma store_calculateCorrelation w x y :
  Store.calculateCorrelation x y w
  = (calculateCorrelation (Store.arrayAt w x) (Store.arrayAt w y), w).
Proof.
  unfold Store.calculateCorrelation, calculateCorrelation.
  unfold Store.bind at 1. rewrite arrayLength_spec.
  unfold Store.bind at 1. rewrite arrayLength_spec.
  set (X := Store.arrayAt w x). set (Y := Store.arrayAt w y).
  rewrite <- Nat2Z.inj_min.
  destruct (Nat.ltb_spec (Nat.min (length X) (length Y)) 2) as [Hlt|Hge].
  - replace (Z.of_nat (Nat.min (length X) (length Y)) <? 2)%Z with true
      by (symmetry; apply Z.ltb_lt; lia).
    reflexivity.
  - replace (Z.of_nat (Nat.min (length X) (length Y)) <? 2)%Z with false
      by (symmetry; apply Z.ltb_ge; lia).
    unfold Store.bind at 1. rewrite arraySum_spec.
    unfold Store.bind at 1. rewrite arraySum_spec.
    unfold Store.bind at 1. rewrite Nat2Z.id. fold X Y.
    rewrite (forEach_reads _
               (fun i s => correlationStep X Y
                             (div (sum X) (ofZ (Z.of_nat (Nat.min (length X) (length Y)))))
                             (div (sum Y) (ofZ (Z.of_nat (Nat.min (length X) (length Y)))))
                             s i)).
    + destruct (fold_left _ _ _) as [[numerator xVariance] yVariance]. reflexivity.
    + intros i [[numerator xVariance] yVariance]. reflexivity.
Qed.

Lemma store_calculateReturns w prices :
  Store.valid w prices ->
  Store.returnsArray (Store.calculateReturns prices) w
                     (calculateReturns (Store.arrayAt w prices)).
Proof.
  intros Hv. unfold Store.returnsArray, Store.calculateReturns.
  eapply wp_array; [apply arraySliceFrom_spec|].
  intros rest w1 Hrest Hfresh Hc Hk Hg.
  assert (Hmap : Store.returnsArray
            (Store.arrayMap
               (fun price i =>
                  Store.bind (Store.arrayGet prices i) (fun before =>
                  Store.bind (Store.arrayGet prices i) (fun divisor =>
                  Store.ret (div (sub price before) divisor))))
               rest) w1
            (mapi (fun i price => div (sub price (at_ (Store.arrayAt w prices) i))
                                      (at_ (Store.arrayAt w prices) i))
                  (Store.arrayAt w1 rest))).
  { apply (arrayMap_reads _
             (fun price i => div (sub price (at_ (Store.arrayAt w prices) i))
                                 (at_ (Store.arrayAt w prices) i))).
    intros price i. unfold Store.bind. rewrite !arrayGet_spec.
    rewrite (arrayAt_keeps w w1) by assumption. reflexivity. }
  unfold Store.returnsArray, Store.wp in *.
  destruct Hmap as (H1 & H2 & H3 & H4 & H5). repeat split.
  - assumption.
  - intros Hr. apply H2. eapply valid_keeps; eassumption.
  - rewrite H3, Hc. reflexivity.
  - destruct Hk, H4. lia.
  - intros r' Hr'. destruct (keeps_trans _ _ _ Hk H4) as [_ H]. now apply H.
  - congruence.
Qed.

Ltac keeps_chain :=
  first [ assumption
        | apply keeps_refl
        | match goal with
          | H : Store.keeps ?a ?b |- Store.keeps ?a ?c =>
              apply (keeps_trans a b c H); keeps_chain
          end ].

Ltac still_valid :=
  first [assumption | eapply valid_keeps; [eassumption | keeps_chain]].

Ltac array_step spec :=
  eapply wp_array; [apply spec; try still_valid|];
  let r := fresh "r" in let w' := fresh "w" in
  let Hv := fresh "Hvalid" in let Hf := fresh "Hfresh" in let Hc := fresh "Hcontents" in
  let Hk := fresh "Hkeeps" in let Hg := fresh "Hgen" in
  intros r w' Hv Hf Hc Hk Hg; cbv beta.

Ltac read_step spec := eapply wp_reads; [apply spec|]; cbv beta.

Ltac value_step spec :=
  eapply wp_value; [apply spec; try still_valid|];
  let w' := fresh "w" in let Hk := fresh "Hkeeps" in let Hg := fresh "Hgen" in
  intros w' Hk Hg; cbv beta.

Lemma store_calculateVolatility w prices (window : Z) :
  Store.valid w prices ->
  Store.returnsValue (Store.calculateVolatility prices window) w
                     (calculateVolatility (Store.arrayAt w prices) window).
Proof.
  intros Hv. unfold Store.returnsValue, Store.calculateVolatility.
  array_step arraySliceFrom_spec.
  array_step store_calculateReturns.
  read_step arraySum_spec. read_step arrayLength_spec.
  eapply wp_reads; [apply arrayReduce_reads; intros a b; reflexivity|]. cbv beta.
  read_step arrayLength_spec. apply wp_ret.
  split; [|split].
  - unfold calculateVolatility. rewrite Hcontents0, Hcontents. reflexivity.
  - keeps_chain.
  - congruence.
Qed.

Lemma mapiFrom_map (A B : Type) (g : A -> B) (a : list A) (i0 : Z) :
  mapiFrom i0 (fun _ x => g x) a = map g a.
Proof.
  revert i0; induction a as [|x a IH]; intros i0; [reflexivity|].
  cbn [mapiFrom map]. now rewrite IH.
Qed.

Lemma store_calculateRSI w prices (period : Z) :
  Store.valid w prices ->
  Store.returnsValue (Store.calculateRSI prices period) w
                     (calculateRSI (Store.arrayAt w prices) period).
Proof.
  intros Hv. unfold Store.returnsValue, Store.calculateRSI.
  array_step arraySliceFrom_spec.
  eapply wp_array.
  { apply (arrayMap_reads _
             (fun price i => if (0 <? i)%Z
                             then sub price (at_ (Store.arrayAt w0 r) (i - 1))
                             else zero)).
    intros price i. destruct (0 <? i)%Z; reflexivity. }
  intros differences w1 Hvalid1 Hfresh1 Hcontents1 Hkeeps1 Hgen1. cbv beta.
  array_step arraySliceFrom_spec.
  eapply wp_array.
  { apply (arrayMap_reads _ (fun change _ => if lt zero change then change else zero)).
    intros change i. reflexivity. }
  intros gains w3 Hvalid3 Hfresh3 Hcontents3 Hkeeps3 Hgen3. cbv beta.
  eapply wp_array.
  { apply (arrayMap_reads _ (fun change _ => if lt change zero then neg change else zero)).
    intros change i. reflexivity. }
  intros losses w4 Hvalid4 Hfresh4 Hcontents4 Hkeeps4 Hgen4. cbv beta.
  read_step arraySum_spec. read_step arraySum_spec.
  assert (Hchanges : Store.arrayAt w2 r0 = rsiChanges (Store.arrayAt w prices) period).
  { rewrite Hcontents0, Hcontents1, Hcontents. reflexivity. }
  assert (Hgains : Store.arrayAt w4 gains
                   = rsiGains (rsiChanges (Store.arrayAt w prices) period)).
  { rewrite (arrayAt_keeps w3 w4) by assumption.
    rewrite Hcontents3. unfold mapi. rewrite mapiFrom_map, Hchanges. reflexivity. }
  assert (Hlosses : Store.arrayAt w4 losses
                    = rsiLosses (rsiChanges (Store.arrayAt w prices) period)).
  { rewrite Hcontents4. unfold mapi. rewrite mapiFrom_map.
    rewrite (arrayAt_keeps w2 w3) by assumption. rewrite Hchanges. reflexivity. }
  rewrite Hgains, Hlosses.
  assert (Hk : Store.keeps w w4) by keeps_chain.
  assert (Hg : Store.generator w4 = Store.generator w) by congruence.
  unfold calculateRSI.
  destruct (seq _ zero); apply wp_ret; repeat split; try assumption; apply Hk.
Qed.

Lemma store_calculateMomentum w prices (period : Z) :
  Store.valid w prices ->
  Store.returnsValue (Store.calculateMomentum prices period) w
                     (calculateMomentum (Store.arrayAt w prices) period).
Proof.
  intros Hv. unfold Store.returnsValue, Store.calculateMomentum, calculateMomentum.
  read_step arrayLength_spec.
  destruct (Z.of_nat (length (Store.arrayAt w prices)) <? period)%Z.
  - apply wp_ret. repeat split; try reflexivity; try lia.
  - array_step arraySliceFrom_spec.
    array_step store_calculateReturns.
    read_step arraySum_spec. read_step arrayLength_spec. apply wp_ret.
    split; [|split].
    + rewrite Hcontents0, Hcontents. reflexivity.
    + keeps_chain.
    + congruence.
Qed.

Lemma store_calculateMeanReversionSignal w (price ma20 ma50 : num) :
  Store.calculateMeanReversionSignal price ma20 ma50 w
  = (calculateMeanReversionSignal price ma20 ma50, w).
Proof. reflexivity. Qed.

Lemma length_setNth (A : Type) (n : nat) (x : A) (l : list A) :
  length (Store.setNth n x l) = length l.
Proof.
  revert n; induction l as [|h l IH]; intros n; [now destruct n|].
  destruct n as [|n]; cbn [Store.setNth length]; [reflexivity|]. now rewrite IH.
Qed.

Lemma nth_setNth_same (A : Type) (n : nat) (x d : A) (l : list A) :
  (n < length l)%nat -> nth n (Store.setNth n x l) d = x.
Proof.
  revert n; induction l as [|h l IH]; intros n Hn; [cbn in Hn; lia|].
  destruct n as [|n]; cbn [Store.setNth nth]; [reflexivity|].
  apply IH. cbn [length] in Hn. lia.
Qed.

Lemma nth_setNth_other (A : Type) (n m : nat) (x d : A) (l : list A) :
  m <> n -> nth m (Store.setNth n x l) d = nth m l d.
Proof.
  revert n m; induction l as [|h l IH]; intros n m Hm; [now destruct n|].
  destruct n as [|n], m as [|m]; cbn [Store.setNth nth]; try reflexivity; try lia.
  apply IH. lia.
Qed.

(** [push] on an array that the world [w0] did not have leaves the arrays
    of [w0] as they were. *)
Lemma arrayPush_spec w0 w r (v : num) :
  Store.valid w r -> ~ Store.valid w0 r -> Store.keeps w0 w ->
  Store.wp (Store.arrayPush r v) w
    (fun _ w' =>
       Store.arrayAt w' r = (Store.arrayAt w r ++ [v])%list
       /\ (forall r', r' <> r -> Store.arrayAt w' r' = Store.arrayAt w r')
       /\ Store.valid w' r /\ Store.keeps w0 w'
       /\ Store.generator w' = Store.generator w).
Proof.
  unfold Store.wp, Store.arrayPush, Store.valid, Store.keeps, Store.arrayAt.
  cbn [fst snd Store.arrays Store.generator].
  intros Hv Hf [Hl Hk]. rewrite length_setNth. repeat split; try lia.
  - now apply nth_setNth_same.
  - intros r' Hr'. now apply nth_setNth_other.
  - intros r' Hr'. rewrite nth_setNth_other by lia. now apply Hk.
Qed.

(** The frame says something: a [push] on an array of the world is seen. *)
Lemma arrayPush_not_kept w r (v : num) :
  Store.valid w r -> ~ Store.keeps w (snd (Store.arrayPush r v w)).
Proof.
  intros Hv [_ H]. specialize (H r Hv). revert H.
  unfold Store.arrayPush, Store.arrayAt, Store.valid in *.
  cbn [snd Store.arrays]. rewrite nth_setNth_same by assumption.
  intros H. apply (f_equal (@length num)) in H. rewrite length_app in H.
  cbn [length] in H. lia.
Qed.

Lemma calculateMA_loop w prices result (period : Z) (idxs : list nat) :
  forall w1,
    Store.valid w prices -> ~ Store.valid w result -> Store.valid w1 result ->
    Store.keeps w w1 ->
    Store.wp (Store.forEach idxs
                (fun index (_ : unit) =>
                   let i := Z.of_nat index in
                   if (i <? period - 1)%Z then Store.arrayPush result nan
                   else
                     Store.bind
                       (Store.arraySlice prices (i - period + 1) (i + 1))
                       (fun window =>
                          Store.bind (Store.arraySum window)
                            (fun total =>
                               Store.arrayPush result (div total (ofZ period)))))
                tt) w1
      (fun _ w2 =>
         Store.arrayAt w2 result
         = fold_left (fun res i => res ++ [maEntry (Store.arrayAt w prices) period
                                                   (Z.of_nat i)])
                     idxs (Store.arrayAt w1 result)
         /\ Store.valid w2 result /\ Store.keeps w w2
         /\ Store.generator w2 = Store.generator w1).
Proof.
  induction idxs as [|i idxs IH]; intros w1 Hp Hf Hr Hk.
  - apply wp_ret. repeat split; try assumption; apply Hk.
  - cbn [Store.forEach fold_left]. cbv zeta. apply wp_bind.
    assert (Hbody : Store.wp
              (if (Z.of_nat i <? period - 1)%Z then Store.arrayPush result nan
               else
                 Store.bind
                   (Store.arraySlice prices (Z.of_nat i - period + 1) (Z.of_nat i + 1))
                   (fun window =>
                      Store.bind (Store.arraySum window)
                        (fun total => Store.arrayPush result (div total (ofZ period)))))
              w1
              (fun _ w2 =>
                 Store.arrayAt w2 result
                 = (Store.arrayAt w1 result
                    ++ [maEntry (Store.arrayAt w prices) period (Z.of_nat i)])%list
                 /\ Store.valid w2 result /\ Store.keeps w w2
                 /\ Store.generator w2 = Store.generator w1)).
    { unfold maEntry. destruct (Z.of_nat i <? period - 1)%Z.
      - pose proof (arrayPush_spec w w1 result nan Hr Hf Hk) as H.
        unfold Store.wp in *. tauto.
      - array_step arraySlice_spec. read_step arraySum_spec.
        assert (Hr0 : Store.valid w0 result) by still_valid.
        assert (Hk0 : Store.keeps w w0) by keeps_chain.
        pose proof (arrayPush_spec w w0 result
                      (div (sum (Store.arrayAt w0 r)) (ofZ period)) Hr0 Hf Hk0) as H.
        unfold Store.wp in *. destruct H as (H1 & H2 & H3 & H4 & H5).
        split; [|split; [assumption|split; [assumption|congruence]]].
        rewrite H1, Hcontents. rewrite (arrayAt_keeps w1 w0 result) by assumption.
        rewrite (arrayAt_keeps w w1 prices) by assumption. reflexivity. }
    unfold Store.wp in Hbody |- *.
    destruct (_ w1) as [u w2] in Hbody |- *. cbn [fst snd] in Hbody |- *.
    destruct Hbody as (H1 & H2 & H3 & H4).
    pose proof (IH w2 Hp Hf H2 H3) as H. unfold Store.wp in H.
    destruct H as (G1 & G2 & G3 & G4). destruct u.
    split; [|split; [assumption|split; [assumption|congruence]]].
    rewrite G1, H1. reflexivity.
Qed.

Lemma store_calculateMA w prices (period : Z) :
  Store.valid w prices ->
  Store.returnsArray (Store.calculateMA prices period) w
                     (calculateMA (Store.arrayAt w prices) period).
Proof.
  intros Hv. unfold Store.returnsArray, Store.calculateMA.
  array_step arrayNew_spec. read_step arrayLength_spec.
  apply wp_bind.
  pose proof (calculateMA_loop w prices r period
                (List.seq 0 (Z.to_nat (Z.of_nat (length (Store.arrayAt w0 prices)))))
                w0 Hv Hfresh Hvalid Hkeeps) as H.
  unfold Store.wp in H |- *.
  destruct (Store.forEach _ _ tt w0) as [u w1]. cbn [fst snd Store.ret] in H |- *.
  destruct H as (H1 & H2 & H3 & H4).
  split; [assumption|]. split; [assumption|].
  split; [|split; [assumption|congruence]].
  rewrite H1, Hcontents, Nat2Z.id.
  rewrite (arrayAt_keeps w w0 prices) by assumption. reflexivity.
Qed.

Lemma stateAfter_next (n : nat) (g : gen) :
  stateAfter random (S n) g = snd (random (stateAfter random n g)).
Proof.
  revert g; induction n as [|n IH]; intros g; [reflexivity|].
  change (stateAfter random (S (S n)) g)
    with (stateAfter random (S n) (snd (random g))).
  rewrite IH. reflexivity.
Qed.

(** One turn of the loop of [predictFuturePrices]: it calls the generator
    once, pushes to [predictions] and changes no other array. *)
Lemma forecastStep_spec w (g0 : gen) (s : Snapshot) (m20 m50 predictions : Store.Ref)
    (c : nat) (p : num) w1 :
  ~ Store.valid w predictions -> Store.valid w1 predictions -> Store.keeps w w1 ->
  m20 <> predictions -> m50 <> predictions ->
  Store.arrayAt w1 m20 = ma20 s -> Store.arrayAt w1 m50 = ma50 s ->
  Store.generator w1 = stateAfter random c g0 ->
  Store.wp (Store.forecastStep random (volatility s) (rsi s) (momentum s) m20 m50
              (correlation s) (recentSpyReturn s) predictions (S c) p) w1
    (fun p' w2 =>
       p' = nextPrice s p (Z.of_nat (S c)) (drawsOf random g0 c)
       /\ Store.arrayAt w2 predictions
          = (Store.arrayAt w1 predictions ++ [toFixed2 p'])%list
       /\ Store.arrayAt w2 m20 = ma20 s /\ Store.arrayAt w2 m50 = ma50 s
       /\ Store.valid w2 predictions /\ Store.keeps w w2
       /\ Store.generator w2 = stateAfter random (S c) g0).
Proof.
  intros Hf Hv Hk Hn20 Hn50 H20 H50 Hg. unfold Store.forecastStep. cbv zeta.
  read_step arrayLength_spec. read_step arrayGet_spec.
  read_step arrayLength_spec. read_step arrayGet_spec.
  read_step store_calculateMeanReversionSignal.
  rewrite H20, H50.
  apply wp_bind. unfold Store.wp at 1, Store.mathRandom.
  rewrite Hg.
  assert (Hu : fst (random (stateAfter random c g0)) = drawsOf random g0 c)
    by reflexivity.
  assert (Hs : snd (random (stateAfter random c g0)) = stateAfter random (S c) g0)
    by (symmetry; apply stateAfter_next).
  destruct (random (stateAfter random c g0)) as [u g']. cbn [fst snd] in Hu, Hs |- *.
  subst u g'.
  set (w1' := {| Store.arrays := Store.arrays w1;
                 Store.generator := stateAfter random (S c) g0 |}).
  assert (Hv' : Store.valid w1' predictions) by exact Hv.
  assert (Hk' : Store.keeps w w1') by exact Hk.
  apply wp_bind.
  match goal with
  | |- Store.wp (Store.arrayPush predictions ?v) w1' _ =>
      pose proof (arrayPush_spec w w1' predictions v Hv' Hf Hk') as Hpush
  end.
  unfold Store.wp in Hpush |- *. cbn [Store.ret fst snd].
  destruct Hpush as (P1 & P2 & P3 & P4 & P5).
  split; [reflexivity|]. split; [exact P1|].
  split; [rewrite P2 by assumption; exact H20|].
  split; [rewrite P2 by assumption; exact H50|].
  split; [assumption|]. split; [assumption|]. exact P5.
Qed.

Lemma forecast_loop w (g0 : gen) (s : Snapshot) (m20 m50 predictions : Store.Ref)
    (n : nat) :
  forall (c : nat) (p : num) w1,
    ~ Store.valid w predictions -> Store.valid w1 predictions -> Store.keeps w w1 ->
    m20 <> predictions -> m50 <> predictions ->
    Store.arrayAt w1 m20 = ma20 s -> Store.arrayAt w1 m50 = ma50 s ->
    Store.generator w1 = stateAfter random c g0 ->
    Store.wp (Store.forEach (List.seq (S c) n)
                (Store.forecastStep random (volatility s) (rsi s) (momentum s) m20 m50
                   (correlation s) (recentSpyReturn s) predictions) p) w1
      (fun _ w2 =>
         Store.arrayAt w2 predictions
         = forecastLoop (drawsOf random g0) s n (Z.of_nat (S c)) c p
                        (Store.arrayAt w1 predictions)
         /\ Store.valid w2 predictions /\ Store.keeps w w2
         /\ Store.generator w2 = stateAfter random (c + n) g0).
Proof.
  induction n as [|n IH]; intros c p w1 Hf Hv Hk Hn20 Hn50 H20 H50 Hg.
  - apply wp_ret. cbn [forecastLoop]. rewrite Nat.add_0_r. tauto.
  - cbn [List.seq Store.forEach forecastLoop]. apply wp_bind.
    pose proof (forecastStep_spec w g0 s m20 m50 predictions c p w1
                  Hf Hv Hk Hn20 Hn50 H20 H50 Hg) as Hstep.
    unfold Store.wp in Hstep |- *.
    destruct (Store.forecastStep _ _ _ _ _ _ _ _ _ _ _ w1) as [p' w2].
    cbn [fst snd] in Hstep |- *.
    destruct Hstep as (S1 & S2 & S3 & S4 & S5 & S6 & S7).
    pose proof (IH (S c) p' w2 Hf S5 S6 Hn20 Hn50 S3 S4 S7) as H.
    unfold Store.wp in H. destruct H as (G1 & G2 & G3 & G4).
    split; [|split; [assumption|split; [assumption|]]].
    + rewrite G1, S2, S1.
      replace (Z.of_nat (S c) + 1)%Z with (Z.of_nat (S (S c))) by lia. reflexivity.
    + rewrite G4. f_equal. lia.
Qed.

Lemma store_predictFuturePrices w (targetPrices spyPrices : Store.Ref)
    (correlatedStocksPrices : list Store.Ref) (daysToPredict : Z) :
  Store.valid w targetPrices -> Store.valid w spyPrices ->
  Store.wp (Store.predictFuturePrices random targetPrices spyPrices
              correlatedStocksPrices daysToPredict) w
    (fun r w' =>
       Store.valid w' r /\ ~ Store.valid w r
       /\ Store.arrayAt w' r
          = predictFuturePrices (drawsOf random (Store.generator w))
              (Store.arrayAt w targetPrices) (Store.arrayAt w spyPrices)
              (map (Store.arrayAt w) correlatedStocksPrices) daysToPredict
       /\ Store.keeps w w'
       /\ Store.generator w'
          = stateAfter random (drawsMade (Store.arrayAt w targetPrices) daysToPredict)
                       (Store.generator w)).
Proof.
  intros Ht Hs. unfold Store.predictFuturePrices, predictFuturePrices, drawsMade.
  read_step arrayLength_spec.
  destruct (Nat.ltb_spec (length (Store.arrayAt w targetPrices)) 50) as [Hlt|Hge].
  - replace (Z.of_nat (length (Store.arrayAt w targetPrices)) <? 50)%Z with true
      by (symmetry; apply Z.ltb_lt; lia).
    exact (arrayNew_spec [] w).
  - replace (Z.of_nat (length (Store.arrayAt w targetPrices)) <? 50)%Z with false
      by (symmetry; apply Z.ltb_ge; lia).
    set (T := Store.arrayAt w targetPrices). set (P := Store.arrayAt w spyPrices).
    array_step arraySliceFrom_spec. rename r into recent, w0 into wa.
    rename Hvalid into Hrecent, Hcontents into Crecent.
    read_step arrayLength_spec. read_step arrayGet_spec.
    value_step store_calculateVolatility.
    value_step store_calculateRSI.
    value_step store_calculateMomentum.
    array_step store_calculateMA. rename r into m20, Hvalid into Hm20, Hcontents into C20.
    array_step store_calculateMA. rename r into m50, Hvalid into Hm50, Hcontents into C50.
    array_step arraySliceFrom_spec.
    array_step store_calculateReturns.
    rename r0 into spyReturns, Hvalid0 into HspyR, Hcontents0 into CspyR.
    array_step arraySliceFrom_spec.
    array_step store_calculateReturns.
    rename r1 into stockReturns, Hvalid1 into HstockR, Hcontents1 into CstockR.
    read_step store_calculateCorrelation.
    read_step arrayLength_spec. read_step arrayGet_spec.
    read_step arrayGet_spec. read_step arrayGet_spec.
    array_step arrayNew_spec.
    rename r1 into predictions, Hvalid1 into Hpred, Hcontents1 into Cpred.
    set (R := sliceFrom T (-50)) in *. fold T in Crecent. fold R in Crecent.
    assert (Hrec : forall w', Store.keeps wa w' -> Store.arrayAt w' recent = R).
    { intros w' Hw'. rewrite (arrayAt_keeps wa w' recent) by assumption. exact Crecent. }
    assert (Hspy : forall w', Store.keeps w w' -> Store.arrayAt w' spyPrices = P).
    { intros w' Hw'. now rewrite (arrayAt_keeps w w' spyPrices) by assumption. }
    rewrite Crecent, !Hrec, !Hspy by keeps_chain.
    rewrite Hrec in C20, C50, Hcontents0 by keeps_chain.
    rewrite Hspy in Hcontents by keeps_chain.
    rewrite (arrayAt_keeps w6 w8 spyReturns) by (assumption || keeps_chain).
    rewrite CspyR, Hcontents, CstockR, Hcontents0.
    set (s := snapshot R P).
    assert (H20 : Store.arrayAt w9 m20 = ma20 s).
    { rewrite (arrayAt_keeps w3 w9 m20) by (assumption || keeps_chain). exact C20. }
    assert (H50 : Store.arrayAt w9 m50 = ma50 s).
    { rewrite (arrayAt_keeps w4 w9 m50) by (assumption || keeps_chain). exact C50. }
    assert (Hn20 : m20 <> predictions).
    { intros E. apply Hfresh6. rewrite <- E. still_valid. }
    assert (Hn50 : m50 <> predictions).
    { intros E. apply Hfresh6. rewrite <- E. still_valid. }
    assert (Hk9 : Store.keeps w w9) by keeps_chain.
    assert (Hnew : ~ Store.valid w predictions).
    { intros E. apply Hfresh6. apply (valid_keeps w w8); [assumption | keeps_chain]. }
    assert (Hg9 : Store.generator w9 = stateAfter random 0 (Store.generator w))
      by (cbn [stateAfter]; congruence).
    apply wp_bind.
    pose proof (forecast_loop w (Store.generator w) s m20 m50 predictions
                  (Z.to_nat daysToPredict) 0 (lastOf R) w9
                  Hnew Hpred Hk9 Hn20 Hn50 H20 H50 Hg9) as Hloop.
    unfold Store.wp in Hloop |- *.
    change (Store.forecastStep random (calculateVolatility R 20) (calculateRSI R 14)
              (calculateMomentum R 10) m20 m50
              (calculateCorrelation (calculateReturns (sliceFrom P (-20)))
                                    (calculateReturns (sliceFrom R (-20))))
              (div (sub (at_ P (Z.of_nat (length P) - 1)) (at_ P (Z.of_nat (length P) - 2)))
                   (at_ P (Z.of_nat (length P) - 2)))
              predictions)
      with (Store.forecastStep random (volatility s) (rsi s) (momentum s) m20 m50
              (correlation s) (recentSpyReturn s) predictions).
    change (at_ R (Z.of_nat (length R) - 1)) with (lastOf R).
    destruct (Store.forEach _ _ _ w9) as [p w10]. cbn [fst snd Store.ret] in Hloop |- *.
    destruct Hloop as (G1 & G2 & G3 & G4).
    split; [assumption|]. split; [assumption|].
    split; [rewrite G1, Cpred; reflexivity|]. split; [assumption|]. exact G4.
Qed.

(** C8. The program run on a store: a world of arrays that calls can
    reach, extend and change in place, and a generator [random], of any
    state type, behind [Math.random]. In every world [w] in which the
    arguments are arrays:
    - a call of [predictFuturePrices] returns a new array whose elements
      are those of the function [predictFuturePrices] of the elements of
      the two price arrays and of the numbers the generator returns to its
      first [drawsMade] calls (one per step of the loop, none when fewer
      than 50 prices are given); it leaves every array of [w] as it was and
      the generator in the state those calls leave it;
    - so two calls, in any two worlds, return the same sequence when the
      price arrays have the same elements and the generator returns the
      same numbers to both; with [Math.random] stubbed to return a
      constant, the second of two calls in a row returns the sequence the
      first returned;
    - every indicator function returns the value of the function of the
      same name of the elements of its argument arrays, leaves every array
      of [w] as it was and does not call the generator. *)
Theorem predictFuturePrices_repeatable
    (targetPrices spyPrices : Store.Ref) (correlatedStocksPrices : list Store.Ref)
    (daysToPredict : Z) :
  let call := Store.predictFuturePrices random targetPrices spyPrices
                                        correlatedStocksPrices daysToPredict in
  let output := fun w => Store.arrayAt (snd (call w)) (fst (call w)) in
  (forall w, Store.valid w targetPrices -> Store.valid w spyPrices ->
     output w = predictFuturePrices (drawsOf random (Store.generator w))
                  (Store.arrayAt w targetPrices) (Store.arrayAt w spyPrices)
                  (map (Store.arrayAt w) correlatedStocksPrices) daysToPredict
     /\ Store.valid (snd (call w)) (fst (call w))
     /\ ~ Store.valid w (fst (call w))
     /\ Store.keeps w (snd (call w))
     /\ Store.generator (snd (call w))
        = stateAfter random (drawsMade (Store.arrayAt w targetPrices) daysToPredict)
                     (Store.generator w))
  /\ (forall w1 w2,
        Store.valid w1 targetPrices -> Store.valid w1 spyPrices ->
        Store.valid w2 targetPrices -> Store.valid w2 spyPrices ->
        Store.arrayAt w1 targetPrices = Store.arrayAt w2 targetPrices ->
        Store.arrayAt w1 spyPrices = Store.arrayAt w2 spyPrices ->
        (forall k, (k < Z.to_nat daysToPredict)%nat ->
                   drawsOf random (Store.generator w1) k
                   = drawsOf random (Store.generator w2) k) ->
        output w1 = output w2)
  /\ (forall u, (forall g, fst (random g) = u) ->
        forall w, Store.valid w targetPrices -> Store.valid w spyPrices ->
                  output (snd (call w)) = output w)
  /\ (forall w x y,
        Store.returnsValue (Store.calculateCorrelation x y) w
          (calculateCorrelation (Store.arrayAt w x) (Store.arrayAt w y)))
  /\ (forall w prices (period : Z), Store.valid w prices ->
        Store.returnsArray (Store.calculateReturns prices) w
          (calculateReturns (Store.arrayAt w prices))
        /\ Store.returnsValue (Store.calculateVolatility prices period) w
             (calculateVolatility (Store.arrayAt w prices) period)
        /\ Store.returnsValue (Store.calculateRSI prices period) w
             (calculateRSI (Store.arrayAt w prices) period)
        /\ Store.returnsArray (Store.calculateMA prices period) w
             (calculateMA (Store.arrayAt w prices) period)
        /\ Store.returnsValue (Store.calculateMomentum prices period) w
             (calculateMomentum (Store.arrayAt w prices) period))
  /\ (forall w (price ma20 ma50 : num),
        Store.returnsValue (Store.calculateMeanReversionSignal price ma20 ma50) w
          (calculateMeanReversionSignal price ma20 ma50)).
Proof.
  intros call output.
  assert (Hcall : forall w, Store.valid w targetPrices -> Store.valid w spyPrices ->
     output w = predictFuturePrices (drawsOf random (Store.generator w))
                  (Store.arrayAt w targetPrices) (Store.arrayAt w spyPrices)
                  (map (Store.arrayAt w) correlatedStocksPrices) daysToPredict
     /\ Store.valid (snd (call w)) (fst (call w))
     /\ ~ Store.valid w (fst (call w))
     /\ Store.keeps w (snd (call w))
     /\ Store.generator (snd (call w))
        = stateAfter random (drawsMade (Store.arrayAt w targetPrices) daysToPredict)
                     (Store.generator w)).
  { intros w Ht Hs.
    pose proof (store_predictFuturePrices w targetPrices spyPrices
                  correlatedStocksPrices daysToPredict Ht Hs) as H.
    unfold Store.wp in H. tauto. }
  assert (Hsame : forall w1 w2,
        Store.valid w1 targetPrices -> Store.valid w1 spyPrices ->
        Store.valid w2 targetPrices -> Store.valid w2 spyPrices ->
        Store.arrayAt w1 targetPrices = Store.arrayAt w2 targetPrices ->
        Store.arrayAt w1 spyPrices = Store.arrayAt w2 spyPrices ->
        (forall k, (k < Z.to_nat daysToPredict)%nat ->
                   drawsOf random (Store.generator w1) k
                   = drawsOf random (Store.generator w2) k) ->
        output w1 = output w2).
  { intros w1 w2 Ht1 Hs1 Ht2 Hs2 Et Es Hd.
    destruct (Hcall w1 Ht1 Hs1) as [E1 _]. destruct (Hcall w2 Ht2 Hs2) as [E2 _].
    rewrite E1, E2, Et, Es.
    transitivity (predictFuturePrices (drawsOf random (Store.generator w2))
                    (Store.arrayAt w2 targetPrices) (Store.arrayAt w2 spyPrices)
                    (map (Store.arrayAt w1) correlatedStocksPrices) daysToPredict);
      [now apply predictFuturePrices_ext | reflexivity]. }
  split; [exact Hcall|]. split; [exact Hsame|]. split; [|split; [|split]].
  - intros u Hu w Ht Hs. destruct (Hcall w Ht Hs) as (_ & _ & _ & Hk & _).
    apply Hsame.
    + now apply (valid_keeps w).
    + now apply (valid_keeps w).
    + assumption.
    + assumption.
    + now apply arrayAt_keeps.
    + now apply arrayAt_keeps.
    + intros k _. unfold drawsOf. now rewrite !Hu.
  - intros w x y. apply returnsValue_reads, store_calculateCorrelation.
  - intros w prices period Hv.
    split; [now apply store_calculateReturns|].
    split; [now apply store_calculateVolatility|].
    split; [now apply store_calculateRSI|].
    split; [now apply store_calculateMA|].
    now apply store_calculateMomentum.
  - intros w price m20 m50. apply returnsValue_reads, store_calculateMeanReversionSignal.
Qed.

End StoreFacts.

(** ** Binary64: order and signs *)

Module Binary64Facts.

Import Binary64.

Lemma SFcompare_antisym (a b : float) :
  SFcompare b a = option_map CompOpp (SFcompare a b).
Proof.
  destruct a as [sa|sa| |sa ma ea], b as [sb|sb| |sb mb eb]; simpl;
    try reflexivity; try (destruct sa; reflexivity); try (destruct sb; reflexivity);
    try (destruct sa, sb; reflexivity).
  destruct sa, sb; simpl; try reflexivity;
    pose proof (Pos.compare_cont_antisym ma mb Eq) as Hm; simpl in Hm;
    rewrite (Z.compare_antisym ea eb); destruct (ea ?= eb)%Z; simpl; try reflexivity;
    rewrite <- Hm; destruct (Pos.compare_cont Eq ma mb); reflexivity.
Qed.

Lemma SFcompare_defined (a b : float) :
  isNaN a = false -> isNaN b = false -> exists c, SFcompare a b = Some c.
Proof.
  destruct a as [sa|sa| |sa ma ea], b as [sb|sb| |sb mb eb]; simpl;
    intros Ha Hb; try discriminate; eauto.
Qed.

Lemma SFleb_refl (a : float) : isNaN a = false -> SFleb a a = true.
Proof.
  unfold SFleb. destruct a as [sa|sa| |sa ma ea]; simpl; intros Ha;
    try discriminate; try reflexivity.
  - destruct sa; reflexivity.
  - destruct sa; rewrite Z.compare_refl;
      change (Pos.compare_cont Eq ma ma) with (ma ?= ma)%positive;
      rewrite Pos.compare_refl; reflexivity.
Qed.

Lemma SFltb_SFleb (a b : float) : SFltb a b = true -> SFleb a b = true.
Proof. unfold SFltb, SFleb. destruct (SFcompare a b) as [[]|]; easy. Qed.

(** The order is total on numbers: when [a < b] fails, [b <= a]. *)
Lemma SFltb_false_SFleb (a b : float) :
  isNaN a = false -> isNaN b = false -> SFltb a b = false -> SFleb b a = true.
Proof.
  intros Ha Hb. unfold SFltb, SFleb. rewrite (SFcompare_antisym a b).
  destruct (SFcompare_defined a b Ha Hb) as [c ->]. destruct c; simpl; easy.
Qed.

(** When neither [a < b] nor [b < a], each is at most the other. *)
Lemma SFltb_neither (a b : float) :
  isNaN a = false -> isNaN b = false ->
  SFltb a b = false -> SFltb b a = false -> SFleb a b = true /\ SFleb b a = true.
Proof.
  intros Ha Hb. unfold SFltb, SFleb. rewrite (SFcompare_antisym a b).
  destruct (SFcompare_defined a b Ha Hb) as [c ->]. destruct c; simpl; easy.
Qed.

Lemma SFopp_le_of_nonneg (m : float) : nonneg m = true -> SFleb (SFopp m) m = true.
Proof.
  unfold SFleb. destruct m as [s|s| |s mm e]; simpl; try easy; destruct s; easy.
Qed.

Lemma isNaN_SFopp (x : float) : isNaN (SFopp x) = isNaN x.
Proof. now destruct x. Qed.

(** A rounded result carries the sign it was given. *)
Lemma binary_round_aux_sign (sx : bool) (mx ex : Z) (lx : location) :
  match binary_round_aux prec emax sx mx ex lx with
  | S754_zero s | S754_infinity s | S754_finite s _ _ => s = sx
  | S754_nan => True
  end.
Proof.
  unfold binary_round_aux.
  destruct (shr_fexp prec emax mx ex lx) as [mrs' e'].
  destruct (shr_fexp prec emax _ e' loc_Exact) as [mrs'' e''].
  destruct (shr_m mrs''); [reflexivity| |exact I].
  destruct (e'' <=? emax - prec)%Z; reflexivity.
Qed.

Lemma round_nonneg (mx ex : Z) (lx : location) :
  isNaN (binary_round_aux prec emax false mx ex lx) = true
  \/ nonneg (binary_round_aux prec emax false mx ex lx) = true.
Proof.
  pose proof (binary_round_aux_sign false mx ex lx) as H.
  destruct (binary_round_aux prec emax false mx ex lx); simpl; subst; auto.
Qed.

Lemma b64_sqrt_nonneg (x : float) :
  isNaN (b64_sqrt x) = true \/ nonneg (b64_sqrt x) = true.
Proof.
  unfold b64_sqrt, SFsqrt. destruct x as [s|s| |s m e]; simpl; auto.
  - destruct s; simpl; auto.
  - destruct s; simpl; auto.
    destruct (SFsqrt_core_binary prec emax (Z.pos m) e) as [[mz ez] lz].
    apply round_nonneg.
Qed.

Lemma b64_mul_nonneg (a b : float) :
  nonneg a = true -> nonneg b = true ->
  isNaN (b64_mul a b) = true \/ nonneg (b64_mul a b) = true.
Proof.
  unfold b64_mul, SFmul.
  destruct a as [sa|sa| |sa ma ea], b as [sb|sb| |sb mb eb]; simpl;
    try destruct sa; try destruct sb; simpl; auto; try discriminate.
  intros _ _. apply round_nonneg.
Qed.

Lemma b64_min_cases (a b : float) :
  isNaN a = false -> isNaN b = false ->
  (b64_min a b = a \/ b64_min a b = b) /\
  SFleb (b64_min a b) a = true /\ SFleb (b64_min a b) b = true.
Proof.
  intros Ha Hb. unfold b64_min. rewrite Ha, Hb. simpl.
  destruct (SFltb a b) eqn:Hab.
  - auto using SFleb_refl, SFltb_SFleb.
  - destruct (SFltb b a) eqn:Hba.
    + auto using SFleb_refl, SFltb_SFleb.
    + destruct (SFltb_neither a b Ha Hb Hab Hba) as [H1 H2].
      destruct a as [[]|sa| |sa ma ea]; auto using SFleb_refl.
Qed.

Lemma b64_max_cases (a b : float) :
  isNaN a = false -> isNaN b = false ->
  (b64_max a b = a \/ b64_max a b = b) /\
  SFleb a (b64_max a b) = true /\ SFleb b (b64_max a b) = true.
Proof.
  intros Ha Hb. unfold b64_max. rewrite Ha, Hb. simpl.
  destruct (SFltb a b) eqn:Hab.
  - auto using SFleb_refl, SFltb_SFleb.
  - destruct (SFltb b a) eqn:Hba.
    + auto using SFleb_refl, SFltb_SFleb.
    + destruct (SFltb_neither a b Ha Hb Hab Hba) as [H1 H2].
      destruct a as [[]|sa| |sa ma ea]; auto using SFleb_refl.
Qed.

(** Clamping to a bound [0 <= m]: the result is NaN exactly when the clamped
    value is, and lies within [±m] otherwise. *)
Lemma clamp_within (m c : float) :
  nonneg m = true ->
  isNaN (b64_max (SFopp m) (b64_min m c)) = isNaN c /\
  (isNaN c = false -> within (b64_max (SFopp m) (b64_min m c)) m = true).
Proof.
  intros Hm.
  assert (Hn : isNaN m = false) by (destruct m as [| | |[]]; easy).
  destruct (isNaN c) eqn:Hc.
  - split; [|discriminate]. destruct c; try discriminate.
    unfold b64_min, b64_max. simpl. now rewrite orb_true_r, orb_true_r.
  - destruct (b64_min_cases m c Hn Hc) as (Hmin & Hle1 & _).
    assert (Hminn : isNaN (b64_min m c) = false) by (destruct Hmin as [-> | ->]; assumption).
    assert (Hon : isNaN (SFopp m) = false) by now rewrite isNaN_SFopp.
    destruct (b64_max_cases (SFopp m) (b64_min m c) Hon Hminn) as (Hmax & Hge & _).
    split.
    + destruct Hmax as [-> | ->]; assumption.
    + intros _. unfold within. rewrite Hge. simpl.
      destruct Hmax as [-> | ->]; [now apply SFopp_le_of_nonneg | assumption].
Qed.

End Binary64Facts.

(** ** Binary64: integers and zero *)

Section Binary64Integers.

Import Binary64 Binary64Facts.

Lemma digits2_pos_lower (m : positive) :
  (2 ^ (Z.pos (digits2_pos m) - 1) <= Z.pos m)%Z.
Proof.
  induction m as [m IH|m IH|]; cbn [digits2_pos].
  - rewrite Pos2Z.inj_succ. replace (Z.succ (Z.pos (digits2_pos m)) - 1)%Z
      with (Z.succ (Z.pos (digits2_pos m) - 1)) by lia.
    rewrite Z.pow_succ_r by lia. lia.
  - rewrite Pos2Z.inj_succ. replace (Z.succ (Z.pos (digits2_pos m)) - 1)%Z
      with (Z.succ (Z.pos (digits2_pos m) - 1)) by lia.
    rewrite Z.pow_succ_r by lia. lia.
  - simpl. lia.
Qed.

Lemma shr_1_m (mrs : shr_record) :
  (0 <= shr_m mrs)%Z -> shr_m (shr_1 mrs) = Z.shiftr (shr_m mrs) 1.
Proof.
  destruct mrs as [m r s]. rewrite <- Z.div2_spec.
  destruct m as [|[p|p|]|p]; simpl; intros H; try reflexivity; lia.
Qed.

(** Shifting a mantissa right [p] times divides it by [2 ^ p]. *)
Lemma iter_shr_1_m (p : positive) (mrs : shr_record) :
  (0 <= shr_m mrs)%Z ->
  shr_m (SpecFloat.iter_pos shr_1 p mrs) = Z.shiftr (shr_m mrs) (Z.pos p).
Proof.
  revert mrs; induction p as [p IH|p IH|]; intros mrs Hm; cbn [SpecFloat.iter_pos].
  - assert (H1 : (0 <= shr_m (shr_1 mrs))%Z)
      by (rewrite shr_1_m by assumption; now apply Z.shiftr_nonneg).
    assert (H2 : (0 <= shr_m (SpecFloat.iter_pos shr_1 p (shr_1 mrs)))%Z)
      by (rewrite IH by assumption; now apply Z.shiftr_nonneg).
    rewrite IH, IH, shr_1_m by assumption.
    rewrite !Z.shiftr_shiftr by lia. f_equal. lia.
  - assert (H2 : (0 <= shr_m (SpecFloat.iter_pos shr_1 p mrs))%Z)
      by (rewrite IH by assumption; now apply Z.shiftr_nonneg).
    rewrite IH, IH by assumption.
    rewrite !Z.shiftr_shiftr by lia. f_equal. lia.
  - now apply shr_1_m.
Qed.

(** Bringing a positive mantissa to its binary64 exponent leaves it
    positive, when its exponent is not below the least one. *)
Lemma shr_fexp_positive (m e : Z) (l : location) :
  (0 < m)%Z -> (emin prec emax <= e)%Z ->
  (0 < shr_m (fst (shr_fexp prec emax m e l)))%Z
  /\ (emin prec emax <= snd (shr_fexp prec emax m e l))%Z.
Proof.
  intros Hm He. unfold shr_fexp, shr.
  assert (Hrec : shr_m (shr_record_of_loc m l) = m) by (destruct l as [|[]]; reflexivity).
  destruct (fexp prec emax (Zdigits2 m + e) - e)%Z as [|p|p] eqn:Hn;
    cbn [fst snd]; rewrite ?Hrec; try (split; assumption).
  destruct m as [|mp|mp]; try lia. cbn [Zdigits2] in Hn.
  unfold fexp in Hn.
  assert (Hp : (Z.pos p = Z.pos (digits2_pos mp) - prec)%Z) by lia.
  split; [|lia].
  rewrite iter_shr_1_m by (rewrite Hrec; lia). rewrite Hrec.
  rewrite Z.shiftr_div_pow2 by lia.
  apply Z.div_str_pos. split; [apply Z.pow_pos_nonneg; lia|].
  pose proof (digits2_pos_lower mp) as Hd.
  apply Z.le_trans with (2 ^ (Z.pos (digits2_pos mp) - 1))%Z; [|exact Hd].
  apply Z.pow_le_mono_r; [lia|]. unfold prec in Hp. lia.
Qed.

Lemma round_nearest_even_ge (m : Z) (l : location) : (m <= round_nearest_even m l)%Z.
Proof.
  unfold round_nearest_even. destruct l as [|[]]; try lia. destruct (Z.even m); lia.
Qed.

(** Rounding a positive mantissa gives a number that is neither zero nor
    NaN. *)
Lemma binary_round_aux_positive (sx : bool) (m e : Z) (l : location) :
  (0 < m)%Z -> (emin prec emax <= e)%Z ->
  match binary_round_aux prec emax sx m e l with
  | S754_finite _ _ _ | S754_infinity _ => True
  | _ => False
  end.
Proof.
  intros Hm He. unfold binary_round_aux.
  destruct (shr_fexp_positive m e l Hm He) as [H1 H1e].
  destruct (shr_fexp prec emax m e l) as [mrs' e']. cbn [fst snd] in H1, H1e.
  pose proof (round_nearest_even_ge (shr_m mrs') (loc_of_shr_record mrs')) as Hr.
  destruct (shr_fexp_positive (round_nearest_even (shr_m mrs') (loc_of_shr_record mrs'))
              e' loc_Exact) as [H2 _]; [lia | assumption |].
  destruct (shr_fexp prec emax _ e' loc_Exact) as [mrs'' e'']. cbn [fst] in H2.
  destruct (shr_m mrs''); try lia.
  now destruct (e'' <=? emax - prec)%Z.
Qed.

Lemma b64_ofZ_nonzero (z : Z) :
  z <> 0%Z ->
  match b64_ofZ z with
  | S754_finite _ _ _ | S754_infinity _ => True
  | _ => False
  end.
Proof.
  intros Hz. unfold b64_ofZ, binary_normalize.
  assert (Hround : forall sx mx,
             match binary_round prec emax sx mx 0 with
             | S754_finite _ _ _ | S754_infinity _ => True
             | _ => False
             end).
  { intros sx mx. unfold binary_round, shl_align.
    assert (Hf : (emin prec emax <= fexp prec emax (Z.pos (digits2_pos mx) + 0))%Z)
      by (unfold fexp; lia).
    destruct (fexp prec emax (Z.pos (digits2_pos mx) + 0) - 0)%Z eqn:Hd;
      apply binary_round_aux_positive; try lia; unfold emin, prec, emax; lia. }
  destruct z as [|p|p]; [contradiction | apply Hround | apply Hround].
Qed.

Lemma SFeqb_zero (x : float) :
  SFeqb x (b64_ofZ 0) = true -> exists s, x = S754_zero s.
Proof.
  unfold SFeqb. destruct x as [s|s| |s m e]; simpl; intros H; try discriminate; eauto.
  - destruct s; discriminate.
  - destruct s; discriminate.
Qed.

(** Zero divided by a non-zero integer is zero. *)
Lemma b64_div_zero_ofZ (s : bool) (z : Z) :
  z <> 0%Z -> SFeqb (b64_div (S754_zero s) (b64_ofZ z)) (b64_ofZ 0) = true.
Proof.
  intros Hz. pose proof (b64_ofZ_nonzero z Hz) as H.
  destruct (b64_ofZ z); try contradiction; reflexivity.
Qed.

Variable mathExp : float -> float.

Local Abbreviation NUM := (binary64 mathExp).

(** C5. For every price sequence and every period other than 0: when the
    sum of the trailing day-over-day losses is zero, the average loss is
    zero and [calculateRSI] returns exactly 70 (not 100). *)
Theorem calculateRSI_no_losses_is_70 (prices : list float) (period : Z) :
  period <> 0%Z ->
  SFeqb (sum (NUM := NUM) (rsiLosses (NUM := NUM) (rsiChanges (NUM := NUM) prices period)))
        (b64_ofZ 0) = true ->
  calculateRSI (NUM := NUM) prices period = b64_ofZ 70
  /\ SFeqb (calculateRSI (NUM := NUM) prices period) (b64_ofZ 100) = false.
Proof.
  intros Hp Hsum. apply SFeqb_zero in Hsum. destruct Hsum as [s Hs].
  unfold calculateRSI. rewrite Hs. cbn [div seq zero ofZ binary64].
  rewrite (b64_div_zero_ofZ s period Hp). split; reflexivity.
Qed.

End Binary64Integers.

(** ** Binary64: rounding *)

Section Binary64Rounding.

Import Binary64 Binary64Facts.

Lemma shr_1_spec (m : Z) (r s : bool) :
  (0 <= m)%Z ->
  shr_1 (Build_shr_record m r s) = Build_shr_record (m / 2) (Z.odd m) (r || s).
Proof.
  intros Hm. rewrite <- Z.div2_div.
  destruct m as [|[p|p|]|p]; try lia; reflexivity.
Qed.

Lemma shifted_step (M n : Z) (mrs : shr_record) :
  (0 <= n)%Z -> shifted M n mrs -> shifted M (n + 1) (shr_1 mrs).
Proof.
  intros Hn (rem & Hm & HM & Hrem & Hr & Hs).
  destruct mrs as [m r s]. cbn [shr_m shr_r shr_s] in *.
  rewrite shr_1_spec by assumption.
  assert (Hpow : (2 ^ (n + 1) = 2 * 2 ^ n)%Z) by (rewrite Z.pow_add_r by lia; lia).
  assert (Hp : (0 < 2 ^ n)%Z) by (apply Z.pow_pos_nonneg; lia).
  pose proof (Z.div_mod m 2 ltac:(lia)) as Hdm.
  pose proof (Z.mod_pos_bound m 2 ltac:(lia)) as Hmb.
  assert (Hodd : Z.odd m = (m mod 2 =? 1)%Z).
  { rewrite Zmod_odd. destruct (Z.odd m); reflexivity. }
  exists (m mod 2 * 2 ^ n + rem)%Z. cbn [shr_m shr_r shr_s].
  split; [apply Z.div_pos; lia|]. split; [rewrite Hpow; nia|]. split; [rewrite Hpow; nia|].
  rewrite Hpow, Hodd, Hr, Hs.
  assert (Hcase : (m mod 2 = 0 \/ m mod 2 = 1)%Z) by lia.
  destruct Hcase as [H0|H1].
  - rewrite H0. split.
    + symmetry. apply Z.leb_gt. lia.
    + destruct (Z.eqb_spec rem 0); destruct (Z.eqb_spec (2 * rem) (2 ^ n));
        destruct (Z.leb_spec (2 ^ n) (2 * rem));
        destruct (Z.eqb_spec (0 * 2 ^ n + rem) 0);
        destruct (Z.eqb_spec (2 * (0 * 2 ^ n + rem)) (2 * 2 ^ n)); simpl; try reflexivity; lia.
  - rewrite H1. split.
    + symmetry. apply Z.leb_le. lia.
    + destruct (Z.eqb_spec rem 0); destruct (Z.eqb_spec (2 * rem) (2 ^ n));
        destruct (Z.leb_spec (2 ^ n) (2 * rem));
        destruct (Z.eqb_spec (1 * 2 ^ n + rem) 0);
        destruct (Z.eqb_spec (2 * (1 * 2 ^ n + rem)) (2 * 2 ^ n)); simpl; try reflexivity; lia.
Qed.

Lemma shifted_iter (p : positive) (M n : Z) (mrs : shr_record) :
  (0 <= n)%Z -> shifted M n mrs -> shifted M (n + Z.pos p) (SpecFloat.iter_pos shr_1 p mrs).
Proof.
  revert n mrs; induction p as [p IH|p IH|]; intros n mrs Hn H; cbn [SpecFloat.iter_pos].
  - replace (n + Z.pos p~1)%Z with (n + 1 + Z.pos p + Z.pos p)%Z by lia.
    apply IH; [lia|]. apply IH; [lia|]. now apply shifted_step.
  - replace (n + Z.pos p~0)%Z with (n + Z.pos p + Z.pos p)%Z by lia.
    apply IH; [lia|]. now apply IH.
  - now apply shifted_step.
Qed.

Lemma shifted_start (M : Z) : (0 <= M)%Z -> shifted M 0 (shr_record_of_loc M loc_Exact).
Proof.
  intros HM. exists 0%Z. cbn. repeat split; lia.
Qed.

(** Rounding to nearest after [p] right shifts: the result is the quotient or
    its successor, whichever is within half of [2 ^ p] of [M]. *)
Lemma round_after_shift (M : Z) (p : positive) :
  (0 <= M)%Z ->
  exists q rem : Z,
    M = (q * 2 ^ Z.pos p + rem)%Z /\ (0 <= rem < 2 ^ Z.pos p)%Z /\ (0 <= q)%Z
    /\ shr_m (SpecFloat.iter_pos shr_1 p (shr_record_of_loc M loc_Exact)) = q
    /\ let Q := round_nearest_even q
                  (loc_of_shr_record
                     (SpecFloat.iter_pos shr_1 p (shr_record_of_loc M loc_Exact))) in
       (Q = q /\ (2 * rem <= 2 ^ Z.pos p)%Z)
       \/ (Q = (q + 1)%Z /\ (2 ^ Z.pos p <= 2 * rem)%Z).
Proof.
  intros HM.
  destruct (shifted_iter p M 0 _ (Z.le_refl 0) (shifted_start M HM))
    as (rem & Hm & HMeq & Hrem & Hr & Hs).
  rewrite Z.add_0_l in *.
  destruct (SpecFloat.iter_pos shr_1 p (shr_record_of_loc M loc_Exact)) as [q r s].
  cbn [shr_m shr_r shr_s] in *.
  exists q, rem. repeat split; try assumption; try lia.
  cbn zeta. unfold loc_of_shr_record, round_nearest_even.
  destruct (Z.leb_spec (2 ^ Z.pos p) (2 * rem)); destruct (Z.eqb_spec rem 0);
    destruct (Z.eqb_spec (2 * rem) (2 ^ Z.pos p)); subst r s;
    cbn [negb andb]; cbv beta iota;
    try (left; split; [reflexivity | lia]);
    try (right; split; [reflexivity | lia]).
  all: destruct (Z.even q); [left | right]; split; try reflexivity; lia.
Qed.

Lemma digits2_pos_upper (m : positive) : (Z.pos m < 2 ^ Z.pos (digits2_pos m))%Z.
Proof.
  induction m as [m IH|m IH|]; cbn [digits2_pos].
  - rewrite Pos2Z.inj_succ, Z.pow_succ_r by lia. lia.
  - rewrite Pos2Z.inj_succ, Z.pow_succ_r by lia. lia.
  - simpl. lia.
Qed.

Lemma Zdigits2_of_bounds (x d : Z) :
  (2 ^ (d - 1) <= x < 2 ^ d)%Z -> (0 < d)%Z -> Zdigits2 x = d.
Proof.
  intros [Hlo Hhi] Hd.
  assert (Hx : (0 < x)%Z).
  { apply Z.lt_le_trans with (2 ^ (d - 1))%Z; [apply Z.pow_pos_nonneg; lia | assumption]. }
  destruct x as [|p|p]; try lia. cbn [Zdigits2].
  pose proof (digits2_pos_lower p) as Hl. pose proof (digits2_pos_upper p) as Hu.
  set (D := Z.pos (digits2_pos p)) in *.
  destruct (Z.lt_trichotomy D d) as [Hlt|[Heq|Hgt]]; [exfalso|assumption|exfalso].
  - assert (2 ^ D <= 2 ^ (d - 1))%Z by (apply Z.pow_le_mono_r; lia). lia.
  - assert (2 ^ d <= 2 ^ (D - 1))%Z by (apply Z.pow_le_mono_r; lia). lia.
Qed.

Lemma loc_of_shr_record_of_loc (m : Z) (l : location) :
  loc_of_shr_record (shr_record_of_loc m l) = l.
Proof. now destruct l as [|[]]. Qed.

Lemma shr_m_of_loc (m : Z) (l : location) : shr_m (shr_record_of_loc m l) = m.
Proof. now destruct l as [|[]]. Qed.

(** A mantissa of 53 digits at an exponent in range is not shifted. *)
Lemma shr_fexp_53 (q e : Z) (l : location) :
  (2 ^ 52 <= q < 2 ^ 53)%Z -> (emin prec emax <= e)%Z ->
  shr_fexp prec emax q e l = (shr_record_of_loc q l, e).
Proof.
  intros Hq He. unfold shr_fexp.
  rewrite (Zdigits2_of_bounds q 53) by (change (53 - 1)%Z with 52%Z; lia).
  unfold fexp. replace (Z.max (53 + e - prec) (emin prec emax) - e)%Z with 0%Z
    by (unfold prec in *; lia).
  reflexivity.
Qed.

(** Rounding a mantissa of 53 digits, with no carry and no overflow. *)
Lemma binary_round_aux_53 (sx : bool) (q e : Z) (l : location) :
  (2 ^ 52 <= q)%Z -> (round_nearest_even q l < 2 ^ 53)%Z ->
  (emin prec emax <= e <= emax - prec)%Z ->
  binary_round_aux prec emax sx q e l
  = S754_finite sx (Z.to_pos (round_nearest_even q l)) e.
Proof.
  intros Hq HQ He. pose proof (round_nearest_even_ge q l) as Hge.
  unfold binary_round_aux.
  rewrite shr_fexp_53 by lia.
  rewrite shr_m_of_loc, loc_of_shr_record_of_loc.
  rewrite shr_fexp_53 by lia. rewrite shr_m_of_loc.
  destruct (round_nearest_even q l) as [|Q|Q] eqn:HQe; try lia.
  replace (e <=? emax - prec)%Z with true by (symmetry; apply Z.leb_le; lia).
  reflexivity.
Qed.

(** Rounding a mantissa of [53 + p] digits: [p] digits are shifted out. *)
Lemma binary_round_aux_long (sx : bool) (M e : Z) (p : positive) :
  (2 ^ (52 + Z.pos p) <= M < 2 ^ (53 + Z.pos p))%Z ->
  (2 * M + 2 ^ Z.pos p < 2 ^ (54 + Z.pos p))%Z ->
  (emin prec emax <= e + Z.pos p <= emax - prec)%Z ->
  exists Q t : Z,
    binary_round_aux prec emax sx M e loc_Exact = S754_finite sx (Z.to_pos Q) (e + Z.pos p)
    /\ (2 ^ 52 <= Q < 2 ^ 53)%Z
    /\ (Q * 2 ^ Z.pos p = M + t)%Z
    /\ (- 2 ^ Z.pos p <= 2 * t <= 2 ^ Z.pos p)%Z
    /\ (M mod 2 ^ Z.pos p = 0 -> t = 0)%Z.
Proof.
  intros HM Hcarry He.
  assert (Hpp : (0 < 2 ^ Z.pos p)%Z) by (apply Z.pow_pos_nonneg; lia).
  assert (H52 : (2 ^ (52 + Z.pos p) = 2 ^ 52 * 2 ^ Z.pos p)%Z) by (apply Z.pow_add_r; lia).
  assert (H53 : (2 ^ (53 + Z.pos p) = 2 ^ 53 * 2 ^ Z.pos p)%Z) by (apply Z.pow_add_r; lia).
  assert (H54 : (2 ^ (54 + Z.pos p) = 2 ^ 54 * 2 ^ Z.pos p)%Z) by (apply Z.pow_add_r; lia).
  destruct (round_after_shift M p ltac:(lia)) as (q & rem & HMeq & Hrem & Hq0 & Hq & Hround).
  cbn zeta in Hround.
  unfold binary_round_aux. unfold shr_fexp at 1.
  rewrite (Zdigits2_of_bounds M (53 + Z.pos p))
    by (replace (53 + Z.pos p - 1)%Z with (52 + Z.pos p)%Z by lia; lia).
  unfold fexp. replace (Z.max (53 + Z.pos p + e - prec) (emin prec emax) - e)%Z
    with (Z.pos p) by (unfold prec in *; lia).
  cbn [shr]. rewrite Hq.
  set (Q := round_nearest_even q _) in *.
  assert (Hqlo : (2 ^ 52 <= q)%Z) by nia.
  assert (HQ : (2 ^ 52 <= Q < 2 ^ 53)%Z) by (destruct Hround as [[-> ?]|[-> ?]]; nia).
  rewrite shr_fexp_53 by lia. rewrite shr_m_of_loc.
  destruct Q as [|Qp|Qp] eqn:HQe; try lia.
  replace (e + Z.pos p <=? emax - prec)%Z with true by (symmetry; apply Z.leb_le; lia).
  exists (Z.pos Qp), (Z.pos Qp * 2 ^ Z.pos p - M)%Z.
  split; [reflexivity|]. split; [lia|]. split; [lia|].
  split.
  - destruct Hround as [[-> ?]|[-> ?]]; nia.
  - intros Hmod.
    assert (rem = 0)%Z.
    { rewrite HMeq in Hmod. rewrite Z.add_comm, Z.mod_add in Hmod by lia.
      rewrite Z.mod_small in Hmod by lia. exact Hmod. }
    destruct Hround as [[-> ?]|[-> ?]]; nia.
Qed.

(** The square root of a rounded square: [Q * 2 ^ n] is within half of
    [2 ^ n] of [m * m], and its correctly rounded square root is [m]. *)
Lemma sqrt_of_rounded_square (m Q t e : Z) (p : positive) :
  (2 ^ 52 <= m < 2 ^ 53)%Z -> (2 ^ 52 <= Q < 2 ^ 53)%Z ->
  (Z.pos p = 52 \/ Z.pos p = 53 /\ 2 ^ 52 < m)%Z ->
  (Q * 2 ^ Z.pos p = m * m + t)%Z ->
  (- 2 ^ Z.pos p <= 2 * t <= 2 ^ Z.pos p)%Z ->
  (t < 0 -> 2 ^ 52 < m)%Z ->
  (-563 <= e <= 459)%Z ->
  b64_sqrt (S754_finite false (Z.to_pos Q) (e + e + Z.pos p))
  = S754_finite false (Z.to_pos m) e.
Proof.
  intros Hm HQ Hp HQt Ht Hneg He.
  assert (Hpp : (2 ^ Z.pos p = 2 ^ 52 \/ 2 ^ Z.pos p = 2 ^ 53 /\ 2 ^ 52 < m)%Z)
    by (destruct Hp as [-> | [-> ?]]; auto).
  unfold b64_sqrt, SFsqrt, SFsqrt_core_binary.
  rewrite Z2Pos.id by lia.
  rewrite (Zdigits2_of_bounds Q 53) by (change (53 - 1)%Z with 52%Z; lia).
  assert (He' : Z.min (fexp prec emax (Z.div2 (53 + (e + e + Z.pos p) + 1)))
                      (Z.div2 (e + e + Z.pos p)) = e).
  { rewrite !Z.div2_div. unfold fexp, emin, prec, emax.
    clear - Hp He. destruct Hp as [-> | [-> _]]; Z.div_mod_to_equations; lia. }
  rewrite He'.
  replace (e + e + Z.pos p - 2 * e)%Z with (Z.pos p) by lia.
  rewrite Z.shiftl_mul_pow2 by lia. rewrite HQt.
  pose proof (Z.sqrtrem_spec (m * m + t) ltac:(nia)) as Hs.
  destruct (Z.sqrtrem (m * m + t)) as [q r]. destruct Hs as [Hqr Hr].
  assert (Hq0 : (0 <= q)%Z) by lia.
  destruct (Z.lt_ge_cases t 0) as [Htneg|Htpos].
  - specialize (Hneg Htneg).
    assert (q = m - 1)%Z by nia. subst q.
    assert (Hrq : (m - 1 < r)%Z) by nia.
    replace (r =? 0)%Z with false by (symmetry; apply Z.eqb_neq; lia).
    replace (r <=? m - 1)%Z with false by (symmetry; apply Z.leb_gt; lia).
    rewrite binary_round_aux_53; cbn [round_nearest_even];
      try (unfold emin, prec, emax; lia).
    do 2 f_equal. lia.
  - assert (q = m)%Z by nia. subst q.
    assert (Hrq : (r <= m)%Z) by nia.
    destruct (Z.eqb_spec r 0) as [Hr0|Hr0].
    + rewrite binary_round_aux_53; cbn [round_nearest_even];
        try (unfold emin, prec, emax; lia). reflexivity.
    + replace (r <=? m)%Z with true by (symmetry; apply Z.leb_le; lia).
      rewrite binary_round_aux_53; cbn [round_nearest_even];
        try (unfold emin, prec, emax; lia). reflexivity.
Qed.

(** For a positive normal number [v] with [2^-511 <= v < 2^512], the
    square root of the rounded square of [v] is [v]. *)
Theorem b64_sqrt_mul_self (m : positive) (e : Z) :
  Z.pos (digits2_pos m) = 53%Z -> (-563 <= e <= 459)%Z ->
  b64_sqrt (b64_mul (S754_finite false m e) (S754_finite false m e))
  = S754_finite false m e.
Proof.
  intros Hd He.
  pose proof (digits2_pos_lower m) as Hlo. pose proof (digits2_pos_upper m) as Hhi.
  rewrite Hd in Hlo, Hhi. change (53 - 1)%Z with 52%Z in Hlo.
  unfold b64_mul, SFmul. cbn [xorb]. rewrite Pos2Z.inj_mul.
  set (M := (Z.pos m * Z.pos m)%Z).
  assert (HMlo : (2 ^ 104 <= M)%Z) by (unfold M; nia).
  assert (HMhi : (M <= (2 ^ 53 - 1) * (2 ^ 53 - 1))%Z) by (unfold M; nia).
  destruct (Z.lt_ge_cases M (2 ^ 105)) as [Hsmall|Hlarge].
  - assert (Hm0 : (Z.pos m <= 6369051672525772)%Z) by (unfold M in Hsmall; nia).
    assert (HM0 : (M <= 6369051672525772 * 6369051672525772)%Z) by (unfold M; nia).
    destruct (binary_round_aux_long false M (e + e) 52) as (Q & t & -> & HQ & HQt & Ht & Hex).
    + change (52 + 52)%Z with 104%Z. change (53 + 52)%Z with 105%Z. lia.
    + change (54 + 52)%Z with 106%Z. lia.
    + unfold emin, prec, emax. lia.
    + assert (Hneg : (t < 0 -> 2 ^ 52 < Z.pos m)%Z).
      { intros Htneg. destruct (Z.eq_dec (Z.pos m) (2 ^ 52)) as [Heq|Hne]; [|lia].
        exfalso. assert (t = 0)%Z; [|lia]. apply Hex. unfold M. rewrite Heq.
        reflexivity. }
      rewrite (sqrt_of_rounded_square (Z.pos m) Q t e 52);
        try assumption; try lia; reflexivity.
  - destruct (binary_round_aux_long false M (e + e) 53) as (Q & t & -> & HQ & HQt & Ht & Hex).
    + change (52 + 53)%Z with 105%Z. change (53 + 53)%Z with 106%Z. lia.
    + change (54 + 53)%Z with 107%Z. lia.
    + unfold emin, prec, emax. lia.
    + assert (Hm52 : (2 ^ 52 < Z.pos m)%Z) by (unfold M in Hlarge; nia).
      rewrite (sqrt_of_rounded_square (Z.pos m) Q t e 53);
        try assumption; try lia; reflexivity.
Qed.

End Binary64Rounding.

(** ** Binary64: the range of the relative strength index *)

Section Binary64RSI.

Import Binary64 Binary64Facts.

Lemma round_nearest_even_cases (m : Z) (l : location) :
  round_nearest_even m l = m \/ round_nearest_even m l = (m + 1)%Z.
Proof.
  unfold round_nearest_even. destruct l as [|[]]; auto. destruct (Z.even m); auto.
Qed.

Lemma fexp_spec (k : Z) : fexp prec emax k = Z.max (k - 53) (-1074).
Proof. reflexivity. Qed.

(** The quotient of a number of [d] digits by [2 ^ n]. *)
Lemma Zdigits2_bounds (M : Z) :
  (0 < M)%Z -> (2 ^ (Zdigits2 M - 1) <= M < 2 ^ Zdigits2 M)%Z /\ (0 < Zdigits2 M)%Z.
Proof.
  intros HM. destruct M as [|p|p]; try lia. cbn [Zdigits2].
  pose proof (digits2_pos_lower p). pose proof (digits2_pos_upper p). lia.
Qed.

(** What [shr] leaves of a mantissa. *)
Lemma shr_m_shr (M e n : Z) (l : location) :
  (0 <= M)%Z -> (0 <= n)%Z ->
  shr_m (fst (shr (shr_record_of_loc M l) e n)) = (M / 2 ^ n)%Z
  /\ snd (shr (shr_record_of_loc M l) e n) = (e + n)%Z.
Proof.
  intros HM Hn. unfold shr. destruct n as [|p|p]; try lia; cbn [fst snd].
  - rewrite shr_m_of_loc, Z.div_1_r. lia.
  - rewrite iter_shr_1_m by (rewrite shr_m_of_loc; lia).
    rewrite shr_m_of_loc, Z.shiftr_div_pow2 by lia. lia.
Qed.

(** The cases of rounding a positive mantissa [M] at exponent [e] that is
    not above its binary64 exponent [e1]: with [Q] the quotient of [M] by
    [2 ^ (e1 - e)] or its successor, the result is zero when [Q] is 0, [Q]
    at [e1] when [Q] has at most 53 digits, and [2 ^ 52] at [e1 + 1]
    otherwise, or an infinity when that exponent is above the largest. *)
Lemma binary_round_aux_cases (sx : bool) (M e : Z) (l : location) :
  (0 < M)%Z -> (e <= fexp prec emax (Zdigits2 M + e))%Z ->
  exists Q : Z,
    Q = round_nearest_even (M / 2 ^ (fexp prec emax (Zdigits2 M + e) - e))
          (loc_of_shr_record
             (fst (shr (shr_record_of_loc M l) e (fexp prec emax (Zdigits2 M + e) - e))))
    /\ (0 <= Q <= 2 ^ 53)%Z
    /\ (-1074 < fexp prec emax (Zdigits2 M + e) -> 2 ^ 52 <= Q)%Z
    /\ binary_round_aux prec emax sx M e l
       = if (Q =? 0)%Z then S754_zero sx
         else if (Q <? 2 ^ 53)%Z
              then if (fexp prec emax (Zdigits2 M + e) <=? emax - prec)%Z
                   then S754_finite sx (Z.to_pos Q) (fexp prec emax (Zdigits2 M + e))
                   else S754_infinity sx
              else if (fexp prec emax (Zdigits2 M + e) + 1 <=? emax - prec)%Z
                   then S754_finite sx (Z.to_pos (2 ^ 52))
                                    (fexp prec emax (Zdigits2 M + e) + 1)
                   else S754_infinity sx.
Proof.
  intros HM Hn.
  destruct (Zdigits2_bounds M HM) as [[Hlo Hhi] Hd].
  set (d := Zdigits2 M) in *. set (e1 := fexp prec emax (d + e)) in *.
  set (n := (e1 - e)%Z).
  assert (Hn0 : (0 <= n)%Z) by (unfold n; lia).
  assert (He1 : e1 = Z.max (d + e - 53) (-1074)) by reflexivity.
  destruct (shr_m_shr M e n l ltac:(lia) Hn0) as [Hm Hsnd].
  unfold binary_round_aux, shr_fexp at 1. fold d. fold e1. fold n.
  destruct (shr (shr_record_of_loc M l) e n) as [mrs' e'] eqn:Hshr.
  cbn [fst snd] in Hm, Hsnd. subst e'.
  replace (e + n)%Z with e1 by (unfold n; lia).
  set (q0 := (M / 2 ^ n)%Z) in *.
  assert (Hpn : (0 < 2 ^ n)%Z) by (apply Z.pow_pos_nonneg; lia).
  assert (Hq0 : (0 <= q0)%Z) by (apply Z.div_pos; lia).
  (* the quotient has at most 53 digits, and exactly 53 above the least exponent *)
  assert (Hq0hi : (q0 < 2 ^ 53)%Z).
  { apply Z.div_lt_upper_bound; [lia|].
    apply Z.lt_le_trans with (2 ^ d)%Z; [lia|].
    rewrite <- Z.pow_add_r by lia. apply Z.pow_le_mono_r; lia. }
  assert (Hq0lo : (-1074 < e1 -> 2 ^ 52 <= q0)%Z).
  { intros Hnorm. assert (Hnd : (n = d - 53)%Z) by (unfold n; lia).
    apply Z.div_le_lower_bound; [lia|].
    apply Z.le_trans with (2 ^ (d - 1))%Z; [|lia].
    rewrite <- Z.pow_add_r by lia. apply Z.pow_le_mono_r; lia. }
  rewrite Hm.
  set (Q := round_nearest_even q0 (loc_of_shr_record mrs')).
  assert (HQ : (Q = q0 \/ Q = q0 + 1)%Z) by apply round_nearest_even_cases.
  exists Q. split; [reflexivity|]. split; [lia|].
  split; [intros Hnorm; specialize (Hq0lo Hnorm); lia|].
  destruct (Z.eqb_spec Q 0) as [HQ0|HQ0].
  - (* the rounded mantissa is 0 *)
    rewrite HQ0. unfold shr_fexp. cbn [Zdigits2 shr_record_of_loc].
    assert (Hz : forall k, shr_m (fst (shr (Build_shr_record 0 false false) e1 k)) = 0%Z).
    { intros k. unfold shr. destruct k as [|p|p]; cbn [fst]; try reflexivity.
      rewrite iter_shr_1_m by (cbn; lia). apply Z.shiftr_0_l. }
    specialize (Hz (fexp prec emax (0 + e1) - e1)%Z).
    destruct (shr _ e1 _) as [mrs'' e'']. cbn [fst] in Hz. now rewrite Hz.
  - destruct (Z.ltb_spec Q (2 ^ 53)) as [Hlt|Hge].
    + (* at most 53 digits: no second shift *)
      assert (HdQ : (0 < Zdigits2 Q <= 53)%Z /\ (-1074 < e1 -> Zdigits2 Q = 53)%Z).
      { destruct (Zdigits2_bounds Q ltac:(lia)) as [[HQlo HQhi] HQd]. split.
        - split; [lia|]. destruct (Z.le_gt_cases (Zdigits2 Q) 53); [assumption|].
          assert (2 ^ 53 <= 2 ^ (Zdigits2 Q - 1))%Z by (apply Z.pow_le_mono_r; lia). lia.
        - intros Hnorm. specialize (Hq0lo Hnorm).
          apply Zdigits2_of_bounds; [change (53 - 1)%Z with 52%Z; lia | lia]. }
      destruct HdQ as [HdQ HdQn].
      unfold shr_fexp.
      replace (fexp prec emax (Zdigits2 Q + e1) - e1)%Z with 0%Z
        by (rewrite fexp_spec; destruct (Z.eq_dec e1 (-1074)); [lia | rewrite HdQn; lia]).
      cbn [shr]. rewrite shr_m_of_loc.
      destruct Q as [|Qp|Qp]; try lia. reflexivity.
    + (* a carry: the mantissa is 2 ^ 53 *)
      assert (HQe : Q = (2 ^ 53)%Z) by lia.
      rewrite HQe. unfold shr_fexp.
      change (Zdigits2 (2 ^ 53)) with 54%Z.
      replace (fexp prec emax (54 + e1) - e1)%Z with 1%Z by (rewrite fexp_spec; lia).
      reflexivity.
Qed.

(** ** Aligned mantissas *)

Lemma Pos_iter_xO (m d : positive) : Z.pos (Pos.iter xO m d) = (Z.pos m * 2 ^ Z.pos d)%Z.
Proof.
  induction d as [|d IH] using Pos.peano_ind.
  - cbn [Pos.iter]. lia.
  - rewrite Pos.iter_succ, Pos2Z.inj_succ, Z.pow_succ_r by lia.
    rewrite Pos2Z.inj_xO, IH. lia.
Qed.

Lemma shl_align_value (m : positive) (e e' : Z) :
  (e' <= e)%Z ->
  Z.pos (fst (shl_align m e e')) = (Z.pos m * 2 ^ (e - e'))%Z
  /\ snd (shl_align m e e') = e'.
Proof.
  intros He. unfold shl_align.
  destruct (e' - e)%Z as [|k|k] eqn:Hk; cbn [fst snd]; try lia.
  - replace (e - e')%Z with 0%Z by lia. split; lia.
  - rewrite Pos_iter_xO. replace (e - e')%Z with (Z.pos k) by lia. split; reflexivity.
Qed.

Lemma shl_align_above (m : positive) (e e' : Z) :
  (e <= e')%Z -> shl_align m e e' = (m, e).
Proof.
  intros He. unfold shl_align. destruct (e' - e)%Z eqn:Hk; try reflexivity. lia.
Qed.

Lemma Zdigits2_53 (Q : Z) : (2 ^ 52 <= Q < 2 ^ 53)%Z -> Z.pos (digits2_pos (Z.to_pos Q)) = 53%Z.
Proof.
  intros HQ. pose proof (Zdigits2_of_bounds Q 53) as H.
  change (53 - 1)%Z with 52%Z in H. specialize (H HQ ltac:(lia)).
  destruct Q as [|Qp|Qp]; try lia. exact H.
Qed.

Lemma pow2_lt_digits (k M : Z) : (0 <= k)%Z -> (2 ^ k <= M)%Z -> (k < Zdigits2 M)%Z.
Proof.
  intros Hk HM.
  assert (0 < M)%Z by (pose proof (Z.pow_pos_nonneg 2 k); lia).
  destruct (Zdigits2_bounds M ltac:(assumption)) as [[_ Hhi] Hd].
  apply (Z.pow_lt_mono_r_iff 2); try lia.
Qed.

(** Adding 1 to [+0], to a positive number or to [+infinity] gives at least
    1. *)
Lemma add_one_pos0 (rs : float) :
  pos0 rs = true ->
  isNaN (b64_add (b64_ofZ 1) rs) = true \/ atLeastOne (b64_add (b64_ofZ 1) rs) = true.
Proof.
  destruct rs as [[|]|[|]| |[|] mr er]; try discriminate; intros _;
    try (right; reflexivity).
  change (b64_ofZ 1) with (S754_finite false 4503599627370496 (-52)).
  unfold b64_add, SFadd. cbn [cond_Zopp].
  set (ez := Z.min (-52) er).
  destruct (shl_align_value 4503599627370496 (-52) ez ltac:(unfold ez; lia)) as [HA _].
  destruct (shl_align_value mr er ez ltac:(unfold ez; lia)) as [HB _].
  set (A := fst (shl_align 4503599627370496 (-52) ez)) in *.
  set (B := fst (shl_align mr er ez)) in *.
  change (Z.pos A + Z.pos B)%Z with (Z.pos (A + B)).
  cbn [binary_normalize]. unfold binary_round.
  assert (HS : (2 ^ (- ez) <= Z.pos (A + B))%Z).
  { rewrite Pos2Z.inj_add, HA. change (Z.pos 4503599627370496) with (2 ^ 52)%Z.
    rewrite <- Z.pow_add_r by (unfold ez; lia).
    replace (52 + (-52 - ez))%Z with (- ez)%Z by lia. lia. }
  pose proof (pow2_lt_digits (- ez) (Z.pos (A + B)) ltac:(unfold ez; lia) HS) as Hd.
  cbn [Zdigits2] in Hd.
  assert (He1 : (-52 <= fexp prec emax (Z.pos (digits2_pos (A + B)) + ez))%Z)
    by (rewrite fexp_spec; lia).
  rewrite shl_align_above by (unfold ez in *; lia).
  destruct (binary_round_aux_cases false (Z.pos (A + B)) ez loc_Exact ltac:(lia)
              ltac:(cbn [Zdigits2]; unfold ez in *; lia))
    as (Q & _ & HQ & HQlo & ->).
  cbn [Zdigits2] in *. specialize (HQlo ltac:(lia)).
  set (e1 := fexp prec emax (Z.pos (digits2_pos (A + B)) + ez)) in *.
  right. replace (Q =? 0)%Z with false by (symmetry; apply Z.eqb_neq; lia).
  destruct (Z.ltb_spec Q (2 ^ 53)); [destruct (Z.leb_spec e1 (emax - prec))
                                    | destruct (Z.leb_spec (e1 + 1) (emax - prec))];
    try reflexivity; cbn [atLeastOne].
  - rewrite Zdigits2_53 by lia.
    replace (-52 <=? e1)%Z with true by (symmetry; apply Z.leb_le; lia).
    replace (e1 <=? 971)%Z with true by (symmetry; apply Z.leb_le; unfold emax, prec in *; lia).
    reflexivity.
  - replace (-52 <=? e1 + 1)%Z with true by (symmetry; apply Z.leb_le; lia).
    replace (e1 + 1 <=? 971)%Z with true
      by (symmetry; apply Z.leb_le; unfold emax, prec in *; lia).
    reflexivity.
Qed.

Lemma upTo100_intro (m : positive) (e : Z) :
  (e < -46 /\ Z.pos m < 2 ^ 53 \/ e = -46 /\ Z.pos m <= 100 * 2 ^ 46)%Z ->
  upTo100 (S754_finite false m e) = true.
Proof.
  intros H. cbn [upTo100]. apply orb_true_iff.
  destruct H as [[He Hm]|[He Hm]]; [left | right]; apply andb_true_iff; split.
  - now apply Z.ltb_lt.
  - now apply Z.ltb_lt.
  - now apply Z.eqb_eq.
  - now apply Z.leb_le.
Qed.

(** The last step of a rounding whose exponent stays at [-46] or below and
    whose mantissa stays at that of 100 or below at [-46]. *)
Lemma rounded_upTo100 (Q e1 : Z) :
  (0 <= Q <= 2 ^ 53)%Z -> (e1 <= -46)%Z -> (e1 = -46 -> Q <= 100 * 2 ^ 46)%Z ->
  upTo100
    (if (Q =? 0)%Z then S754_zero false
     else if (Q <? 2 ^ 53)%Z
          then if (e1 <=? emax - prec)%Z
               then S754_finite false (Z.to_pos Q) e1 else S754_infinity false
          else if (e1 + 1 <=? emax - prec)%Z
               then S754_finite false (Z.to_pos (2 ^ 52)) (e1 + 1)
               else S754_infinity false) = true.
Proof.
  intros HQ He Hm.
  destruct (Z.eqb_spec Q 0); [reflexivity|].
  destruct (Z.ltb_spec Q (2 ^ 53)).
  - replace (e1 <=? emax - prec)%Z with true
      by (symmetry; apply Z.leb_le; unfold emax, prec; lia).
    apply upTo100_intro. rewrite Z2Pos.id by lia. lia.
  - assert (e1 <> -46)%Z by (intros E; specialize (Hm E); lia).
    replace (e1 + 1 <=? emax - prec)%Z with true
      by (symmetry; apply Z.leb_le; unfold emax, prec; lia).
    apply upTo100_intro. change (Z.pos (Z.to_pos (2 ^ 52))) with (2 ^ 52)%Z. lia.
Qed.

(** 100 divided by a number that is at least 1 is at most 100. *)
Lemma div_100_atLeastOne (y : float) :
  atLeastOne y = true -> upTo100 (b64_div (b64_ofZ 100) y) = true.
Proof.
  destruct y as [[|]|[|]| |[|] my ey]; try discriminate; [reflexivity|].
  cbn [atLeastOne]. intros H.
  apply andb_prop in H. destruct H as [H He2]. apply andb_prop in H. destruct H as [Hd He1].
  apply Z.eqb_eq in Hd. apply Z.leb_le in He1, He2.
  pose proof (digits2_pos_lower my) as Hlo. pose proof (digits2_pos_upper my) as Hhi.
  rewrite Hd in Hlo, Hhi. change (53 - 1)%Z with 52%Z in Hlo.
  change (b64_ofZ 100) with (S754_finite false 7036874417766400 (-46)).
  unfold b64_div, SFdiv, SFdiv_core_binary. cbn [Zdigits2 xorb]. rewrite Hd.
  change (Z.pos (digits2_pos 7036874417766400)) with 53%Z.
  replace (Z.min (fexp prec emax (53 + -46 - (53 + ey))) (-46 - ey))%Z with (-99 - ey)%Z
    by (rewrite fexp_spec; lia).
  replace (-46 - ey - (-99 - ey))%Z with 53%Z by lia.
  cbv beta iota. rewrite Z.shiftl_mul_pow2 by lia.
  set (m' := (Z.pos 7036874417766400 * 2 ^ 53)%Z).
  pose proof (Z.div_eucl_eq m' (Z.pos my) ltac:(lia)) as Heq.
  pose proof (Z.mod_pos_bound m' (Z.pos my) ltac:(lia)) as Hr.
  unfold Z.modulo in Hr.
  destruct (Z.div_eucl m' (Z.pos my)) as [qq r].
  assert (Hqq : (2 ^ 52 <= qq <= 2 * (100 * 2 ^ 46))%Z) by (unfold m' in Heq; nia).
  assert (Hqq0 : (qq = 2 * (100 * 2 ^ 46) -> Z.pos my = 2 ^ 52 /\ r = 0)%Z)
    by (unfold m' in Heq; nia).
  destruct (Zdigits2_bounds qq ltac:(lia)) as [[Hqlo Hqhi] Hqd].
  assert (Hdq : (Zdigits2 qq = 53 \/ Zdigits2 qq = 54)%Z).
  { assert (52 < Zdigits2 qq)%Z by (apply pow2_lt_digits; lia).
    destruct (Z.le_gt_cases (Zdigits2 qq) 54); [lia|].
    assert (2 ^ 54 <= 2 ^ (Zdigits2 qq - 1))%Z by (apply Z.pow_le_mono_r; lia). lia. }
  destruct (binary_round_aux_cases false qq (-99 - ey) (new_location (Z.pos my) r)
              ltac:(lia) ltac:(rewrite fexp_spec; lia))
    as (Q & HQdef & HQ & _ & ->).
  apply rounded_upTo100; [assumption | rewrite fexp_spec; lia |].
  rewrite fexp_spec. intros He46.
  assert (Hey : ey = (-52)%Z /\ Zdigits2 qq = 54%Z) by lia. destruct Hey as [-> Hd54].
  rewrite Hd54 in HQdef. rewrite fexp_spec in HQdef.
  change (Z.max (54 + (-99 - -52) - 53) (-1074) - (-99 - -52))%Z with 1%Z in HQdef.
  destruct (Z.eq_dec qq (2 * (100 * 2 ^ 46))) as [Hmax|Hnmax].
  - destruct (Hqq0 Hmax) as [Hmy ->]. rewrite Hmy, Hmax in HQdef. rewrite HQdef.
    vm_compute. discriminate.
  - assert (qq / 2 ^ 1 <= 100 * 2 ^ 46 - 1)%Z
      by (change (2 ^ 1)%Z with 2%Z; Z.div_mod_to_equations; lia).
    pose proof (round_nearest_even_cases (qq / 2 ^ 1)
                  (loc_of_shr_record
                     (fst (shr (shr_record_of_loc qq (new_location (Z.pos my) r))
                               (-99 - -52) 1)))) as Hc.
    rewrite <- HQdef in Hc. lia.
Qed.

Lemma digits_le_of_lt_pow2 (M k : Z) : (0 < M < 2 ^ k)%Z -> (0 <= k)%Z -> (Zdigits2 M <= k)%Z.
Proof.
  intros HM Hk. destruct (Zdigits2_bounds M ltac:(lia)) as [[Hlo _] Hd].
  assert (Zdigits2 M - 1 < k)%Z by (apply (Z.pow_lt_mono_r_iff 2); lia). lia.
Qed.

Lemma Zdigits2_shift (M k : Z) :
  (0 < M)%Z -> (0 <= k)%Z -> Zdigits2 (M * 2 ^ k) = (Zdigits2 M + k)%Z.
Proof.
  intros HM Hk. destruct (Zdigits2_bounds M HM) as [[Hlo Hhi] Hd].
  assert (Hp : (0 < 2 ^ k)%Z) by (apply Z.pow_pos_nonneg; lia).
  apply Zdigits2_of_bounds; [|lia].
  replace (Zdigits2 M + k - 1)%Z with (Zdigits2 M - 1 + k)%Z by lia.
  rewrite !Z.pow_add_r by lia. nia.
Qed.

(** 100 minus a number between 0 and 100 is between 0 and 100. *)
Lemma sub_100_upTo100 (q : float) :
  upTo100 q = true -> upTo100 (b64_sub (b64_ofZ 100) q) = true.
Proof.
  destruct q as [[|]|[|]| |[|] m e]; try discriminate; [reflexivity|].
  cbn [upTo100]. intros H.
  assert (Hq : (e < -46 /\ Z.pos m < 2 ^ 53 \/ e = -46 /\ Z.pos m <= 100 * 2 ^ 46)%Z).
  { apply orb_true_iff in H. destruct H as [H|H]; apply andb_true_iff in H;
      destruct H as [H1 H2]; [left | right].
    - apply Z.ltb_lt in H1, H2. lia.
    - apply Z.eqb_eq in H1. apply Z.leb_le in H2. lia. }
  clear H.
  change (b64_ofZ 100) with (S754_finite false 7036874417766400 (-46)).
  unfold b64_sub, SFsub. cbn [cond_Zopp].
  replace (Z.min (-46) e) with e by lia.
  destruct (shl_align_value 7036874417766400 (-46) e ltac:(lia)) as [HA _].
  destruct (shl_align_value m e e ltac:(lia)) as [HB _].
  rewrite HA, HB. replace (e - e)%Z with 0%Z by lia.
  change (Z.pos 7036874417766400) with (100 * 2 ^ 46)%Z.
  set (n := (-46 - e)%Z). assert (Hn : (0 <= n)%Z) by (unfold n; lia).
  assert (Hpn : (0 < 2 ^ n)%Z) by (apply Z.pow_pos_nonneg; lia).
  set (D := (100 * 2 ^ 46 * 2 ^ n - Z.pos m * 2 ^ 0)%Z).
  assert (HD : (0 <= D < 100 * 2 ^ 46 * 2 ^ n)%Z).
  { unfold D. change (2 ^ 0)%Z with 1%Z. split; [|lia].
    destruct Hq as [[He Hm]|[He Hm]].
    - assert (2 ^ 1 <= 2 ^ n)%Z by (apply Z.pow_le_mono_r; unfold n; lia).
      change (2 ^ 1)%Z with 2%Z in *. nia.
    - replace n with 0%Z by (unfold n; lia). change (2 ^ 0)%Z with 1%Z. lia. }
  destruct D as [|Dp|Dp] eqn:HDe; [reflexivity| |lia].
  cbn [binary_normalize]. unfold binary_round.
  assert (HDk : (Z.pos Dp < 2 ^ (7 - e))%Z).
  { replace (7 - e)%Z with (53 + n)%Z by (unfold n; lia).
    rewrite Z.pow_add_r by lia. lia. }
  pose proof (digits_le_of_lt_pow2 (Z.pos Dp) (7 - e) ltac:(lia) ltac:(lia)) as Hdig.
  cbn [Zdigits2] in Hdig.
  set (f := fexp prec emax (Z.pos (digits2_pos Dp) + e)) in *.
  assert (Hf : (f = Z.max (Z.pos (digits2_pos Dp) + e - 53) (-1074))%Z) by reflexivity.
  destruct (Z.lt_ge_cases f e) as [Hlt|Hge].
  - (* the difference is short: it is shifted left, and exact *)
    destruct (shl_align_value Dp e f ltac:(lia)) as [HM HE].
    destruct (shl_align Dp e f) as [M' E']. cbn [fst snd] in HM, HE. subst E'.
    assert (Hdig' : Zdigits2 (Z.pos M') = (Z.pos (digits2_pos Dp) + (e - f))%Z).
    { rewrite HM. apply (Zdigits2_shift (Z.pos Dp)); lia. }
    destruct (binary_round_aux_cases false (Z.pos M') f loc_Exact ltac:(lia)
                ltac:(rewrite Hdig', fexp_spec; lia))
      as (Q & _ & HQ & _ & ->).
    rewrite Hdig'.
    replace (fexp prec emax (Z.pos (digits2_pos Dp) + (e - f) + f)) with f
      by (unfold f; f_equal; lia).
    apply rounded_upTo100; [assumption | lia | lia].
  - (* the difference is rounded *)
    rewrite shl_align_above by lia.
    destruct (binary_round_aux_cases false (Z.pos Dp) e loc_Exact ltac:(lia)
                ltac:(cbn [Zdigits2]; fold f; lia))
      as (Q & HQdef & HQ & _ & ->).
    cbn [Zdigits2] in *. fold f in HQdef |- *.
    apply rounded_upTo100; [assumption | lia |].
    intros Hf46.
    assert (Hfn : (f - e = n)%Z) by (unfold n; lia). rewrite Hfn in HQdef.
    assert (Z.pos Dp / 2 ^ n < 100 * 2 ^ 46)%Z by (apply Z.div_lt_upper_bound; lia).
    pose proof (round_nearest_even_cases (Z.pos Dp / 2 ^ n)
                  (loc_of_shr_record
                     (fst (shr (shr_record_of_loc (Z.pos Dp) loc_Exact) e n)))) as Hc.
    rewrite <- HQdef in Hc. lia.
Qed.

Lemma round_pos0 (m e : Z) (l : location) :
  isNaN (binary_round_aux prec emax false m e l) = true
  \/ pos0 (binary_round_aux prec emax false m e l) = true.
Proof.
  pose proof (binary_round_aux_sign false m e l) as H.
  destruct (binary_round_aux prec emax false m e l); cbn [isNaN pos0]; subst; auto.
Qed.

Lemma binary_round_pos0 (m : positive) (e : Z) :
  isNaN (binary_round prec emax false m e) = true
  \/ pos0 (binary_round prec emax false m e) = true.
Proof.
  unfold binary_round. destruct (shl_align m e _) as [mz ez]. apply round_pos0.
Qed.


Lemma b64_add_pos0 (a b : float) :
  pos0 a = true -> pos0 b = true ->
  isNaN (b64_add a b) = true \/ pos0 (b64_add a b) = true.
Proof.
  destruct a as [[|]|[|]| |[|] ma ea]; try discriminate;
    destruct b as [[|]|[|]| |[|] mb eb]; try discriminate;
    intros _ _.
  1-8: right; reflexivity.
  unfold b64_add, SFadd. cbn [cond_Zopp].
  change (Z.pos (fst (shl_align ma ea (Z.min ea eb)))
          + Z.pos (fst (shl_align mb eb (Z.min ea eb))))%Z
    with (Z.pos (fst (shl_align ma ea (Z.min ea eb)) + fst (shl_align mb eb (Z.min ea eb)))).
  cbn [binary_normalize]. apply binary_round_pos0.
Qed.

Lemma b64_div_pos0 (a b : float) :
  pos0 a = true -> pos0 b = true ->
  isNaN (b64_div a b) = true \/ pos0 (b64_div a b) = true.
Proof.
  destruct a as [[|]|[|]| |[|] ma ea]; try discriminate;
    destruct b as [[|]|[|]| |[|] mb eb]; try discriminate;
    intros _ _.
  1-8: cbn [b64_div SFdiv xorb isNaN pos0]; auto.
  unfold b64_div, SFdiv. cbn [xorb].
  destruct (SFdiv_core_binary prec emax (Z.pos ma) ea (Z.pos mb) eb) as [[mz ez] lz].
  apply round_pos0.
Qed.

Lemma b64_ofZ_pos0 (z : Z) : (0 < z)%Z -> pos0 (b64_ofZ z) = true.
Proof.
  intros Hz. pose proof (b64_ofZ_nonzero z ltac:(lia)) as Hn.
  destruct z as [|p|p]; try lia. unfold b64_ofZ, binary_normalize in *.
  destruct (binary_round_pos0 p 0) as [H|H]; [|exact H].
  destruct (binary_round prec emax false p 0); try discriminate; contradiction.
Qed.
Lemma sum_pos0 (l : list float) (acc : float) :
  Forall (fun x => pos0 x = true) l ->
  isNaN acc = true \/ pos0 acc = true ->
  isNaN (fold_left b64_add l acc) = true \/ pos0 (fold_left b64_add l acc) = true.
Proof.
  revert acc; induction l as [|x l IH]; intros acc Hl Hacc; [exact Hacc|].
  inversion Hl as [|? ? Hx Hrest]; subst. cbn [fold_left]. apply IH; [assumption|].
  destruct Hacc as [Hacc|Hacc].
  - left. destruct acc; try discriminate. reflexivity.
  - now apply b64_add_pos0.
Qed.

Variable mathExp : float -> float.

Local Abbreviation NUM := (binary64 mathExp).


Lemma rsiGains_pos0 (changes : list float) :
  Forall (fun x => pos0 x = true) (rsiGains (NUM := NUM) changes).
Proof.
  unfold rsiGains. apply Forall_forall. intros g Hg. apply in_map_iff in Hg.
  destruct Hg as (c & <- & _). cbn [lt zero ofZ binary64].
  destruct c as [[|]|[|]| |[|] m e]; reflexivity.
Qed.

Lemma rsiLosses_pos0 (changes : list float) :
  Forall (fun x => pos0 x = true) (rsiLosses (NUM := NUM) changes).
Proof.
  unfold rsiLosses. apply Forall_forall. intros g Hg. apply in_map_iff in Hg.
  destruct Hg as (c & <- & _). cbn [lt neg zero ofZ binary64].
  destruct c as [[|]|[|]| |[|] m e]; reflexivity.
Qed.
Lemma compare_cont_Eq (p q : positive) : Pos.compare_cont Eq p q = (p ?= q)%positive.
Proof. reflexivity. Qed.

Lemma upTo100_range (r : float) :
  upTo100 r = true -> SFleb (b64_ofZ 0) r = true /\ SFleb r (b64_ofZ 100) = true.
Proof.
  destruct r as [[|]|[|]| |[|] m e]; try discriminate; [split; reflexivity|].
  cbn [upTo100]. intros H. split; [reflexivity|].
  change (b64_ofZ 100) with (S754_finite false 7036874417766400 (-46)).
  unfold SFleb, SFcompare.
  apply orb_true_iff in H. destruct H as [H|H]; apply andb_true_iff in H; destruct H as [H1 H2].
  - apply Z.ltb_lt in H1. apply Z.compare_lt_iff in H1. now rewrite H1.
  - apply Z.eqb_eq in H1. subst e. apply Z.leb_le in H2.
    rewrite Z.compare_refl.
    assert (H3 : (Z.pos m <= 7036874417766400)%Z) by lia.
    destruct (Pos.compare_cont Eq m 7036874417766400) eqn:E; try reflexivity.
    rewrite compare_cont_Eq, Pos2Z.inj_compare in E. apply Z.compare_gt_iff in E. lia.
Qed.

(** C10 (amended). In binary64, for every price sequence and every positive
    period, [calculateRSI] returns the fixed value 70 or the rounded
    [100 - 100 / (1 + rs)] for some [rs] that is NaN, [+0], positive or
    [+infinity]; the value returned is NaN or a number of the closed
    interval [0, 100]. *)
Theorem calculateRSI_within_0_100 (prices : list float) (period : Z) :
  (0 < period)%Z ->
  (calculateRSI (NUM := NUM) prices period = b64_ofZ 70
   \/ exists rs : float,
        (isNaN rs = true \/ pos0 rs = true)
        /\ calculateRSI (NUM := NUM) prices period
           = b64_sub (b64_ofZ 100) (b64_div (b64_ofZ 100) (b64_add (b64_ofZ 1) rs)))
  /\ (isNaN (calculateRSI (NUM := NUM) prices period) = true
      \/ (SFleb (b64_ofZ 0) (calculateRSI (NUM := NUM) prices period) = true
          /\ SFleb (calculateRSI (NUM := NUM) prices period) (b64_ofZ 100) = true)).
Proof.
  intros Hp. unfold calculateRSI. cbn [div add sub seq ofZ binary64].
  unfold sum. cbn [add zero one ofZ binary64].
  set (changes := rsiChanges prices period).
  pose proof (sum_pos0 _ (b64_ofZ 0) (rsiGains_pos0 changes) (or_intror eq_refl)) as Hg.
  pose proof (sum_pos0 _ (b64_ofZ 0) (rsiLosses_pos0 changes) (or_intror eq_refl)) as Hl.
  set (g := fold_left b64_add (rsiGains changes) (b64_ofZ 0)) in *.
  set (l := fold_left b64_add (rsiLosses changes) (b64_ofZ 0)) in *.
  pose proof (b64_ofZ_pos0 period Hp) as HP.
  destruct (SFeqb (b64_div l (b64_ofZ period)) (b64_ofZ 0)).
  { split; [left; reflexivity | right; split; reflexivity]. }
  assert (Hag : isNaN (b64_div g (b64_ofZ period)) = true
                \/ pos0 (b64_div g (b64_ofZ period)) = true).
  { destruct Hg as [Hg|Hg]; [left; destruct g; try discriminate; reflexivity|].
    now apply b64_div_pos0. }
  assert (Hal : isNaN (b64_div l (b64_ofZ period)) = true
                \/ pos0 (b64_div l (b64_ofZ period)) = true).
  { destruct Hl as [Hl|Hl]; [left; destruct l; try discriminate; reflexivity|].
    now apply b64_div_pos0. }
  set (ag := b64_div g (b64_ofZ period)) in *.
  set (al := b64_div l (b64_ofZ period)) in *.
  assert (Hrs : isNaN (b64_div ag al) = true \/ pos0 (b64_div ag al) = true).
  { destruct Hag as [Hag|Hag]; [left; destruct ag; try discriminate; reflexivity|].
    destruct Hal as [Hal|Hal];
      [left; destruct al; try discriminate; destruct ag; reflexivity|].
    now apply b64_div_pos0. }
  set (rs := b64_div ag al) in *.
  split; [right; exists rs; split; [exact Hrs | reflexivity]|].
  destruct Hrs as [Hrs|Hrs].
  - left. destruct rs; try discriminate. reflexivity.
  - destruct (add_one_pos0 rs Hrs) as [Hy|Hy].
    + left. destruct (b64_add (b64_ofZ 1) rs); try discriminate. reflexivity.
    + right. apply upTo100_range, sub_100_upTo100, div_100_atLeastOne, Hy.
Qed.

End Binary64RSI.

(** ** Binary64: the clamp of the forecast loop *)

Section Binary64Clamp.

Import Binary64 Binary64Facts.

Variable mathExp : float -> float.

Local Abbreviation NUM := (binary64 mathExp).

Lemma calculateVolatility_nonneg (prices : list float) (window : Z) :
  isNaN (calculateVolatility (NUM := NUM) prices window) = true
  \/ nonneg (calculateVolatility (NUM := NUM) prices window) = true.
Proof. unfold calculateVolatility. apply b64_sqrt_nonneg. Qed.

Lemma maxChange_nonneg (s : Snapshot) :
  isNaN (volatility s) = true \/ nonneg (volatility s) = true ->
  isNaN (maxChange (NUM := NUM) s) = true \/ nonneg (maxChange (NUM := NUM) s) = true.
Proof.
  intros Hv. unfold maxChange. cbn [nmin mul lit ofZ binary64].
  assert (Hw : isNaN (b64_mul (volatility s) (b64_ofZ 2)) = true
               \/ nonneg (b64_mul (volatility s) (b64_ofZ 2)) = true).
  { destruct Hv as [Hv|Hv].
    - left. destruct (volatility s); try discriminate. reflexivity.
    - apply b64_mul_nonneg; [assumption | reflexivity]. }
  destruct Hw as [Hw|Hw].
  - left. unfold b64_min. rewrite Hw. now rewrite orb_true_r.
  - assert (Hn : isNaN (b64_mul (volatility s) (b64_ofZ 2)) = false)
      by (destruct (b64_mul (volatility s) (b64_ofZ 2)) as [| | |[]]; easy).
    right. destruct (b64_min_cases (b64_lit 1 10) (b64_mul (volatility s) (b64_ofZ 2))
                       eq_refl Hn) as ([-> | ->] & _); [reflexivity | assumption].
Qed.

(** The clamped change is NaN exactly when the bound or the change is, and
    lies within the bound otherwise. *)
Lemma boundedChange_within (s : Snapshot) (currentPrice : float) (i : Z) (u : float) :
  isNaN (volatility s) = true \/ nonneg (volatility s) = true ->
  isNaN (boundedChange (NUM := NUM) s currentPrice i u)
  = isNaN (maxChange (NUM := NUM) s) || isNaN (change (NUM := NUM) s currentPrice i u)
  /\ (isNaN (boundedChange (NUM := NUM) s currentPrice i u) = false ->
      within (boundedChange (NUM := NUM) s currentPrice i u) (maxChange (NUM := NUM) s) = true).
Proof.
  intros Hv. unfold boundedChange. cbn [nmax nmin neg binary64].
  pose proof (maxChange_nonneg s Hv) as Hm. revert Hm.
  generalize (change (NUM := NUM) s currentPrice i u) as c.
  generalize (maxChange (NUM := NUM) s) as m. intros m c [Hm|Hm].
  - destruct m; try discriminate. split; [reflexivity | discriminate].
  - assert (Hn : isNaN m = false) by (destruct m as [| | |[]]; easy).
    rewrite Hn. simpl.
    destruct (clamp_within m c Hm) as [H1 H2].
    split; [exact H1|]. intros Hb. apply H2. now rewrite <- H1.
Qed.

End Binary64Clamp.

(** ** Binary64: the forecast *)

Section Binary64Forecast.

Import Binary64 Binary64Facts Runs.

Variable mathExp : float -> float.

Local Abbreviation NUM := (binary64 mathExp).

(** C4 (amended). With at least 50 target prices and at least 2 reference
    prices, at every step [k + 1] of the forecast and for every value of the
    random draws: the bound is [min(0.1, volatility * 2)] for the volatility
    computed once from the 50 most recent prices; the running price is the
    previous running price times [1 + b], where the clamped change [b] is NaN
    when the bound or the change before clamping is NaN and lies within the
    bound otherwise; and the price returned for the step is the running price
    rounded to 2 decimals. *)
Theorem running_price_change_within_maxChange
    (draws : nat -> float) (targetPrices spyPrices : list float)
    (correlatedStocksPrices : list (list float)) (N : Z) (k : nat) :
  (50 <= length targetPrices)%nat ->
  (2 <= length spyPrices)%nat ->
  (Z.of_nat k < N)%Z ->
  let recent := sliceFrom targetPrices (-50) in
  let s := snapshot (NUM := NUM) recent spyPrices in
  let p := runningPrice (NUM := NUM) draws s (lastOf (NUM := NUM) recent) in
  let b := boundedChange (NUM := NUM) s (p k) (Z.of_nat (S k)) (draws k) in
  maxChange (NUM := NUM) s
    = b64_min (b64_lit 1 10)
              (b64_mul (calculateVolatility (NUM := NUM) recent 20) (b64_ofZ 2))
  /\ p (S k) = b64_mul (p k) (b64_add (b64_ofZ 1) b)
  /\ isNaN b = isNaN (maxChange (NUM := NUM) s)
               || isNaN (change (NUM := NUM) s (p k) (Z.of_nat (S k)) (draws k))
  /\ (isNaN b = false -> within b (maxChange (NUM := NUM) s) = true)
  /\ nth_error (predictFuturePrices (NUM := NUM) draws targetPrices spyPrices
                                    correlatedStocksPrices N) k
     = Some (b64_toFixed2 (p (S k))).
Proof.
  intros Hlen Hspy Hk recent s p b.
  destruct (boundedChange_within mathExp s (p k) (Z.of_nat (S k)) (draws k))
    as [HNaN Hin].
  { apply calculateVolatility_nonneg. }
  repeat split; try assumption.
  exact (predictFuturePrices_nth (NUM := NUM) draws targetPrices spyPrices
           correlatedStocksPrices N k Hlen Hk).
Qed.

End Binary64Forecast.

(** ** Binary64: degenerate denominators *)

Section Binary64Degenerate.

Import Binary64 Binary64Facts Runs.

Variable mathExp : float -> float.

Local Abbreviation NUM := (binary64 mathExp).

Lemma b64_mul_nan_r (x : float) : b64_mul x S754_nan = S754_nan.
Proof. now destruct x. Qed.

Lemma b64_add_nan_r (x : float) : b64_add x S754_nan = S754_nan.
Proof. now destruct x. Qed.

Lemma b64_min_nan_r (x : float) : b64_min x S754_nan = S754_nan.
Proof. unfold b64_min. now rewrite orb_true_r. Qed.

Lemma b64_max_nan_r (x : float) : b64_max x S754_nan = S754_nan.
Proof. unfold b64_max. now rewrite orb_true_r. Qed.

(** A NaN correlation makes the next running price NaN, whatever the
    current price, the step and the draw are. *)
Lemma nextPrice_nan_correlation (s : Snapshot) (currentPrice : float) (i : Z) (u : float) :
  correlation s = S754_nan ->
  nextPrice (NUM := NUM) s currentPrice i u = S754_nan.
Proof.
  intros Hc.
  unfold nextPrice, boundedChange, change, totalReturn, expectedReturn, marketInfluence.
  rewrite Hc. cbn [add mul nmin nmax binary64].
  rewrite b64_mul_nan_r. cbn [b64_mul SFmul b64_add SFadd].
  rewrite b64_add_nan_r. cbn [b64_mul SFmul b64_add SFadd].
  rewrite b64_min_nan_r, b64_max_nan_r, b64_add_nan_r, b64_mul_nan_r. reflexivity.
Qed.

(** When the correlation of the two return series is NaN (a series without
    variance divides zero by zero), every predicted price is NaN. *)
Theorem nan_correlation_makes_every_price_nan
    (draws : nat -> float) (targetPrices spyPrices : list float)
    (correlatedStocksPrices : list (list float)) (daysToPredict : Z) :
  (50 <= length targetPrices)%nat ->
  correlation (snapshot (NUM := NUM) (sliceFrom targetPrices (-50)) spyPrices) = S754_nan ->
  predictFuturePrices (NUM := NUM) draws targetPrices spyPrices
                      correlatedStocksPrices daysToPredict
  = repeat S754_nan (Z.to_nat daysToPredict).
Proof.
  intros Hlen Hc. rewrite predictFuturePrices_unfold by assumption.
  generalize (Z.to_nat daysToPredict) as n. intros n.
  generalize 0%nat as c. induction n as [|n IH]; intros c; [reflexivity|].
  cbn [List.seq map repeat]. rewrite IH. f_equal.
  cbn [runningPrice]. now rewrite nextPrice_nan_correlation.
Qed.

(** The loop of [calculateCorrelation] on a sequence paired with itself
    keeps its three accumulators equal. *)
Lemma correlation_loop_self (x : list float) (mu : float) (idxs : list nat) (a : float) :
  exists v : float,
    fold_left (correlationStep (NUM := NUM) x x mu mu) idxs (a, a, a) = (v, v, v).
Proof.
  revert a; induction idxs as [|i idxs IH]; intros a; [now exists a|].
  cbn [fold_left]. unfold correlationStep at 2. apply IH.
Qed.

(** A finite number divided by itself is 1. *)
Lemma b64_div_self (s : bool) (m : positive) (e : Z) :
  b64_div (S754_finite s m e) (S754_finite s m e) = b64_ofZ 1.
Proof.
  unfold b64_div, SFdiv, SFdiv_core_binary.
  replace (Zdigits2 (Z.pos m) + e - (Zdigits2 (Z.pos m) + e))%Z with 0%Z by lia.
  replace (e - e)%Z with 0%Z by lia.
  change (Z.min (fexp prec emax 0) 0) with (-53)%Z.
  change (0 - -53)%Z with 53%Z. cbv beta iota zeta.
  assert (Hdiv : Z.div_eucl (Z.shiftl (Z.pos m) 53) (Z.pos m) = (2 ^ 53, 0)%Z).
  { pose proof (Z.div_eucl_eq (Z.shiftl (Z.pos m) 53) (Z.pos m) ltac:(lia)) as Heq.
    pose proof (Z.mod_pos_bound (Z.shiftl (Z.pos m) 53) (Z.pos m) ltac:(lia)) as Hb.
    unfold Z.modulo in Hb.
    destruct (Z.div_eucl (Z.shiftl (Z.pos m) 53) (Z.pos m)) as [q r].
    rewrite Z.shiftl_mul_pow2 in Heq by lia.
    assert (q = 2 ^ 53)%Z by nia. subst q. f_equal. lia. }
  rewrite Hdiv.
  replace (new_location (Z.pos m) 0) with loc_Exact
    by (unfold new_location, new_location_even, new_location_odd;
        now destruct (Z.even (Z.pos m))).
  now destruct s.
Qed.

Lemma calculateCorrelation_self_unfold (x : list float) :
  (2 <= length x)%nat ->
  calculateCorrelation (NUM := NUM) x x
  = b64_div (squaredDeviations (NUM := NUM) x)
            (b64_sqrt (b64_mul (squaredDeviations (NUM := NUM) x)
                               (squaredDeviations (NUM := NUM) x))).
Proof.
  intros Hlen. unfold calculateCorrelation, squaredDeviations. rewrite Nat.min_id.
  replace (length x <? 2)%nat with false by (symmetry; apply Nat.ltb_ge; lia).
  destruct (correlation_loop_self x
              (div (Number := NUM) (sum (NUM := NUM) x)
                   (ofZ (Number := NUM) (Z.of_nat (length x))))
              (List.seq 0 (length x)) (zero (NUM := NUM))) as [v ->].
  reflexivity.
Qed.

(** C7 (amended). In binary64, for every sequence [x] of at least 2 entries
    for which the sum [v] of squared deviations that the loop accumulates is
    a positive normal number with [2^-511 <= v < 2^512],
    [calculateCorrelation x x] is exactly 1: the three accumulators are equal,
    the square root of the rounded [v * v] is [v], and [v / v] is 1. *)
Theorem calculateCorrelation_self_is_1 (x : list float) :
  (2 <= length x)%nat ->
  inSquareRange (squaredDeviations (NUM := NUM) x) = true ->
  calculateCorrelation (NUM := NUM) x x = b64_ofZ 1.
Proof.
  intros Hlen Hv. rewrite calculateCorrelation_self_unfold by assumption.
  destruct (squaredDeviations (NUM := NUM) x) as [| | |[|] m e]; try discriminate.
  cbn [inSquareRange] in Hv.
  apply andb_prop in Hv. destruct Hv as [Hv He2]. apply andb_prop in Hv.
  destruct Hv as [Hd He1].
  apply Z.eqb_eq in Hd. apply Z.leb_le in He1, He2.
  rewrite b64_sqrt_mul_self by (try assumption; lia).
  apply b64_div_self.
Qed.

End Binary64Degenerate.

(** ** Binary64: concrete runs *)

Section Binary64Runs.

Import Binary64 Runs.

(** C3 (as stated, refuted). In the first step of the forecast on
    [pennyPrices] and [indexPrices] with the draw 0.99, the change before
    clamping is [totalReturn * volatility * dampening], below 0.006, while
    [totalReturn * dampening] is above 0.04: the volatility, about 0.13,
    is a factor of the change. *)
Lemma change_differs_from_return_times_dampening :
  SFeqb (change (NUM := stubbed) pennySnapshot (b64_lit 148 10000) 1 (b64_lit 99 100))
        (b64_mul (totalReturn (NUM := stubbed) pennySnapshot (b64_lit 148 10000) 1
                              (b64_lit 99 100))
                 (dampening (NUM := stubbed) 1)) = false
  /\ SFltb (change (NUM := stubbed) pennySnapshot (b64_lit 148 10000) 1 (b64_lit 99 100))
           (b64_lit 6 1000) = true
  /\ SFltb (b64_lit 4 100)
           (b64_mul (totalReturn (NUM := stubbed) pennySnapshot (b64_lit 148 10000) 1
                                 (b64_lit 99 100))
                    (dampening (NUM := stubbed) 1)) = true
  /\ SFltb (b64_lit 12 100) (volatility pennySnapshot) = true
  /\ SFltb (volatility pennySnapshot) (b64_lit 14 100) = true
  /\ lastOf (NUM := stubbed) (sliceFrom pennyPrices (-50)) = b64_lit 148 10000.
Proof. vm_compute. repeat split. Qed.

(** C4 (as stated, refuted). On [pennyPrices] (last close 0.0148) and
    [indexPrices], with every draw 0.99 and a horizon of 3, the bound is 0.1
    and the predicted prices are 0.01, 0.01 and 0.02: day 3 is 100% above
    day 2, and day 1 is 32% below the last close. *)
Lemma predicted_prices_jump_beyond_maxChange :
  predictFuturePrices (NUM := stubbed) (constantDraws (b64_lit 99 100))
                      pennyPrices indexPrices [] 3
    = [b64_lit 1 100; b64_lit 1 100; b64_lit 2 100]
  /\ maxChange (NUM := stubbed) pennySnapshot = b64_lit 1 10
  /\ changeWithin (b64_lit 1 100) (b64_lit 2 100) (b64_lit 1 10) = false
  /\ lastOf (NUM := stubbed) pennyPrices = b64_lit 148 10000
  /\ changeWithin (b64_lit 148 10000) (b64_lit 1 100) (b64_lit 1 10) = false.
Proof. vm_compute. repeat split. Qed.

(** C7 (as stated, refuted). [x = [0, 1e200]] is not constant and has
    length 2, and [calculateCorrelation x x] is NaN: the squared deviations
    overflow to infinity. For [x = [0, 2e77]] the product of the variances
    overflows and the result is 0. *)
Lemma correlation_with_itself_not_one :
  calculateCorrelation (NUM := stubbed) [b64_ofZ 0; b64_ofZ (10 ^ 200)]
                                        [b64_ofZ 0; b64_ofZ (10 ^ 200)]
    = S754_nan
  /\ calculateCorrelation (NUM := stubbed) [b64_ofZ 0; b64_ofZ (2 * 10 ^ 77)]
                                           [b64_ofZ 0; b64_ofZ (2 * 10 ^ 77)]
    = S754_zero false.
Proof. vm_compute. split; reflexivity. Qed.

(** C10 (as stated, refuted). On the prices [1, 0.9999999999999999, 3] with
    period 2 the average loss is not 0 and [calculateRSI] returns exactly
    100: [100 / (1 + rs)] is below half the spacing of binary64 numbers
    under 100. *)
Lemma calculateRSI_returns_100 :
  calculateRSI (NUM := stubbed) [b64_ofZ 1; belowOne; b64_ofZ 3] 2 = b64_ofZ 100
  /\ SFeqb (b64_div (sum (NUM := stubbed)
                         (rsiLosses (NUM := stubbed)
                            (rsiChanges (NUM := stubbed)
                               [b64_ofZ 1; belowOne; b64_ofZ 3] 2)))
                    (b64_ofZ 2))
           (b64_ofZ 0) = false.
Proof. vm_compute. split; reflexivity. Qed.

(** [calculateRSI] is NaN when the gains and the losses both overflow: on
    the prices [0, 1.7e308, 0, 1.7e308, 0] with period 4 both sums are
    infinite. A price that is NaN does not make it NaN: the changes to and
    from that price are neither above nor below 0 and count as 0, so that
    [1, NaN, 3] with period 2 gives 70 and [3, NaN, 1, 2, 1] with period 4
    gives 50. *)
Lemma calculateRSI_nan_by_overflow :
  calculateRSI (NUM := stubbed)
    [b64_ofZ 0; b64_ofZ (17 * 10 ^ 307); b64_ofZ 0; b64_ofZ (17 * 10 ^ 307); b64_ofZ 0] 4
    = S754_nan
  /\ calculateRSI (NUM := stubbed) [b64_ofZ 1; S754_nan; b64_ofZ 3] 2 = b64_ofZ 70
  /\ calculateRSI (NUM := stubbed)
       [b64_ofZ 3; S754_nan; b64_ofZ 1; b64_ofZ 2; b64_ofZ 1] 4 = b64_ofZ 50.
Proof. vm_compute. repeat split. Qed.

(** Without a stub the generator shows: on [alternatingRandom], which
    returns 0.05 and 0.95 in turn, the first of two calls in a row on
    [dollarPrices] and [indexPrices] for three days returns 146.69, 147.75
    and 146.06, and the second, in the world the first has left, returns
    148.73, 147.11 and 148.31. The first call leaves the two arrays as they
    were and the generator three calls further. *)
Lemma calls_in_a_row_differ_without_stub :
  let call := Store.predictFuturePrices (NUM := stubbed) alternatingRandom 0%nat 1%nat [] 3 in
  let w := worldOf dollarPrices 0%nat in
  let w' := snd (call w) in
  Store.arrayAt w' (fst (call w))
    = [b64_lit 14669 100; b64_lit 14775 100; b64_lit 14606 100]
  /\ Store.arrayAt (snd (call w')) (fst (call w'))
     = [b64_lit 14873 100; b64_lit 14711 100; b64_lit 14831 100]
  /\ Store.arrayAt w' 0%nat = dollarPrices /\ Store.arrayAt w' 1%nat = indexPrices
  /\ Store.generator w' = 3%nat.
Proof. vm_compute. repeat split. Qed.

End Binary64Runs.

(** ** The windows of the forecast *)

Section Windows.

Context {A : Type}.

(** The last [w] elements, for [w] elements or more. *)
Lemma sliceFrom_neg_skipn (a : list A) (w : Z) :
  (0 < w <= Z.of_nat (length a))%Z ->
  sliceFrom a (- w) = skipn (length a - Z.to_nat w) a.
Proof.
  intros Hw. unfold sliceFrom, slice, relIndex.
  replace (- w <? 0)%Z with true by (symmetry; apply Z.ltb_lt; lia).
  replace (Z.of_nat (length a) <? 0)%Z with false by (symmetry; apply Z.ltb_ge; lia).
  rewrite Z.max_l by lia. rewrite Z.min_id.
  replace (Z.to_nat (Z.of_nat (length a) + - w)) with (length a - Z.to_nat w)%nat by lia.
  apply firstn_all2. rewrite length_skipn. lia.
Qed.

Lemma sliceFrom_neg_app (older recent : list A) (w : Z) :
  (0 < w <= Z.of_nat (length recent))%Z ->
  sliceFrom (older ++ recent) (- w) = sliceFrom recent (- w).
Proof.
  intros Hw. rewrite !sliceFrom_neg_skipn by (rewrite ?length_app; lia).
  rewrite length_app, skipn_app.
  replace (length older + length recent - Z.to_nat w - length older)%nat
    with (length recent - Z.to_nat w)%nat by lia.
  rewrite skipn_all2 by lia. reflexivity.
Qed.

Lemma get_app_from_end (undef : A) (older recent : list A) (k : Z) :
  (0 < k <= Z.of_nat (length recent))%Z ->
  get undef (older ++ recent) (Z.of_nat (length (older ++ recent)) - k)
  = get undef recent (Z.of_nat (length recent) - k).
Proof.
  intros Hk. unfold get. rewrite length_app.
  replace (Z.of_nat (length older + length recent) - k <? 0)%Z with false
    by (symmetry; apply Z.ltb_ge; lia).
  replace (Z.of_nat (length recent) - k <? 0)%Z with false
    by (symmetry; apply Z.ltb_ge; lia).
  rewrite app_nth2 by lia. f_equal. lia.
Qed.

Lemma slice_of_skipn (a : list A) (n : nat) (start stop : Z) :
  (n <= length a)%nat -> (0 <= start <= stop)%Z -> (stop = Z.of_nat (length a - n))%Z ->
  slice (skipn n a) start stop = skipn (n + Z.to_nat start) a.
Proof.
  intros Hn Hs Hstop. unfold slice, relIndex. rewrite length_skipn.
  replace (start <? 0)%Z with false by (symmetry; apply Z.ltb_ge; lia).
  replace (stop <? 0)%Z with false by (symmetry; apply Z.ltb_ge; lia).
  rewrite !Z.min_l by lia. rewrite skipn_skipn.
  replace (Z.to_nat start + n)%nat with (n + Z.to_nat start)%nat by lia.
  apply firstn_all2. rewrite length_skipn. lia.
Qed.

End Windows.

Section Forecast.

Context {num : Type} {NUM : Number num}.

(** Closing prices older than the last 50 have no influence on the
    forecast. *)
Theorem predictFuturePrices_older_prices_ignored
    (draws : nat -> num) (older recent spyPrices : list num)
    (correlatedStocksPrices : list (list num)) (daysToPredict : Z) :
  (50 <= length recent)%nat ->
  predictFuturePrices draws (older ++ recent) spyPrices correlatedStocksPrices daysToPredict
  = predictFuturePrices draws recent spyPrices correlatedStocksPrices daysToPredict.
Proof.
  intros Hlen. unfold predictFuturePrices.
  replace (length (older ++ recent) <? 50)%nat with false
    by (symmetry; apply Nat.ltb_ge; rewrite length_app; lia).
  replace (length recent <? 50)%nat with false by (symmetry; apply Nat.ltb_ge; lia).
  pose proof (sliceFrom_neg_app older recent 50 ltac:(lia)) as H. cbn [Z.opp] in H.
  rewrite H. reflexivity.
Qed.

(** Reference prices older than the last 20 have no influence on the
    forecast: the reference series is read through its last 20 entries, its
    last entry and the one before. *)
Theorem predictFuturePrices_older_reference_ignored
    (draws : nat -> num) (targetPrices older recent : list num)
    (correlatedStocksPrices : list (list num)) (daysToPredict : Z) :
  (20 <= length recent)%nat ->
  predictFuturePrices draws targetPrices (older ++ recent) correlatedStocksPrices daysToPredict
  = predictFuturePrices draws targetPrices recent correlatedStocksPrices daysToPredict.
Proof.
  intros Hlen. unfold predictFuturePrices.
  destruct (length targetPrices <? 50)%nat; [reflexivity|].
  f_equal. unfold snapshot, lastOf, at_.
  pose proof (sliceFrom_neg_app older recent 20 ltac:(lia)) as H. cbn [Z.opp] in H.
  rewrite H.
  rewrite (get_app_from_end nan older recent 1) by lia.
  rewrite (get_app_from_end nan older recent 2) by lia.
  reflexivity.
Qed.

(** The forecast for a horizon is the beginning of the forecast for every
    longer horizon, the random draws being the same; a horizon of 0 or less
    gives no prediction. *)
Theorem predictFuturePrices_prefix
    (draws : nat -> num) (targetPrices spyPrices : list num)
    (correlatedStocksPrices : list (list num)) (N M : Z) :
  (N <= M)%Z ->
  predictFuturePrices draws targetPrices spyPrices correlatedStocksPrices N
  = firstn (Z.to_nat N)
      (predictFuturePrices draws targetPrices spyPrices correlatedStocksPrices M).
Proof.
  intros HNM. destruct (Nat.lt_ge_cases (length targetPrices) 50) as [Hs|Hl].
  - rewrite !predictFuturePrices_short by assumption. now rewrite firstn_nil.
  - rewrite !predictFuturePrices_unfold by assumption.
    rewrite firstn_map. f_equal.
    replace (Z.to_nat M) with (Z.to_nat N + (Z.to_nat M - Z.to_nat N))%nat by lia.
    rewrite seq_app, firstn_app, length_seq, Nat.sub_diag, firstn_O, app_nil_r.
    symmetry. apply firstn_all2. rewrite length_seq. lia.
Qed.

(** The two averages the mean-reversion signal of every step is taken
    against are the sum of the last 20 closes divided by 20 and the sum of
    the last 50 closes divided by 50. *)
Theorem snapshot_moving_averages (targetPrices spyPrices : list num) :
  (50 <= length targetPrices)%nat ->
  lastOf (ma20 (snapshot (sliceFrom targetPrices (-50)) spyPrices))
  = div (sum (skipn (length targetPrices - 20) targetPrices)) (ofZ 20)
  /\ lastOf (ma50 (snapshot (sliceFrom targetPrices (-50)) spyPrices))
     = div (sum (skipn (length targetPrices - 50) targetPrices)) (ofZ 50).
Proof.
  intros Hlen. cbn [snapshot ma20 ma50].
  pose proof (sliceFrom_neg_skipn targetPrices 50 ltac:(lia)) as H. cbn [Z.opp] in H.
  rewrite H. clear H.
  change (Z.to_nat 50) with 50%nat.
  set (recent := skipn (length targetPrices - 50) targetPrices).
  assert (Hrec : length recent = 50%nat) by (unfold recent; rewrite length_skipn; lia).
  assert (Hlast : forall period : Z, (0 < period <= 50)%Z ->
            lastOf (calculateMA recent period)
            = div (sum (skipn (length targetPrices - Z.to_nat period) targetPrices))
                  (ofZ period)).
  { intros period Hp. unfold lastOf, at_, get. rewrite calculateMA_length, Hrec.
    change (Z.of_nat 50 - 1 <? 0)%Z with false. cbv beta iota.
    change (Z.to_nat (Z.of_nat 50 - 1)) with 49%nat.
    pose proof (calculateMA_nth recent period 49 ltac:(lia)) as Hn.
    rewrite (nth_error_nth _ _ _ Hn). unfold maEntry.
    replace (Z.of_nat 49 <? period - 1)%Z with false by (symmetry; apply Z.ltb_ge; lia).
    do 2 f_equal. unfold recent.
    rewrite slice_of_skipn by lia. f_equal. lia. }
  split; [apply (Hlast 20%Z) | apply (Hlast 50%Z)]; lia.
Qed.

(** A period longer than the price array leaves no index with enough
    history: every entry of the moving average is NaN. *)
Theorem calculateMA_period_exceeds_length (prices : list num) (period : Z) :
  (Z.of_nat (length prices) < period)%Z ->
  calculateMA prices period = repeat nan (length prices).
Proof.
  intros Hp. rewrite calculateMA_map.
  assert (Hall : forall n start : nat,
            (Z.of_nat (start + n) < period)%Z ->
            map (fun i => maEntry prices period (Z.of_nat i)) (List.seq start n)
            = repeat nan n).
  { induction n as [|n IH]; intros start Hs; [reflexivity|].
    cbn [List.seq map repeat]. rewrite IH by lia. f_equal. unfold maEntry.
    replace (Z.of_nat start <? period - 1)%Z with true by (symmetry; apply Z.ltb_lt; lia).
    reflexivity. }
  apply Hall. simpl. lia.
Qed.

End Forecast.

(** ** Binary64: the order and the product *)

Section Binary64Order.

Import Binary64 Binary64Facts.

Lemma b64_mul_comm (a b : float) : b64_mul a b = b64_mul b a.
Proof.
  unfold b64_mul, SFmul.
  destruct a as [sa|sa| |sa ma ea], b as [sb|sb| |sb mb eb];
    try reflexivity; try (now rewrite (xorb_comm sa sb)).
  now rewrite (xorb_comm sa sb), (Pos.mul_comm ma mb), (Z.add_comm ea eb).
Qed.

(** [SFcompare] orders the numbers: [<=] is transitive. *)
Lemma SFleb_trans (a b c : float) :
  SFleb a b = true -> SFleb b c = true -> SFleb a c = true.
Proof.
  unfold SFleb, SFcompare.
  destruct a as [sa|sa| |sa ma ea], b as [sb|sb| |sb mb eb], c as [sc|sc| |sc mc ec];
    try destruct sa; try destruct sb; try destruct sc;
    repeat match goal with
           | |- context [PosDef.Pos.compare_cont Eq ?x ?y] =>
               change (PosDef.Pos.compare_cont Eq x y) with (x ?= y)%positive
           | |- context [(?x ?= ?y)%Z] => destruct (Z.compare_spec x y)
           | |- context [(?x ?= ?y)%positive] => destruct (Pos.compare_spec x y)
           end;
    cbn [CompOpp]; intros Hab Hbc; try discriminate Hab; try discriminate Hbc;
    try reflexivity; exfalso; lia.
Qed.

End Binary64Order.

(** ** Binary64: the indicators at the edges of their domains *)

Section Binary64Indicators.

Import Binary64 Binary64Facts.

Variable mathExp : float -> float.

Local Abbreviation NUM := (binary64 mathExp).

Lemma correlation_loop_swap (x y : list float) (xm ym : float) (idxs : list nat)
    (n a b : float) :
  fold_left (correlationStep (NUM := NUM) y x ym xm) idxs (n, b, a)
  = let '(n', a', b') := fold_left (correlationStep (NUM := NUM) x y xm ym) idxs (n, a, b) in
    (n', b', a').
Proof.
  revert n a b; induction idxs as [|i idxs IH]; intros n a b; [reflexivity|].
  cbn [fold_left]. unfold correlationStep at 2 4. cbn [mul add sub binary64].
  rewrite (b64_mul_comm (b64_sub (at_ y (Z.of_nat i)) ym) (b64_sub (at_ x (Z.of_nat i)) xm)).
  apply IH.
Qed.

(** The correlation does not depend on the order of its two arguments. *)
Theorem calculateCorrelation_symmetric (x y : list float) :
  calculateCorrelation (NUM := NUM) x y = calculateCorrelation (NUM := NUM) y x.
Proof.
  unfold calculateCorrelation. rewrite (Nat.min_comm (length y) (length x)).
  destruct (Nat.min (length x) (length y) <? 2)%nat; [reflexivity|].
  rewrite (correlation_loop_swap x y).
  destruct (fold_left _ _ _) as [[n a] b]. cbn [mul div sqrt binary64].
  now rewrite (b64_mul_comm a b).
Qed.

Lemma calculateReturns_few (prices : list float) :
  (length prices < 2)%nat -> calculateReturns (NUM := NUM) prices = [].
Proof.
  intros Hlen. unfold calculateReturns. rewrite sliceFrom_1.
  destruct prices as [|p [|q prices]]; [reflexivity | reflexivity | simpl in Hlen; lia].
Qed.

(** With fewer than two prices in the window there is no return: the mean
    of the returns is [0 / 0] and the volatility is NaN. *)
Theorem calculateVolatility_few_prices (prices : list float) (window : Z) :
  (length (sliceFrom prices (- window)) < 2)%nat ->
  calculateVolatility (NUM := NUM) prices window = S754_nan.
Proof.
  intros Hlen. unfold calculateVolatility. rewrite calculateReturns_few by assumption.
  reflexivity.
Qed.

(** The volatility is never a negative number. *)
Theorem calculateVolatility_never_negative (prices : list float) (window : Z) :
  SFltb (calculateVolatility (NUM := NUM) prices window) (b64_ofZ 0) = false.
Proof.
  pose proof (calculateVolatility_nonneg mathExp prices window) as H. revert H.
  generalize (calculateVolatility (NUM := NUM) prices window).
  intros v [H|H]; destruct v as [[|]|[|]| |[|] m e]; try discriminate; reflexivity.
Qed.

(** When the length guard passes and the window holds fewer than two prices
    (a period of 1, for one), the momentum is [0 / 0], NaN. *)
Theorem calculateMomentum_few_prices (prices : list float) (period : Z) :
  (period <= Z.of_nat (length prices))%Z ->
  (length (sliceFrom prices (- period)) < 2)%nat ->
  calculateMomentum (NUM := NUM) prices period = S754_nan.
Proof.
  intros Hp Hlen. unfold calculateMomentum.
  replace (Z.of_nat (length prices) <? period)%Z with false by (symmetry; apply Z.ltb_ge; lia).
  rewrite calculateReturns_few by assumption. reflexivity.
Qed.

Lemma rsiChanges_few (prices : list float) (period : Z) :
  (length prices < 2)%nat -> rsiChanges (NUM := NUM) prices period = [].
Proof.
  intros Hlen. unfold rsiChanges. rewrite sliceFrom_1.
  assert (Hs : (length (sliceFrom prices (- period - 1)) < 2)%nat).
  { unfold sliceFrom, slice. rewrite length_firstn, length_skipn. lia. }
  destruct (sliceFrom prices (- period - 1)) as [|p [|q l]];
    [reflexivity | reflexivity | simpl in Hs; lia].
Qed.

(** With fewer than two prices there is no change, so no loss: the relative
    strength index is 70 for every period other than 0. *)
Theorem calculateRSI_few_prices (prices : list float) (period : Z) :
  (length prices < 2)%nat -> period <> 0%Z ->
  calculateRSI (NUM := NUM) prices period = b64_ofZ 70.
Proof.
  intros Hlen Hp. unfold calculateRSI. rewrite rsiChanges_few by assumption.
  cbn [rsiGains rsiLosses map sum fold_left zero ofZ div seq binary64].
  pose proof (b64_div_zero_ofZ false period Hp) as Hz.
  change (S754_zero false) with (b64_ofZ 0) in Hz. now rewrite Hz.
Qed.

Lemma b64_ofZ_negative (z : Z) :
  (z < 0)%Z ->
  exists y, b64_ofZ z = y /\ match y with S754_infinity true | S754_finite true _ _ => True | _ => False end.
Proof.
  intros Hz. exists (b64_ofZ z). split; [reflexivity|].
  pose proof (b64_ofZ_nonzero z ltac:(lia)) as Hn.
  destruct z as [|p|p]; try lia. unfold b64_ofZ, binary_normalize in *.
  assert (Hs : match binary_round prec emax true p 0 with
               | S754_zero s | S754_infinity s | S754_finite s _ _ => s = true
               | S754_nan => True
               end).
  { unfold binary_round. destruct (shl_align _ _ _) as [mz ez].
    apply binary_round_aux_sign. }
  destruct (binary_round prec emax true p 0) as [| s | | s m e];
    try contradiction; subst; exact I.
Qed.

(** A period of 0 or less gives every index an empty window: each entry is
    [0 / period], which is NaN for the period 0 and [-0] for a negative
    period. *)
Theorem calculateMA_nonpositive_period (prices : list float) (period : Z) :
  (period <= 0)%Z ->
  calculateMA (NUM := NUM) prices period
  = repeat (if (period =? 0)%Z then S754_nan else S754_zero true) (length prices).
Proof.
  intros Hp. rewrite calculateMA_map.
  assert (Hall : forall n start : nat,
            map (fun i => maEntry (NUM := NUM) prices period (Z.of_nat i)) (List.seq start n)
            = repeat (if (period =? 0)%Z then S754_nan else S754_zero true) n).
  { induction n as [|n IH]; intros start; [reflexivity|].
    cbn [List.seq map repeat]. rewrite IH. f_equal. unfold maEntry.
    replace (Z.of_nat start <? period - 1)%Z with false by (symmetry; apply Z.ltb_ge; lia).
    assert (Hempty : slice prices (Z.of_nat start - period + 1) (Z.of_nat start + 1) = []).
    { unfold slice, relIndex.
      replace (Z.of_nat start - period + 1 <? 0)%Z with false by (symmetry; apply Z.ltb_ge; lia).
      replace (Z.of_nat start + 1 <? 0)%Z with false by (symmetry; apply Z.ltb_ge; lia).
      replace (Z.to_nat _) with 0%nat by lia. reflexivity. }
    rewrite Hempty. cbn [sum fold_left zero ofZ div binary64].
    destruct (Z.eqb_spec period 0) as [-> | Hne]; [reflexivity|].
    destruct (b64_ofZ_negative period ltac:(lia)) as (y & -> & Hy).
    destruct y as [[|]|[|]| |[|] m e]; try contradiction; reflexivity. }
  apply Hall.
Qed.

End Binary64Indicators.

(** ** Binary64: signs and the bound of a step *)

Section Binary64Sign.

Import Binary64 Binary64Facts.

Lemma SFleb_opp (a b : float) : SFleb a b = true -> SFleb (SFopp b) (SFopp a) = true.
Proof.
  unfold SFleb, SFcompare, SFopp.
  destruct a as [sa|sa| |sa ma ea], b as [sb|sb| |sb mb eb];
    try destruct sa; try destruct sb; cbn [negb];
    repeat match goal with
           | |- context [PosDef.Pos.compare_cont Eq ?x ?y] =>
               change (PosDef.Pos.compare_cont Eq x y) with (x ?= y)%positive
           | |- context [(?x ?= ?y)%Z] => destruct (Z.compare_spec x y)
           | |- context [(?x ?= ?y)%positive] => destruct (Pos.compare_spec x y)
           end;
    cbn [CompOpp]; intros Hab; try discriminate Hab; try reflexivity; exfalso; lia.
Qed.

Lemma notNegative_cases (x : float) :
  notNegative x = true <-> isNaN x = true \/ nonneg x = true.
Proof.
  unfold notNegative. change (b64_ofZ 0) with (S754_zero false).
  destruct x as [[|]|[|]| |[|] m e]; cbn; intuition discriminate.
Qed.

(** The exact product of two mantissas, rounded: no shift is needed when
    the product has fewer than 53 digits. *)
Lemma binary_round_aux_fits (sx : bool) (M : positive) (e : Z) :
  fitsMantissa (binary_round_aux prec emax sx (Z.pos M) e loc_Exact) = true.
Proof.
  destruct (Z.le_gt_cases e (fexp prec emax (Zdigits2 (Z.pos M) + e))) as [Hle|Hgt].
  - destruct (binary_round_aux_cases sx (Z.pos M) e loc_Exact ltac:(lia) Hle)
      as (Q & _ & HQ & _ & ->).
    destruct (Q =? 0)%Z; [reflexivity|].
    destruct (Q <? 2 ^ 53)%Z eqn:HQ53.
    + destruct (_ <=? _)%Z; [|reflexivity]. cbn [fitsMantissa].
      apply Z.ltb_lt in HQ53. apply Z.ltb_lt.
      destruct Q as [|q|q]; cbn [Z.to_pos]; lia.
    + destruct (_ <=? _)%Z; reflexivity.
  - pose proof (Zdigits2_bounds (Z.pos M) ltac:(lia)) as [[_ Hup] Hd].
    rewrite fexp_spec in Hgt.
    assert (Hd53 : (Zdigits2 (Z.pos M) < 53)%Z) by lia.
    assert (HM : (Z.pos M < 2 ^ 53)%Z).
    { apply Z.lt_le_trans with (2 ^ Zdigits2 (Z.pos M))%Z; [assumption|].
      apply Z.pow_le_mono_r; lia. }
    assert (Hshr : forall l, shr_fexp prec emax (Z.pos M) e l
                             = (shr_record_of_loc (Z.pos M) l, e)).
    { intros l. unfold shr_fexp, shr. rewrite fexp_spec.
      destruct (Z.max (Zdigits2 (Z.pos M) + e - 53) (-1074) - e)%Z eqn:Hn;
        try reflexivity. lia. }
    unfold binary_round_aux. rewrite Hshr.
    rewrite loc_of_shr_record_of_loc, shr_m_of_loc. cbn [round_nearest_even].
    rewrite Hshr, shr_m_of_loc.
    destruct (e <=? emax - prec)%Z; [|reflexivity].
    cbn [fitsMantissa]. now apply Z.ltb_lt.
Qed.

Lemma b64_mul_fits (a b : float) : fitsMantissa (b64_mul a b) = true.
Proof.
  unfold b64_mul, SFmul.
  destruct a as [sa|sa| |sa ma ea], b as [sb|sb| |sb mb eb]; try reflexivity.
  apply binary_round_aux_fits.
Qed.

Lemma SFopp_fits (x : float) : fitsMantissa (SFopp x) = fitsMantissa x.
Proof. now destruct x. Qed.

Lemma b64_min_fits (a b : float) :
  fitsMantissa a = true -> fitsMantissa b = true -> fitsMantissa (b64_min a b) = true.
Proof.
  intros Ha Hb. unfold b64_min.
  destruct (isNaN a || isNaN b); [reflexivity|].
  destruct (SFltb a b); [assumption|]. destruct (SFltb b a); [assumption|].
  destruct a as [[|]| | |]; assumption.
Qed.

Lemma b64_max_fits (a b : float) :
  fitsMantissa a = true -> fitsMantissa b = true -> fitsMantissa (b64_max a b) = true.
Proof.
  intros Ha Hb. unfold b64_max.
  destruct (isNaN a || isNaN b); [reflexivity|].
  destruct (SFltb a b); [assumption|]. destruct (SFltb b a); [assumption|].
  destruct a as [[|]| | |]; assumption.
Qed.

End Binary64Sign.

Section Binary64Bounds.

Import Binary64 Binary64Facts.

Variable mathExp : float -> float.

Local Abbreviation NUM := (binary64 mathExp).

Lemma maxChange_at_most_tenth (s : Snapshot) :
  isNaN (maxChange (NUM := NUM) s) = false ->
  SFleb (maxChange (NUM := NUM) s) (b64_lit 1 10) = true
  /\ fitsMantissa (maxChange (NUM := NUM) s) = true.
Proof.
  unfold maxChange. cbn [nmin lit mul ofZ binary64]. intros Hn.
  assert (Hv : isNaN (b64_mul (volatility s) (b64_ofZ 2)) = false).
  { destruct (isNaN (b64_mul (volatility s) (b64_ofZ 2))) eqn:E; [|reflexivity].
    unfold b64_min in Hn. rewrite E, orb_true_r in Hn. discriminate. }
  split.
  - apply (b64_min_cases (b64_lit 1 10) _ eq_refl Hv).
  - apply b64_min_fits; [reflexivity | apply b64_mul_fits].
Qed.

Lemma boundedChange_fits (s : Snapshot) (currentPrice : float) (i : Z) (u : float) :
  isNaN (maxChange (NUM := NUM) s) = false ->
  fitsMantissa (boundedChange (NUM := NUM) s currentPrice i u) = true.
Proof.
  intros Hn. unfold boundedChange. cbn [nmax nmin neg binary64].
  pose proof (maxChange_at_most_tenth s Hn) as [_ Hf].
  apply b64_max_fits; [now rewrite SFopp_fits|].
  apply b64_min_fits; [assumption|]. unfold change. cbn [mul binary64]. apply b64_mul_fits.
Qed.

Lemma boundedChange_clamped
    (recentPrices spyPrices : list float) (currentPrice : float) (i : Z) (u : float) :
  isNaN (boundedChange (NUM := NUM) (snapshot (NUM := NUM) recentPrices spyPrices)
                       currentPrice i u) = true
  \/ within (boundedChange (NUM := NUM) (snapshot (NUM := NUM) recentPrices spyPrices)
                           currentPrice i u)
            (b64_lit 1 10) = true.
Proof.
  set (s := snapshot (NUM := NUM) recentPrices spyPrices).
  assert (Hvol : isNaN (volatility s) = true \/ nonneg (volatility s) = true)
    by apply calculateVolatility_nonneg.
  destruct (boundedChange_within mathExp s currentPrice i u Hvol) as [Hnan Hin].
  destruct (isNaN (boundedChange (NUM := NUM) s currentPrice i u)) eqn:Hb; [now left|right].
  symmetry in Hnan. apply orb_false_iff in Hnan. destruct Hnan as [Hm _].
  specialize (Hin eq_refl). unfold within in *.
  apply andb_true_iff in Hin. destruct Hin as [Hlo Hhi].
  destruct (maxChange_at_most_tenth s Hm) as [Hle _].
  apply andb_true_iff. split.
  - apply SFleb_trans with (SFopp (maxChange (NUM := NUM) s)); [|assumption].
    now apply SFleb_opp.
  - now apply SFleb_trans with (maxChange (NUM := NUM) s).
Qed.

(** Whatever the prices, the draw and [Math.exp] are, the bound of a step
    is NaN or lies between 0 and 0.1, and the clamped change of the step is
    NaN or lies between -0.1 and 0.1. *)
Theorem boundedChange_within_tenth
    (recentPrices spyPrices : list float) (currentPrice : float) (i : Z) (u : float) :
  (isNaN (maxChange (NUM := NUM) (snapshot (NUM := NUM) recentPrices spyPrices)) = true
   \/ (SFleb (b64_ofZ 0)
             (maxChange (NUM := NUM) (snapshot (NUM := NUM) recentPrices spyPrices)) = true
       /\ SFleb (maxChange (NUM := NUM) (snapshot (NUM := NUM) recentPrices spyPrices))
                (b64_lit 1 10) = true))
  /\ (isNaN (boundedChange (NUM := NUM) (snapshot (NUM := NUM) recentPrices spyPrices)
                           currentPrice i u) = true
      \/ within (boundedChange (NUM := NUM) (snapshot (NUM := NUM) recentPrices spyPrices)
                               currentPrice i u)
                (b64_lit 1 10) = true).
Proof.
  split; [|apply boundedChange_clamped].
  set (s := snapshot (NUM := NUM) recentPrices spyPrices).
  assert (Hvol : isNaN (volatility s) = true \/ nonneg (volatility s) = true)
    by apply calculateVolatility_nonneg.
  destruct (maxChange_nonneg mathExp s Hvol) as [Hnan|Hpos]; [now left|right].
  assert (Hn : isNaN (maxChange (NUM := NUM) s) = false).
  { revert Hpos. generalize (maxChange (NUM := NUM) s). intros m Hm.
    destruct m; try reflexivity. discriminate Hm. }
  split; [|apply (maxChange_at_most_tenth s Hn)].
  revert Hpos. generalize (maxChange (NUM := NUM) s). intros m Hm.
  destruct m as [[|]|[|]| |[|] mm e]; try discriminate Hm; reflexivity.
Qed.

Lemma within_not_nan (x m : float) : within x m = true -> isNaN x = false.
Proof.
  intros H. destruct x; try reflexivity.
  unfold within in H. apply andb_true_iff in H. destruct H as [_ H].
  discriminate H.
Qed.

(** [1 + b] is not negative for a change [b] between -0.1 and 0.1. *)
Lemma add_one_within_tenth (b : float) :
  within b (b64_lit 1 10) = true -> fitsMantissa b = true ->
  isNaN (b64_add (b64_ofZ 1) b) = true \/ pos0 (b64_add (b64_ofZ 1) b) = true.
Proof.
  intros Hin Hfit. unfold within in Hin. apply andb_true_iff in Hin. destruct Hin as [Hlo Hhi].
  destruct b as [sb|sb| |[|] m e].
  - right. destruct sb; reflexivity.
  - exfalso. destruct sb; [discriminate Hlo | discriminate Hhi].
  - discriminate Hhi.
  - (* a negative change *)
    change (SFopp (b64_lit 1 10)) with (S754_finite true 7205759403792794 (-56)) in Hlo.
    unfold SFleb, SFcompare in Hlo. cbn [fitsMantissa] in Hfit. apply Z.ltb_lt in Hfit.
    change (PosDef.Pos.compare_cont Eq 7205759403792794 m)
      with (7205759403792794 ?= m)%positive in Hlo.
    assert (He : (e <= -56)%Z).
    { destruct (Z.compare_spec (-56) e); try lia; discriminate. }
    assert (Hm : (Z.pos m < 2 ^ 56)%Z) by lia.
    clear Hlo Hhi.
    change (b64_ofZ 1) with (S754_finite false 4503599627370496 (-52)).
    unfold b64_add, SFadd. rewrite (Z.min_r (-52) e) by lia.
    rewrite (shl_align_above m e e) by lia. cbn [fst cond_Zopp Z.opp].
    destruct (shl_align_value 4503599627370496 (-52) e ltac:(lia)) as [Hv _].
    assert (Hpow : (2 ^ 56 <= Z.pos 4503599627370496 * 2 ^ (-52 - e))%Z).
    { change (Z.pos 4503599627370496) with (2 ^ 52)%Z.
      rewrite <- Z.pow_add_r by lia. apply Z.pow_le_mono_r; lia. }
    destruct (Z.pos (fst (shl_align 4503599627370496 (-52) e)) + Z.neg m)%Z as [|p|p] eqn:Hsum;
      try lia.
    cbn [binary_normalize]. apply binary_round_pos0.
  - (* a positive change *)
    apply b64_add_pos0; reflexivity.
Qed.

Lemma b64_toFixed2_notNegative (x : float) :
  notNegative x = true -> notNegative (b64_toFixed2 x) = true.
Proof.
  intros Hx. apply notNegative_cases in Hx. apply notNegative_cases.
  destruct Hx as [Hx|Hx]; [left; destruct x; try discriminate; reflexivity|].
  destruct x as [sx|[|]| |[|] m e]; try discriminate; cbn [b64_toFixed2].
  - right. reflexivity.
  - right. reflexivity.
  - destruct (hundredths m e) as [|n|n]; [right; reflexivity | | right; reflexivity].
    unfold b64_div, SFdiv. cbn [xorb].
    destruct (SFdiv_core_binary prec emax (Z.pos n) 0 100 0) as [[mz ez] lz].
    apply round_nonneg.
Qed.

Lemma nextPrice_notNegative (recentPrices spyPrices : list float) (currentPrice : float)
    (i : Z) (u : float) :
  notNegative currentPrice = true ->
  notNegative (nextPrice (NUM := NUM) (snapshot (NUM := NUM) recentPrices spyPrices)
                         currentPrice i u) = true.
Proof.
  intros Hp. apply notNegative_cases. unfold nextPrice. cbn [mul add one ofZ binary64].
  set (s := snapshot (NUM := NUM) recentPrices spyPrices).
  set (b := boundedChange (NUM := NUM) s currentPrice i u).
  assert (Hb : isNaN b = true
               \/ (within b (b64_lit 1 10) = true /\ fitsMantissa b = true)).
  { destruct (boundedChange_clamped recentPrices spyPrices currentPrice i u) as [Hb|Hb];
      fold s in Hb; fold b in Hb; [now left|right].
    split; [assumption|]. apply boundedChange_fits.
    assert (Hvol : isNaN (volatility s) = true \/ nonneg (volatility s) = true)
      by apply calculateVolatility_nonneg.
    destruct (boundedChange_within mathExp s currentPrice i u Hvol) as [Hnan _].
    fold b in Hnan.
    destruct (isNaN b) eqn:Hbn.
    - rewrite (within_not_nan _ _ Hb) in Hbn. discriminate Hbn.
    - symmetry in Hnan. apply orb_false_iff in Hnan. tauto. }
  clearbody b. clear s. apply notNegative_cases in Hp.
  destruct Hb as [Hb|[Hb Hfit]].
  { left. destruct b; try discriminate Hb. now rewrite b64_add_nan_r, b64_mul_nan_r. }
  destruct Hp as [Hp|Hp].
  { left. destruct currentPrice; try discriminate Hp.
    unfold b64_mul, SFmul. now destruct (b64_add (b64_ofZ 1) b). }
  destruct (add_one_within_tenth b Hb Hfit) as [H1|H1]; revert H1;
    generalize (b64_add (b64_ofZ 1) b); intros y H1.
  { left. destruct y; try discriminate H1. now rewrite b64_mul_nan_r. }
  apply b64_mul_nonneg; [assumption|].
  clear Hb Hfit Hp. destruct y as [[|]|[|]| |[|] ? ?]; try discriminate H1; reflexivity.
Qed.

Lemma runningPrice_notNegative (draws : nat -> float) (recentPrices spyPrices : list float)
    (lastPrice : float) (k : nat) :
  notNegative lastPrice = true ->
  notNegative (runningPrice (NUM := NUM) draws (snapshot (NUM := NUM) recentPrices spyPrices)
                            lastPrice k) = true.
Proof.
  intros Hp. induction k as [|k IH]; [exact Hp|].
  cbn [runningPrice]. now apply nextPrice_notNegative.
Qed.

Lemma lastOf_sliceFrom (a : list float) (w : Z) :
  (0 < w <= Z.of_nat (length a))%Z ->
  lastOf (NUM := NUM) (sliceFrom a (- w)) = lastOf (NUM := NUM) a.
Proof.
  intros Hw. rewrite sliceFrom_neg_skipn by assumption.
  rewrite <- (firstn_skipn (length a - Z.to_nat w) a) at 3.
  unfold lastOf, at_. symmetry. apply get_app_from_end. rewrite length_skipn. lia.
Qed.

(** A forecast that starts from a close that is not negative never shows a
    negative price: every predicted price is NaN, zero or positive, whatever
    the draws and [Math.exp] are. *)
Theorem predictFuturePrices_never_negative
    (draws : nat -> float) (targetPrices spyPrices : list float)
    (correlatedStocksPrices : list (list float)) (daysToPredict : Z) :
  notNegative (lastOf (NUM := NUM) targetPrices) = true ->
  Forall (fun price => notNegative price = true)
         (predictFuturePrices (NUM := NUM) draws targetPrices spyPrices
                              correlatedStocksPrices daysToPredict).
Proof.
  intros Hlast. destruct (Nat.lt_ge_cases (length targetPrices) 50) as [Hs|Hl].
  - rewrite predictFuturePrices_short by assumption. constructor.
  - rewrite predictFuturePrices_unfold by assumption.
    apply Forall_forall. intros p Hp. apply in_map_iff in Hp. destruct Hp as (k & <- & _).
    cbn [toFixed2 binary64]. apply b64_toFixed2_notNegative, runningPrice_notNegative.
    pose proof (lastOf_sliceFrom targetPrices 50 ltac:(lia)) as H. cbn [Z.opp] in H.
    now rewrite H.
Qed.

End Binary64Bounds.

(** ** Binary64: the sign of the mean-reversion signal *)

Section Binary64Signal.

Import Binary64 Binary64Facts.

Variable mathExp : float -> float.

Local Abbreviation NUM := (binary64 mathExp).

Lemma shr_fexp_nonneg (m e : Z) (l : location) :
  (0 <= m)%Z -> (0 <= shr_m (fst (shr_fexp prec emax m e l)))%Z.
Proof.
  intros Hm. unfold shr_fexp, shr.
  assert (Hrec : shr_m (shr_record_of_loc m l) = m) by (destruct l as [|[]]; reflexivity).
  destruct (fexp prec emax (Zdigits2 m + e) - e)%Z as [|p|p];
    cbn [fst]; rewrite ?Hrec; try assumption.
  rewrite iter_shr_1_m by (rewrite Hrec; lia). rewrite Hrec.
  now apply Z.shiftr_nonneg.
Qed.

(** Rounding a mantissa that is not negative gives a zero, a number or an
    infinity of the sign asked for, never NaN. *)
Lemma binary_round_aux_signed (sx : bool) (m e : Z) (l : location) :
  (0 <= m)%Z ->
  match binary_round_aux prec emax sx m e l with
  | S754_zero s | S754_infinity s | S754_finite s _ _ => s = sx
  | S754_nan => False
  end.
Proof.
  intros Hm. unfold binary_round_aux.
  pose proof (shr_fexp_nonneg m e l Hm) as H1.
  destruct (shr_fexp prec emax m e l) as [mrs' e']. cbn [fst] in H1.
  pose proof (round_nearest_even_ge (shr_m mrs') (loc_of_shr_record mrs')) as Hr.
  pose proof (shr_fexp_nonneg (round_nearest_even (shr_m mrs') (loc_of_shr_record mrs'))
                e' loc_Exact ltac:(lia)) as H2.
  destruct (shr_fexp prec emax _ e' loc_Exact) as [mrs'' e'']. cbn [fst] in H2.
  destruct (shr_m mrs''); try lia; [reflexivity|].
  now destruct (e'' <=? emax - prec)%Z.
Qed.

Lemma round_false_nonneg (m e : Z) (l : location) :
  (0 <= m)%Z -> nonneg (binary_round_aux prec emax false m e l) = true.
Proof.
  intros Hm. pose proof (binary_round_aux_signed false m e l Hm) as H.
  destruct (binary_round_aux prec emax false m e l); try contradiction; subst; reflexivity.
Qed.

Lemma round_true_nonpos (m e : Z) (l : location) :
  (0 <= m)%Z -> nonpos (binary_round_aux prec emax true m e l) = true.
Proof.
  intros Hm. pose proof (binary_round_aux_signed true m e l Hm) as H.
  destruct (binary_round_aux prec emax true m e l); try contradiction; subst; reflexivity.
Qed.

Lemma binary_normalize_nonneg (z e : Z) :
  (0 <= z)%Z -> nonneg (binary_normalize prec emax z e false) = true.
Proof.
  intros Hz. destruct z as [|p|p]; try lia; [reflexivity|].
  cbn [binary_normalize]. unfold binary_round.
  destruct (shl_align p e _) as [mz ez]. apply round_false_nonneg. lia.
Qed.

Lemma binary_normalize_nonpos (z e : Z) :
  (z <= 0)%Z -> nonpos (binary_normalize prec emax z e false) = true.
Proof.
  intros Hz. destruct z as [|p|p]; try lia; [reflexivity|].
  cbn [binary_normalize]. unfold binary_round.
  destruct (shl_align p e _) as [mz ez]. apply round_true_nonpos. lia.
Qed.

Lemma nonpos_SFopp (x : float) : nonpos (SFopp x) = nonneg x.
Proof. destruct x as [[|]|[|]| |[|] m e]; reflexivity. Qed.

Lemma nonneg_SFopp (x : float) : nonneg (SFopp x) = nonpos x.
Proof. destruct x as [[|]|[|]| |[|] m e]; reflexivity. Qed.

Lemma b64_add_nonneg (a b : float) :
  nonneg a = true -> nonneg b = true -> nonneg (b64_add a b) = true.
Proof.
  destruct a as [[|]|[|]| |[|] ma ea]; try discriminate;
    destruct b as [[|]|[|]| |[|] mb eb]; try discriminate;
    intros _ _.
  1-15: reflexivity.
  unfold b64_add, SFadd. cbn [cond_Zopp]. apply binary_normalize_nonneg. lia.
Qed.

Lemma b64_add_nonpos (a b : float) :
  nonpos a = true -> nonpos b = true -> nonpos (b64_add a b) = true.
Proof.
  destruct a as [[|]|[|]| |[|] ma ea]; try discriminate;
    destruct b as [[|]|[|]| |[|] mb eb]; try discriminate;
    intros _ _.
  1-15: reflexivity.
  unfold b64_add, SFadd. cbn [cond_Zopp]. apply binary_normalize_nonpos. lia.
Qed.

Lemma SFdiv_core_nonneg (m1 m2 : positive) (e1 e2 : Z) :
  (0 <= fst (fst (SFdiv_core_binary prec emax (Z.pos m1) e1 (Z.pos m2) e2)))%Z.
Proof.
  unfold SFdiv_core_binary.
  set (s := (e1 - e2 - _)%Z).
  set (m' := match s with Z0 => Z.pos m1 | Z.pos _ => Z.shiftl (Z.pos m1) s | Z.neg _ => 0%Z end).
  assert (Hm' : (0 <= m')%Z).
  { subst m'. destruct s; try lia. apply Z.shiftl_nonneg. lia. }
  pose proof (Z_div_mod m' (Z.pos m2) ltac:(lia)) as Hdm.
  destruct (Z.div_eucl m' (Z.pos m2)) as [q r]. cbn [fst]. nia.
Qed.

(** The quotient by a positive number keeps the side of zero of the
    dividend, and is never NaN. *)
Lemma b64_div_nonneg (a : float) (m : positive) (e : Z) :
  nonneg a = true -> nonneg (b64_div a (S754_finite false m e)) = true.
Proof.
  destruct a as [[|]|[|]| |[|] ma ea]; try discriminate; intros _; try reflexivity.
  unfold b64_div, SFdiv. cbn [xorb].
  pose proof (SFdiv_core_nonneg ma m ea e) as H.
  destruct (SFdiv_core_binary prec emax (Z.pos ma) ea (Z.pos m) e) as [[mz ez] lz].
  cbn [fst] in H. now apply round_false_nonneg.
Qed.

Lemma b64_div_nonpos (a : float) (m : positive) (e : Z) :
  nonpos a = true -> nonpos (b64_div a (S754_finite false m e)) = true.
Proof.
  destruct a as [[|]|[|]| |[|] ma ea]; try discriminate; intros _; try reflexivity.
  unfold b64_div, SFdiv. cbn [xorb].
  pose proof (SFdiv_core_nonneg ma m ea e) as H.
  destruct (SFdiv_core_binary prec emax (Z.pos ma) ea (Z.pos m) e) as [[mz ez] lz].
  cbn [fst] in H. now apply round_true_nonpos.
Qed.

(** Two positive numbers in canonical form compare as their values do: the
    mantissas brought to the lower of the two exponents are in the order
    of the numbers. *)
Lemma aligned_order (ma mb : positive) (ea eb : Z) :
  positiveDouble (S754_finite false ma ea) = true ->
  positiveDouble (S754_finite false mb eb) = true ->
  SFleb (S754_finite false ma ea) (S754_finite false mb eb) = true ->
  (Z.pos (fst (shl_align ma ea (Z.min ea eb)))
   <= Z.pos (fst (shl_align mb eb (Z.min ea eb))))%Z.
Proof.
  unfold positiveDouble. intros Ha Hb Hle.
  repeat match goal with
         | H : (_ && _) = true |- _ => apply andb_true_iff in H; destruct H
         | H : (_ <? _)%Z = true |- _ => apply Z.ltb_lt in H
         | H : (_ <=? _)%Z = true |- _ => apply Z.leb_le in H
         end.
  destruct (shl_align_value ma ea (Z.min ea eb) ltac:(lia)) as [Hva _].
  destruct (shl_align_value mb eb (Z.min ea eb) ltac:(lia)) as [Hvb _].
  rewrite Hva, Hvb. clear Hva Hvb.
  unfold SFleb, SFcompare in Hle.
  destruct (Z.compare_spec ea eb) as [Heq|Hlt|Hgt]; try discriminate Hle.
  - subst eb. rewrite Z.min_id, Z.sub_diag. cbn [Z.pow].
    rewrite compare_cont_Eq in Hle.
    destruct (Pos.compare_spec ma mb) as [He|Hl|Hg]; try discriminate Hle; lia.
  - replace (Z.min ea eb) with ea by lia. rewrite Z.sub_diag. cbn [Z.pow].
    assert (Hn : (2 ^ 52 <= Z.pos mb)%Z).
    { match goal with
      | H : (_ || _) = true |- _ =>
          apply orb_true_iff in H; destruct H as [H|H];
          [apply Z.eqb_eq in H; lia | apply Z.leb_le in H; exact H]
      end. }
    assert (Hp : (2 ^ 1 <= 2 ^ (eb - ea))%Z) by (apply Z.pow_le_mono_r; lia).
    change (2 ^ 1)%Z with 2%Z in Hp. nia.
Qed.

Lemma b64_sub_nonneg (a p : float) :
  positiveDouble a = true -> positiveDouble p = true -> SFleb a p = true ->
  nonneg (b64_sub p a) = true.
Proof.
  intros Ha Hp Hle.
  destruct a as [| | |[|] ma ea]; try discriminate Ha.
  destruct p as [| | |[|] mp ep]; try discriminate Hp.
  pose proof (aligned_order ma mp ea ep Ha Hp Hle) as Ho.
  unfold b64_sub, SFsub. cbn [cond_Zopp].
  rewrite (Z.min_comm ep ea). apply binary_normalize_nonneg. lia.
Qed.

Lemma b64_sub_nonpos (a p : float) :
  positiveDouble a = true -> positiveDouble p = true -> SFleb p a = true ->
  nonpos (b64_sub p a) = true.
Proof.
  intros Ha Hp Hle.
  destruct a as [| | |[|] ma ea]; try discriminate Ha.
  destruct p as [| | |[|] mp ep]; try discriminate Hp.
  pose proof (aligned_order mp ma ep ea Hp Ha Hle) as Ho.
  unfold b64_sub, SFsub. cbn [cond_Zopp].
  apply binary_normalize_nonpos. lia.
Qed.

Lemma nonpos_le_zero (x : float) : nonpos x = true -> SFleb x (b64_ofZ 0) = true.
Proof. destruct x as [[|]|[|]| |[|] m e]; try discriminate; reflexivity. Qed.

Lemma nonneg_ge_zero (x : float) : nonneg x = true -> SFleb (b64_ofZ 0) x = true.
Proof. destruct x as [[|]|[|]| |[|] m e]; try discriminate; reflexivity. Qed.

Lemma signal_unfold (price ma20 ma50 : float) :
  calculateMeanReversionSignal (NUM := NUM) price ma20 ma50
  = b64_div (SFopp (b64_add (b64_div (b64_sub price ma20) ma20)
                            (b64_div (b64_sub price ma50) ma50)))
            (S754_finite false 4503599627370496 (-51)).
Proof. reflexivity. Qed.

(** For a positive price and positive averages: when the price is at or
    above both averages, [calculateMeanReversionSignal] is negative or a
    zero, and not NaN; when the price is at or below both, it is positive
    or a zero, and not NaN; when the price equals both, it is [-0]. *)
Theorem calculateMeanReversionSignal_sign (price ma20 ma50 : float) :
  positiveDouble price = true -> positiveDouble ma20 = true ->
  positiveDouble ma50 = true ->
  (SFleb ma20 price = true -> SFleb ma50 price = true ->
   SFleb (calculateMeanReversionSignal (NUM := NUM) price ma20 ma50) (b64_ofZ 0) = true)
  /\ (SFleb price ma20 = true -> SFleb price ma50 = true ->
      SFleb (b64_ofZ 0) (calculateMeanReversionSignal (NUM := NUM) price ma20 ma50) = true)
  /\ (ma20 = price -> ma50 = price ->
      calculateMeanReversionSignal (NUM := NUM) price ma20 ma50 = S754_zero true).
Proof.
  intros Hp H20 H50. rewrite signal_unfold.
  assert (E20 : exists m e, ma20 = S754_finite false m e)
    by (destruct ma20 as [| | |[|] m e]; try discriminate H20; eauto).
  assert (E50 : exists m e, ma50 = S754_finite false m e)
    by (destruct ma50 as [| | |[|] m e]; try discriminate H50; eauto).
  destruct E20 as (m20 & e20 & E20), E50 as (m50 & e50 & E50).
  split; [|split].
  - intros L20 L50.
    apply nonpos_le_zero, b64_div_nonpos. rewrite nonpos_SFopp.
    apply b64_add_nonneg.
    + pose proof (b64_sub_nonneg ma20 price H20 Hp L20) as Hs.
      rewrite E20 at 2. now apply b64_div_nonneg.
    + pose proof (b64_sub_nonneg ma50 price H50 Hp L50) as Hs.
      rewrite E50 at 2. now apply b64_div_nonneg.
  - intros L20 L50.
    apply nonneg_ge_zero, b64_div_nonneg. rewrite nonneg_SFopp.
    apply b64_add_nonpos.
    + pose proof (b64_sub_nonpos ma20 price H20 Hp L20) as Hs.
      rewrite E20 at 2. now apply b64_div_nonpos.
    + pose proof (b64_sub_nonpos ma50 price H50 Hp L50) as Hs.
      rewrite E50 at 2. now apply b64_div_nonpos.
  - intros Q20 Q50. rewrite Q20, Q50. clear - Hp.
    destruct price as [| | |[|] m e]; try discriminate Hp.
    unfold b64_sub, SFsub. cbn [cond_Zopp]. rewrite Z.sub_diag.
    reflexivity.
Qed.

End Binary64Signal.

(** ** The caller of the forecast *)

Section StockServiceFacts.

Import String Binary64 Binary64Facts StockService.

Variable mathExp : float -> float.

Local Abbreviation NUM := (binary64 mathExp).

Lemma filter_all_nan (closes : list float) :
  Forall (fun price => isNaN price = true) closes ->
  filter (fun price => negb (isNaN price)) closes = [].
Proof.
  induction 1 as [|p l Hp _ IH]; [reflexivity|]. cbn [filter]. now rewrite Hp.
Qed.

Lemma filter_some_number (closes : list float) :
  Exists (fun price => isNaN price = false) closes ->
  (0 <? List.length (rev (filter (fun price => negb (isNaN price)) closes)))%nat = true.
Proof.
  intros Hex. apply Nat.ltb_lt. rewrite length_rev.
  apply Exists_exists in Hex. destruct Hex as (p & Hin & Hp).
  assert (Hf : In p (filter (fun price => negb (isNaN price)) closes))
    by (apply filter_In; split; [assumption | now rewrite Hp]).
  destruct (filter _ closes); [contradiction | simpl; lia].
Qed.

(** When the request for SPY fails or gives no close that is a number, and
    the request for QQQ gives one at least, the closes of QQQ, oldest last
    in the response and reversed, are the reference series of the
    forecast, and no series is left as a correlated stock. *)
Theorem predictions_reference_without_spy
    (draws : nat -> float) (targetPrices qqq : list float)
    (closesOf : string -> option (list float)) :
  (closesOf "SPY"%string = None
   \/ exists closes, closesOf "SPY"%string = Some closes
                     /\ Forall (fun price => isNaN price = true) closes) ->
  closesOf "QQQ"%string = Some qqq ->
  Exists (fun price => isNaN price = false) qqq ->
  predictions mathExp draws targetPrices closesOf
  = predictFuturePrices (NUM := NUM) draws targetPrices
      (rev (filter (fun price => negb (isNaN price)) qqq)) [] 5.
Proof.
  intros Hspy Hqqq Hex. unfold predictions.
  assert (Hcd : correlationData closesOf
                = [rev (filter (fun price => negb (isNaN price)) qqq)]).
  { unfold correlationData, CORRELATION_SYMBOLS. cbn [fold_left].
    rewrite Hqqq. destruct Hspy as [-> | (closes & -> & Hall)].
    - now rewrite (filter_some_number qqq Hex).
    - rewrite (filter_some_number qqq Hex), (filter_all_nan closes Hall). reflexivity. }
  rewrite Hcd. reflexivity.
Qed.

(** [getStockData] asks for 5 days: it gets 5 predictions from 50 closes or
    more, and none from fewer. *)
Theorem predictions_count
    (draws : nat -> float) (targetPrices : list float)
    (closesOf : string -> option (list float)) :
  List.length (predictions mathExp draws targetPrices closesOf)
  = if (List.length targetPrices <? 50)%nat then 0%nat else 5%nat.
Proof.
  unfold predictions. destruct (List.length targetPrices <? 50)%nat eqn:Hlen.
  - apply Nat.ltb_lt in Hlen. now rewrite predictFuturePrices_short.
  - apply Nat.ltb_ge in Hlen. rewrite predictFuturePrices_unfold by assumption.
    now rewrite length_map, length_seq.
Qed.

End StockServiceFacts.

(** ** The chart *)

Section StockChartFacts.

Import String Binary64 Binary64Facts Types StockChart.

Lemma newHeight_in_range (v : float) :
  heightInRange (b64_max (b64_ofZ 400) (b64_min (b64_ofZ 1200) v)).
Proof.
  unfold heightInRange. destruct (isNaN v) eqn:Hv.
  - left. destruct v; try discriminate Hv. now rewrite b64_min_nan_r, b64_max_nan_r.
  - right.
    destruct (b64_min_cases (b64_ofZ 1200) v eq_refl Hv) as (Hmin & Hle & _).
    assert (Hn : isNaN (b64_min (b64_ofZ 1200) v) = false)
      by (destruct Hmin as [-> | ->]; [reflexivity | assumption]).
    destruct (b64_max_cases (b64_ofZ 400) _ eq_refl Hn) as (Hmax & Hge & _).
    split; [assumption|].
    destruct Hmax as [-> | ->]; [reflexivity | assumption].
Qed.

Lemma handle_in_range (st : Resize) (e : MouseEvent) :
  heightInRange (height st) -> heightInRange (height (handle st e)).
Proof.
  intros Hst. destruct e as [y|y|]; cbn [handle]; try exact Hst.
  unfold handleMouseMove. destruct (negb (isDragging st)); [exact Hst|].
  cbn [height]. apply newHeight_in_range.
Qed.

(** Whatever the mouse does, the height of the chart stays between 400 and
    1200 (it is NaN only through a coordinate that is no number). *)
Theorem resize_keeps_height_in_range (events : list MouseEvent) :
  isNaN (height (fold_left handle events initial)) = true
  \/ (SFleb (b64_ofZ 400) (height (fold_left handle events initial)) = true
      /\ SFleb (height (fold_left handle events initial)) (b64_ofZ 1200) = true).
Proof.
  change (heightInRange (height (fold_left handle events initial))).
  assert (Hinit : heightInRange (height initial)) by (right; split; reflexivity).
  revert Hinit. generalize initial.
  induction events as [|e events IH]; intros st Hst; [exact Hst|].
  cbn [fold_left]. apply IH. now apply handle_in_range.
Qed.

Lemma mapGet_unique (entries : list (string * float)) (key : string) (v : float) :
  NoDup (map fst entries) -> In (key, v) entries -> mapGet entries key = Some v.
Proof.
  induction entries as [|[k w] rest IH]; intros Hnd Hin; [contradiction|].
  cbn [map fst] in Hnd. inversion Hnd as [|? ? Hk Hrest]; subst.
  cbn [mapGet]. destruct Hin as [Heq|Hin].
  - inversion Heq; subst.
    destruct (mapGet rest key) as [later|] eqn:Hg.
    + exfalso. apply Hk. clear - Hg.
      induction rest as [|[k' w'] rest IH]; [discriminate|].
      cbn [mapGet] in Hg. cbn [map fst]. destruct (mapGet rest key).
      * right. now apply IH.
      * destruct (String.eqb_spec k' key); [now left | discriminate].
    + now rewrite String.eqb_refl.
  - now rewrite (IH Hrest Hin).
Qed.

(** With one datum per date, the point the chart draws at the date of a
    datum is its close, and the point at the date of a prediction is its
    price, except that a close or price of 0 or NaN leaves a gap. *)
Theorem chart_points (sortedDates : list string) (k : nat) :
  (forall (data : list StockData) (item : StockData),
      NoDup (map date data) -> In item data ->
      nth_error sortedDates k = Some (date item) ->
      nth_error (historicalData sortedDates data) k = Some (orNull (Some (close item))))
  /\ (forall (predictions : list Prediction) (item : Prediction),
      NoDup (map pdate predictions) -> In item predictions ->
      nth_error sortedDates k = Some (pdate item) ->
      nth_error (predictionData sortedDates predictions) k
      = Some (orNull (Some (price item)))).
Proof.
  split.
  - intros data item Hnd Hin Hk. unfold historicalData.
    rewrite nth_error_map, Hk. cbn [option_map]. do 2 f_equal.
    apply mapGet_unique.
    + now rewrite map_map.
    + apply in_map_iff. now exists item.
  - intros predictions item Hnd Hin Hk. unfold predictionData.
    rewrite nth_error_map, Hk. cbn [option_map]. do 2 f_equal.
    apply mapGet_unique.
    + now rewrite map_map.
    + apply in_map_iff. now exists item.
Qed.

Lemma mapGet_nan (entries : list (string * float)) (key : string) :
  Forall (fun entry => snd entry = S754_nan) entries ->
  orNull (mapGet entries key) = None.
Proof.
  induction 1 as [|[k v] rest Hv _ IH]; [reflexivity|].
  cbn [mapGet]. destruct (mapGet rest key) as [later|]; [exact IH|].
  destruct (k =? key)%string; [|reflexivity]. cbn [snd] in Hv. now rewrite Hv.
Qed.

(** A forecast whose correlation is NaN (as on a flat history) is not drawn:
    every predicted price is NaN, and the prediction dataset holds [null]
    at every date. *)
Theorem nan_forecast_draws_no_point
    (mathExp : float -> float) (draws : nat -> float) (targetPrices spyPrices : list float)
    (correlatedStocksPrices : list (list float)) (daysToPredict : Z)
    (sortedDates : list string) (predictions : list Prediction) :
  (50 <= List.length targetPrices)%nat ->
  correlation (snapshot (NUM := binary64 mathExp) (sliceFrom targetPrices (-50)) spyPrices)
  = S754_nan ->
  map price predictions
  = predictFuturePrices (NUM := binary64 mathExp) draws targetPrices spyPrices
                        correlatedStocksPrices daysToPredict ->
  predictionData sortedDates predictions = repeat None (List.length sortedDates).
Proof.
  intros Hlen Hc Hprices.
  assert (Hnan : Forall (fun item => price item = S754_nan) predictions).
  { rewrite predictFuturePrices_unfold in Hprices by assumption.
    apply Forall_forall. intros item Hin.
    assert (Hp : In (price item) (map price predictions))
      by (apply in_map_iff; exists item; split; [reflexivity | exact Hin]).
    rewrite Hprices in Hp. apply in_map_iff in Hp. destruct Hp as (k & <- & _).
    cbn [runningPrice b64_toFixed2 toFixed2 binary64].
    rewrite (nextPrice_nan_correlation mathExp _ _ _ _ Hc). reflexivity. }
  unfold predictionData.
  assert (Hall : Forall (fun entry => snd entry = S754_nan)
                        (map (fun item => (pdate item, price item)) predictions)).
  { apply Forall_forall. intros entry Hin. apply in_map_iff in Hin.
    destruct Hin as (item & <- & Hitem). cbn [snd].
    rewrite Forall_forall in Hnan. exact (Hnan item Hitem). }
  induction sortedDates as [|d rest IH]; [reflexivity|].
  cbn [map List.length repeat]. rewrite IH, (mapGet_nan _ d Hall). reflexivity.
Qed.

End StockChartFacts.

(** ** The list of stocks *)

Section AppFacts.

Import String Types App.

Variable toUpperCase : string -> string.




End AppFacts.

(** ** The theorems at concrete inputs *)

Section Instances.

Import Binary64 Binary64Facts Runs.

(** C1 at 49 prices and a horizon of 5. *)
Lemma predictFuturePrices_insufficient_history_at_49 :
  (length (firstn 49 flatPrices) < 50)%nat
  /\ predictFuturePrices (NUM := stubbed) (constantDraws (b64_lit 1 2))
                         (firstn 49 flatPrices) indexPrices [] 5 = [].
Proof.
  assert (H : (length (firstn 49 flatPrices) < 50)%nat) by (vm_compute; lia).
  split; [exact H|].
  exact (predictFuturePrices_insufficient_history (NUM := stubbed)
           (constantDraws (b64_lit 1 2)) (firstn 49 flatPrices) indexPrices [] 5 H).
Defined.

(** C2 on [pennyPrices] and [indexPrices] with a horizon of 3. *)
Lemma predictFuturePrices_length_and_order_at_3 :
  Z.of_nat (length (predictFuturePrices (NUM := stubbed) (constantDraws (b64_lit 99 100))
                                        pennyPrices indexPrices [] 3)) = 3%Z
  /\ forall k : nat, (Z.of_nat k < 3)%Z ->
       nth_error (predictFuturePrices (NUM := stubbed) (constantDraws (b64_lit 99 100))
                                      pennyPrices indexPrices [] 3) k
       = Some (toFixed2 (Number := stubbed)
                 (runningPrice (NUM := stubbed) (constantDraws (b64_lit 99 100))
                    (snapshot (NUM := stubbed) (sliceFrom pennyPrices (-50)) indexPrices)
                    (lastOf (NUM := stubbed) (sliceFrom pennyPrices (-50))) (S k))).
Proof.
  apply (predictFuturePrices_length_and_order (NUM := stubbed)
           (constantDraws (b64_lit 99 100)) pennyPrices indexPrices [] 3).
  - vm_compute. lia.
  - vm_compute. lia.
  - lia.
Defined.

(** C4 (amended) on [pennyPrices] and [indexPrices], at the third step: the
    clamped change lies within the bound 0.1 and the price returned, 0.02, is
    the rounded running price. *)
Lemma running_price_change_within_maxChange_at_step_3 :
  within (boundedChange (NUM := stubbed) pennySnapshot
            (runningPrice (NUM := stubbed) (constantDraws (b64_lit 99 100))
               pennySnapshot (b64_lit 148 10000) 2)
            3 (b64_lit 99 100))
         (b64_lit 1 10) = true
  /\ nth_error (predictFuturePrices (NUM := stubbed) (constantDraws (b64_lit 99 100))
                                    pennyPrices indexPrices [] 3) 2
     = Some (b64_lit 2 100).
Proof.
  assert (H50 : (50 <= length pennyPrices)%nat) by (vm_compute; lia).
  assert (H2 : (2 <= length indexPrices)%nat) by (vm_compute; lia).
  assert (Hk : (Z.of_nat 2 < 3)%Z) by lia.
  destruct (running_price_change_within_maxChange expSeries
              (constantDraws (b64_lit 99 100)) pennyPrices indexPrices [] 3 2
              H50 H2 Hk) as (_ & _ & _ & Hin & Hout).
  split.
  - apply Hin. vm_compute. reflexivity.
  - etransitivity; [exact Hout | vm_compute; reflexivity].
Defined.

(** C5 on the rising prices 1, 2, 3 with period 2. *)
Lemma calculateRSI_no_losses_is_70_at_rising :
  calculateRSI (NUM := stubbed) [b64_ofZ 1; b64_ofZ 2; b64_ofZ 3] 2 = b64_ofZ 70
  /\ SFeqb (calculateRSI (NUM := stubbed) [b64_ofZ 1; b64_ofZ 2; b64_ofZ 3] 2)
           (b64_ofZ 100) = false.
Proof.
  apply (calculateRSI_no_losses_is_70 expSeries [b64_ofZ 1; b64_ofZ 2; b64_ofZ 3] 2).
  - lia.
  - vm_compute. reflexivity.
Defined.

(** C6 on the prices 1, 2, 3, 4 with period 3, at the indices 1, 2 and 3. *)
Lemma calculateMA_entries_at_period_3 :
  nth_error (calculateMA (NUM := stubbed)
               [b64_ofZ 1; b64_ofZ 2; b64_ofZ 3; b64_ofZ 4] 3) 1 = Some S754_nan
  /\ nth_error (calculateMA (NUM := stubbed)
                  [b64_ofZ 1; b64_ofZ 2; b64_ofZ 3; b64_ofZ 4] 3) 2 = Some (b64_ofZ 2)
  /\ nth_error (calculateMA (NUM := stubbed)
                  [b64_ofZ 1; b64_ofZ 2; b64_ofZ 3; b64_ofZ 4] 3) 3 = Some (b64_ofZ 3).
Proof.
  assert (H1 : (1 < length [b64_ofZ 1; b64_ofZ 2; b64_ofZ 3; b64_ofZ 4])%nat)
    by (simpl; lia).
  assert (H2 : (2 < length [b64_ofZ 1; b64_ofZ 2; b64_ofZ 3; b64_ofZ 4])%nat)
    by (simpl; lia).
  assert (H3 : (3 < length [b64_ofZ 1; b64_ofZ 2; b64_ofZ 3; b64_ofZ 4])%nat)
    by (simpl; lia).
  destruct (calculateMA_entries (NUM := stubbed)
              [b64_ofZ 1; b64_ofZ 2; b64_ofZ 3; b64_ofZ 4] 3 1 H1) as (_ & Hnan & _ & _).
  destruct (calculateMA_entries (NUM := stubbed)
              [b64_ofZ 1; b64_ofZ 2; b64_ofZ 3; b64_ofZ 4] 3 2 H2) as (_ & _ & Hfirst & _).
  destruct (calculateMA_entries (NUM := stubbed)
              [b64_ofZ 1; b64_ofZ 2; b64_ofZ 3; b64_ofZ 4] 3 3 H3) as (_ & _ & _ & Hlater).
  split; [|split].
  - apply Hnan. lia.
  - destruct Hfirst as [_ ->]; [lia|]. vm_compute. reflexivity.
  - destruct Hlater as [_ ->]; [lia|]. vm_compute. reflexivity.
Defined.

(** C7 (amended) on the sequence 1, 2, 5. *)
Lemma calculateCorrelation_self_is_1_at_1_2_5 :
  calculateCorrelation (NUM := stubbed) [b64_ofZ 1; b64_ofZ 2; b64_ofZ 5]
                                        [b64_ofZ 1; b64_ofZ 2; b64_ofZ 5]
  = b64_ofZ 1.
Proof.
  apply (calculateCorrelation_self_is_1 expSeries [b64_ofZ 1; b64_ofZ 2; b64_ofZ 5]).
  - simpl. lia.
  - vm_compute. reflexivity.
Defined.

(** C8 on [pennyPrices] for three days with [Math.random] stubbed to return
    0.99: the second of two calls in a row returns what the first
    returned. *)
Lemma predictFuturePrices_repeatable_at_penny :
  let call := Store.predictFuturePrices (NUM := stubbed)
                (constantRandom (b64_lit 99 100)) 0%nat 1%nat [] 3 in
  let w := worldOf pennyPrices 0%nat in
  Store.arrayAt (snd (call (snd (call w)))) (fst (call (snd (call w))))
  = Store.arrayAt (snd (call w)) (fst (call w)).
Proof.
  intros call w.
  destruct (predictFuturePrices_repeatable (NUM := stubbed)
              (constantRandom (b64_lit 99 100)) 0%nat 1%nat [] 3)
    as [_ [_ [H _]]].
  apply (H (b64_lit 99 100)).
  - intros g. reflexivity.
  - unfold Store.valid. cbn. lia.
  - unfold Store.valid. cbn. lia.
Defined.

(** C10 (amended) on the prices 1, 3, 2 with period 2. *)
Lemma calculateRSI_within_0_100_at_1_3_2 :
  (0 < 2)%Z
  /\ (calculateRSI (NUM := stubbed) [b64_ofZ 1; b64_ofZ 3; b64_ofZ 2] 2 = b64_ofZ 70
      \/ exists rs : float,
           (isNaN rs = true \/ pos0 rs = true)
           /\ calculateRSI (NUM := stubbed) [b64_ofZ 1; b64_ofZ 3; b64_ofZ 2] 2
              = b64_sub (b64_ofZ 100)
                        (b64_div (b64_ofZ 100) (b64_add (b64_ofZ 1) rs)))
  /\ (isNaN (calculateRSI (NUM := stubbed) [b64_ofZ 1; b64_ofZ 3; b64_ofZ 2] 2) = true
      \/ (SFleb (b64_ofZ 0)
                (calculateRSI (NUM := stubbed) [b64_ofZ 1; b64_ofZ 3; b64_ofZ 2] 2) = true
          /\ SFleb (calculateRSI (NUM := stubbed) [b64_ofZ 1; b64_ofZ 3; b64_ofZ 2] 2)
                   (b64_ofZ 100) = true)).
Proof.
  split; [lia|].
  apply (calculateRSI_within_0_100 expSeries [b64_ofZ 1; b64_ofZ 3; b64_ofZ 2] 2). lia.
Defined.

(** [calculateCorrelation_short] on a sequence of one entry. *)
Lemma calculateCorrelation_short_at_1 :
  calculateCorrelation (NUM := stubbed) [b64_ofZ 7] [b64_ofZ 1; b64_ofZ 2] = b64_ofZ 0.
Proof.
  apply (calculateCorrelation_short (NUM := stubbed) [b64_ofZ 7] [b64_ofZ 1; b64_ofZ 2]).
  simpl. lia.
Defined.

(** [calculateMomentum_short] on 3 prices with period 10. *)
Lemma calculateMomentum_short_at_3 :
  calculateMomentum (NUM := stubbed) [b64_ofZ 1; b64_ofZ 2; b64_ofZ 3] 10 = b64_ofZ 0.
Proof.
  apply (calculateMomentum_short (NUM := stubbed) [b64_ofZ 1; b64_ofZ 2; b64_ofZ 3] 10).
  simpl. lia.
Defined.

(** [calculateReturns_entries] on the prices 2, 3, 6: the returns are 1/2
    and 1. *)
Lemma calculateReturns_entries_at_2_3_6 :
  length (calculateReturns (NUM := stubbed) [b64_ofZ 2; b64_ofZ 3; b64_ofZ 6]) = 2%nat
  /\ nth_error (calculateReturns (NUM := stubbed) [b64_ofZ 2; b64_ofZ 3; b64_ofZ 6]) 1
     = Some (b64_ofZ 1).
Proof.
  assert (H : (1 + 1 < length [b64_ofZ 2; b64_ofZ 3; b64_ofZ 6])%nat) by (simpl; lia).
  destruct (calculateReturns_entries (NUM := stubbed)
              [b64_ofZ 2; b64_ofZ 3; b64_ofZ 6] 1 H) as [Hl He].
  split; [exact Hl|]. etransitivity; [exact He | vm_compute; reflexivity].
Defined.

(** [nan_correlation_makes_every_price_nan] on a flat history: the returns
    of [flatPrices] have no variance. *)
Lemma flat_history_every_price_nan :
  predictFuturePrices (NUM := stubbed) (constantDraws (b64_lit 1 2))
                      flatPrices indexPrices [] 4
  = [S754_nan; S754_nan; S754_nan; S754_nan].
Proof.
  apply (nan_correlation_makes_every_price_nan expSeries (constantDraws (b64_lit 1 2))
           flatPrices indexPrices [] 4).
  - vm_compute. lia.
  - vm_compute. reflexivity.
Defined.

(** [predictFuturePrices_older_prices_ignored] with two older closes before
    the 50 of [pennyPrices]. *)
Lemma predictFuturePrices_older_prices_ignored_at_2 :
  (50 <= length pennyPrices)%nat
  /\ predictFuturePrices (NUM := stubbed) (constantDraws (b64_lit 99 100))
                         ([b64_ofZ 7; b64_ofZ 9] ++ pennyPrices) indexPrices [] 3
     = predictFuturePrices (NUM := stubbed) (constantDraws (b64_lit 99 100))
                           pennyPrices indexPrices [] 3.
Proof.
  assert (H : (50 <= length pennyPrices)%nat) by (vm_compute; lia).
  split; [exact H|].
  exact (predictFuturePrices_older_prices_ignored (NUM := stubbed)
           (constantDraws (b64_lit 99 100)) [b64_ofZ 7; b64_ofZ 9] pennyPrices
           indexPrices [] 3 H).
Defined.

(** [predictFuturePrices_older_reference_ignored] with one older close
    before the 30 of [indexPrices]. *)
Lemma predictFuturePrices_older_reference_ignored_at_1 :
  (20 <= length indexPrices)%nat
  /\ predictFuturePrices (NUM := stubbed) (constantDraws (b64_lit 99 100))
                         pennyPrices ([b64_ofZ 390] ++ indexPrices) [] 3
     = predictFuturePrices (NUM := stubbed) (constantDraws (b64_lit 99 100))
                           pennyPrices indexPrices [] 3.
Proof.
  assert (H : (20 <= length indexPrices)%nat) by (vm_compute; lia).
  split; [exact H|].
  exact (predictFuturePrices_older_reference_ignored (NUM := stubbed)
           (constantDraws (b64_lit 99 100)) pennyPrices [b64_ofZ 390] indexPrices
           [] 3 H).
Defined.

(** [predictFuturePrices_prefix] for the horizons 2 and 3. *)
Lemma predictFuturePrices_prefix_at_2_3 :
  (2 <= 3)%Z
  /\ predictFuturePrices (NUM := stubbed) (constantDraws (b64_lit 99 100))
                         pennyPrices indexPrices [] 2
     = firstn (Z.to_nat 2)
         (predictFuturePrices (NUM := stubbed) (constantDraws (b64_lit 99 100))
                              pennyPrices indexPrices [] 3).
Proof.
  assert (H : (2 <= 3)%Z) by lia.
  split; [exact H|].
  exact (predictFuturePrices_prefix (NUM := stubbed) (constantDraws (b64_lit 99 100))
           pennyPrices indexPrices [] 2 3 H).
Defined.

(** [snapshot_moving_averages] on [pennyPrices]. *)
Lemma snapshot_moving_averages_at_penny :
  (50 <= length pennyPrices)%nat
  /\ lastOf (NUM := stubbed)
       (ma20 (snapshot (NUM := stubbed) (sliceFrom pennyPrices (-50)) indexPrices))
     = div (Number := stubbed)
           (sum (NUM := stubbed) (skipn (length pennyPrices - 20) pennyPrices))
           (ofZ (Number := stubbed) 20)
  /\ lastOf (NUM := stubbed)
       (ma50 (snapshot (NUM := stubbed) (sliceFrom pennyPrices (-50)) indexPrices))
     = div (Number := stubbed)
           (sum (NUM := stubbed) (skipn (length pennyPrices - 50) pennyPrices))
           (ofZ (Number := stubbed) 50).
Proof.
  assert (H : (50 <= length pennyPrices)%nat) by (vm_compute; lia).
  split; [exact H|].
  exact (snapshot_moving_averages (NUM := stubbed) pennyPrices indexPrices H).
Defined.

(** [calculateMA_period_exceeds_length] on two prices with the period 5. *)
Lemma calculateMA_period_exceeds_length_at_5 :
  (Z.of_nat (length [b64_ofZ 1; b64_ofZ 2]) < 5)%Z
  /\ calculateMA (NUM := stubbed) [b64_ofZ 1; b64_ofZ 2] 5 = [S754_nan; S754_nan].
Proof.
  assert (H : (Z.of_nat (length [b64_ofZ 1; b64_ofZ 2]) < 5)%Z) by (simpl; lia).
  split; [exact H|].
  exact (calculateMA_period_exceeds_length (NUM := stubbed) [b64_ofZ 1; b64_ofZ 2] 5 H).
Defined.

(** [calculateVolatility_few_prices] on one price. *)
Lemma calculateVolatility_few_prices_at_1 :
  (length (sliceFrom [b64_ofZ 5] (- (20))) < 2)%nat
  /\ calculateVolatility (NUM := stubbed) [b64_ofZ 5] 20 = S754_nan.
Proof.
  assert (H : (length (sliceFrom [b64_ofZ 5] (- (20))) < 2)%nat) by (vm_compute; lia).
  split; [exact H|].
  exact (calculateVolatility_few_prices expSeries [b64_ofZ 5] 20 H).
Defined.

(** [calculateMomentum_few_prices] on three prices with the period 1. *)
Lemma calculateMomentum_few_prices_at_period_1 :
  (1 <= Z.of_nat (length [b64_ofZ 1; b64_ofZ 2; b64_ofZ 3]))%Z
  /\ (length (sliceFrom [b64_ofZ 1; b64_ofZ 2; b64_ofZ 3] (- (1))) < 2)%nat
  /\ calculateMomentum (NUM := stubbed) [b64_ofZ 1; b64_ofZ 2; b64_ofZ 3] 1 = S754_nan.
Proof.
  assert (H1 : (1 <= Z.of_nat (length [b64_ofZ 1; b64_ofZ 2; b64_ofZ 3]))%Z)
    by (simpl; lia).
  assert (H2 : (length (sliceFrom [b64_ofZ 1; b64_ofZ 2; b64_ofZ 3] (- (1))) < 2)%nat)
    by (vm_compute; lia).
  split; [exact H1|]. split; [exact H2|].
  exact (calculateMomentum_few_prices expSeries [b64_ofZ 1; b64_ofZ 2; b64_ofZ 3] 1 H1 H2).
Defined.

(** [calculateRSI_few_prices] on one price with the period 14. *)
Lemma calculateRSI_few_prices_at_1 :
  (length [b64_ofZ 5] < 2)%nat /\ 14%Z <> 0%Z
  /\ calculateRSI (NUM := stubbed) [b64_ofZ 5] 14 = b64_ofZ 70.
Proof.
  assert (H1 : (length [b64_ofZ 5] < 2)%nat) by (simpl; lia).
  assert (H2 : 14%Z <> 0%Z) by lia.
  split; [exact H1|]. split; [exact H2|].
  exact (calculateRSI_few_prices expSeries [b64_ofZ 5] 14 H1 H2).
Defined.

(** [calculateMA_nonpositive_period] on two prices with the period -3. *)
Lemma calculateMA_nonpositive_period_at_minus_3 :
  (-3 <= 0)%Z
  /\ calculateMA (NUM := stubbed) [b64_ofZ 1; b64_ofZ 2] (-3)
     = [S754_zero true; S754_zero true].
Proof.
  assert (H : (-3 <= 0)%Z) by lia.
  split; [exact H|].
  exact (calculateMA_nonpositive_period expSeries [b64_ofZ 1; b64_ofZ 2] (-3) H).
Defined.

(** [predictFuturePrices_never_negative] on [pennyPrices]. *)
Lemma predictFuturePrices_never_negative_at_penny :
  notNegative (lastOf (NUM := stubbed) pennyPrices) = true
  /\ Forall (fun price => notNegative price = true)
            (predictFuturePrices (NUM := stubbed) (constantDraws (b64_lit 99 100))
                                 pennyPrices indexPrices [] 3).
Proof.
  assert (H : notNegative (lastOf (NUM := stubbed) pennyPrices) = true)
    by (vm_compute; reflexivity).
  split; [exact H|].
  exact (predictFuturePrices_never_negative expSeries (constantDraws (b64_lit 99 100))
           pennyPrices indexPrices [] 3 H).
Defined.

(** [calculateMeanReversionSignal_sign] for the price 110 against the
    averages 100 and 105. *)
Lemma calculateMeanReversionSignal_sign_at_110 :
  positiveDouble (b64_ofZ 110) = true /\ positiveDouble (b64_ofZ 100) = true
  /\ positiveDouble (b64_ofZ 105) = true
  /\ SFleb (b64_ofZ 100) (b64_ofZ 110) = true /\ SFleb (b64_ofZ 105) (b64_ofZ 110) = true
  /\ SFleb (calculateMeanReversionSignal (NUM := stubbed)
              (b64_ofZ 110) (b64_ofZ 100) (b64_ofZ 105))
           (b64_ofZ 0) = true.
Proof.
  assert (Hp : positiveDouble (b64_ofZ 110) = true) by (vm_compute; reflexivity).
  assert (H20 : positiveDouble (b64_ofZ 100) = true) by (vm_compute; reflexivity).
  assert (H50 : positiveDouble (b64_ofZ 105) = true) by (vm_compute; reflexivity).
  assert (L20 : SFleb (b64_ofZ 100) (b64_ofZ 110) = true) by (vm_compute; reflexivity).
  assert (L50 : SFleb (b64_ofZ 105) (b64_ofZ 110) = true) by (vm_compute; reflexivity).
  repeat (split; [assumption|]).
  destruct (calculateMeanReversionSignal_sign expSeries (b64_ofZ 110) (b64_ofZ 100)
              (b64_ofZ 105) Hp H20 H50) as [H _].
  exact (H L20 L50).
Defined.

End Instances.

(** ** The caller, the chart and the list of stocks at concrete inputs *)

Section ServiceInstances.

Import String Binary64 Runs Types StockService StockChart App.

(** [predictions_reference_without_spy] when the request for SPY fails and
    the one for QQQ gives the closes 3 and 2. *)
Lemma predictions_reference_without_spy_at_3_2 :
  StockService.predictions expSeries (constantDraws (b64_lit 99 100)) pennyPrices
              (fun corrSymbol => if (corrSymbol =? "QQQ")%string
                                 then Some [b64_ofZ 3; b64_ofZ 2] else None)
  = predictFuturePrices (NUM := stubbed) (constantDraws (b64_lit 99 100)) pennyPrices
      [b64_ofZ 2; b64_ofZ 3] [] 5.
Proof.
  apply (predictions_reference_without_spy expSeries (constantDraws (b64_lit 99 100))
           pennyPrices [b64_ofZ 3; b64_ofZ 2]
           (fun corrSymbol => if (corrSymbol =? "QQQ")%string
                              then Some [b64_ofZ 3; b64_ofZ 2] else None)).
  - left. reflexivity.
  - reflexivity.
  - constructor. reflexivity.
Defined.


(** [nan_forecast_draws_no_point] on [flatPrices], for a chart of three
    dates. *)
Lemma nan_forecast_draws_no_point_at_flat :
  predictionData ["2024-01-02"%string; "2024-01-03"%string; "2024-01-04"%string]
                 [{| pdate := "2024-01-03"; price := S754_nan |};
                  {| pdate := "2024-01-04"; price := S754_nan |}]
  = [None; None; None].
Proof.
  apply (nan_forecast_draws_no_point expSeries (constantDraws (b64_lit 1 2))
           flatPrices indexPrices [] 2
           ["2024-01-02"%string; "2024-01-03"%string; "2024-01-04"%string]
           [{| pdate := "2024-01-03"; price := S754_nan |};
            {| pdate := "2024-01-04"; price := S754_nan |}]).
  - vm_compute. lia.
  - vm_compute. reflexivity.
  - vm_compute. reflexivity.
Defined.

End ServiceInstances.
